(** * Dev-Tools: the dependency checker and the README generator

    A shallow embedding of the transformation logic of
    [DependencyChecker.tsx], [BadgeSelector.tsx] and [ReadmeGenerator.tsx],
    with the ECMAScript built-ins they call ([JSON.parse], [JSON.stringify],
    [Object.entries], [String.prototype.trim], [encodeURIComponent], ...)
    modelled after ECMA-262.

    Layout: JavaScript strings, numbers and JSON values first, then the three
    components, then the theorems. *)

From Stdlib Require Import String Ascii List NArith ZArith Lia Bool.
Import ListNotations.
Open Scope list_scope.

Set Implicit Arguments.
Set Warnings "-register-all".

(* ================================================================== *)
(** ** Completions: a value or a thrown exception *)

Inductive exn := SyntaxError | TypeError | URIError.

Inductive completion (A : Type) :=
| Normal (a : A)
| Throw (e : exn).
Arguments Normal {A} a.
Arguments Throw {A} e.

Definition bind {A B} (c : completion A) (k : A -> completion B) : completion B :=
  match c with
  | Normal a => k a
  | Throw e => Throw e
  end.

Declare Scope js_scope.
Delimit Scope js_scope with js.
Notation "x <- c ;; k" := (bind c (fun x => k))
  (at level 61, c at next level, right associativity) : js_scope.
Notation "' p <- c ;; k" := (bind c (fun x => match x with p => k end))
  (at level 61, p pattern, c at next level, right associativity) : js_scope.

(** [arr.forEach(f)] where [f] updates an accumulator and may throw. *)
Fixpoint forEach {A S} (f : S -> A -> completion S) (arr : list A) (s : S)
  : completion S :=
  match arr with
  | [] => Normal s
  | a :: rest => bind (f s a) (forEach f rest)
  end.

(* ================================================================== *)
(** ** JavaScript strings: sequences of UTF-16 code units *)

Definition jsstring : Type := list N.

Module JSString.
Local Open Scope N_scope.

Definition t : Type := jsstring.

(** An ASCII literal as a JavaScript string. *)
Definition lit (s : string) : t := map N_of_ascii (list_ascii_of_string s).

Fixpoint eqb (a b : t) : bool :=
  match a, b with
  | [], [] => true
  | x :: a', y :: b' => (x =? y) && eqb a' b'
  | _, _ => false
  end.

(** [s.startsWith(p)] *)
Fixpoint startsWith (s p : t) : bool :=
  match p, s with
  | [], _ => true
  | y :: p', x :: s' => (x =? y) && startsWith s' p'
  | _ :: _, [] => false
  end.

(** [arr.includes(s)] on an array of strings *)
Definition includes (arr : list t) (s : t) : bool := existsb (eqb s) arr.

(** WhiteSpace and LineTerminator code points (all in the BMP). *)
Definition isWhiteSpace (c : N) : bool :=
  (c =? 9) || (c =? 10) || (c =? 11) || (c =? 12) || (c =? 13) || (c =? 32)
  || (c =? 160) || (c =? 5760) || ((8192 <=? c) && (c <=? 8202))
  || (c =? 8232) || (c =? 8233) || (c =? 8239) || (c =? 8287)
  || (c =? 12288) || (c =? 65279).

Fixpoint trimStart (s : t) : t :=
  match s with
  | c :: s' => if isWhiteSpace c then trimStart s' else s
  | [] => []
  end.

Definition trimEnd (s : t) : t := rev (trimStart (rev s)).

Definition trim (s : t) : t := trimEnd (trimStart s).

(** [s.split(sep)] for a separator of one code unit; never returns [[]]. *)
Fixpoint split (sep : N) (s : t) : list t :=
  match s with
  | [] => [[]]
  | c :: s' =>
      if c =? sep then [] :: split sep s'
      else match split sep s' with
           | cur :: more => (c :: cur) :: more
           | [] => [[c]]
           end
  end.

(** Decimal digits of a natural number, most significant first. *)
Fixpoint digits_aux (fuel : nat) (n : N) (acc : list N) : list N :=
  match fuel with
  | O => acc
  | S fuel' =>
      let acc' := (n mod 10) :: acc in
      if n <? 10 then acc' else digits_aux fuel' (n / 10) acc'
  end.

Definition digits (n : N) : list N := digits_aux (S (N.to_nat (N.log2 n))) n [].

Definition digitChar (d : N) : N := 48 + d.

(** [String(n)] for a non-negative integer below 10^21 *)
Definition ofN (n : N) : t := map digitChar (digits n).

Definition ofNat (n : nat) : t := ofN (N.of_nat n).

Definition isDigit (c : N) : bool := (48 <=? c) && (c <=? 57).

(** Value of a sequence of digit characters. *)
Definition digitsValue (ds : t) : N :=
  fold_left (fun acc c => 10 * acc + (c - 48)) ds 0.

Definition hexChar (upper : bool) (d : N) : N :=
  if d <? 10 then 48 + d else (if upper then 55 else 87) + d.

Definition hexValue (c : N) : option N :=
  if isDigit c then Some (c - 48)
  else if (65 <=? c) && (c <=? 70) then Some (c - 55)
  else if (97 <=? c) && (c <=? 102) then Some (c - 87)
  else None.

Definition isHighSurrogate (c : N) : bool := (55296 <=? c) && (c <=? 56319).
Definition isLowSurrogate (c : N) : bool := (56320 <=? c) && (c <=? 57343).
End JSString.

Notation "` s" := (JSString.lit s) (at level 1, format "` s") : js_scope.

(* ================================================================== *)
(** ** JavaScript numbers: IEEE 754 binary64 values

    [Finite neg m e] is (-1)^neg * m * 2^e with m < 2^53 and
    -1074 <= e <= 971; zero is [Finite neg 0 0].  NaN never arises from
    JSON text. *)

Module Number.
Local Open Scope Z_scope.

Inductive t :=
| Finite (neg : bool) (m : N) (e : Z)
| Infinity (neg : bool).

Definition eqb (x y : t) : bool :=
  match x, y with
  | Finite n1 m1 e1, Finite n2 m2 e2 =>
      Bool.eqb n1 n2 && (m1 =? m2)%N && (e1 =? e2)
  | Infinity n1, Infinity n2 => Bool.eqb n1 n2
  | _, _ => false
  end.

Definition isZero (x : t) : bool :=
  match x with
  | Finite _ 0%N _ => true
  | _ => false
  end.

Definition isFinite (x : t) : bool :=
  match x with
  | Finite _ _ _ => true
  | Infinity _ => false
  end.

(** [2^l * q <= p], for any integer [l] *)
Definition pow2_le_ratio (l p q : Z) : bool :=
  q * 2 ^ Z.max l 0 <=? p * 2 ^ Z.max (- l) 0.

(** floor (log2 (p / q)) for positive [p], [q] *)
Definition floor_log2_ratio (p q : Z) : Z :=
  let l := Z.log2 p - Z.log2 q in
  if pow2_le_ratio l p q then l else l - 1.

(** nearest integer to [num / den], ties to even *)
Definition round_half_even (num den : Z) : Z :=
  let q := num / den in
  let r := num mod den in
  if den <? 2 * r then q + 1
  else if (2 * r =? den) && Z.odd q then q + 1
  else q.

(** The Number value for the decimal [d * 10^e10] (round to nearest,
    ties to even, gradual underflow, overflow to infinity). *)
Definition ofDecimal (neg : bool) (d : N) (e10 : Z) : t :=
  if (d =? 0)%N then Finite neg 0 0
  else
    let p := Z.of_N d * 10 ^ Z.max e10 0 in
    let q := 10 ^ Z.max (- e10) 0 in
    let E := Z.max (-1074) (floor_log2_ratio p q - 52) in
    let M := round_half_even (p * 2 ^ Z.max (- E) 0) (q * 2 ^ Z.max E 0) in
    let M' := if M =? 2 ^ 53 then 2 ^ 52 else M in
    let E' := if M =? 2 ^ 53 then E + 1 else E in
    if 971 <? E' then Infinity neg
    else if M' =? 0 then Finite neg 0 0
    else Finite neg (Z.to_N M') E'.

(** *** Number::toString *)

(** [10^t * b <= a], for any integer [t] *)
Definition pow10_le_ratio (t a b : Z) : bool :=
  b * 10 ^ Z.max t 0 <=? a * 10 ^ Z.max (- t) 0.

(** the [n] with 10^(n-1) <= a/b < 10^n *)
Definition decimal_exponent (a b : Z) : Z :=
  let est := (floor_log2_ratio a b * 30103) / 100000 in
  if pow10_le_ratio (est + 1) a b then est + 2
  else if pow10_le_ratio est a b then est + 1
  else est.

(** The candidate with [k] digits closest to [m * 2^e] that converts back
    to it, as a pair [(s, n - k)]. *)
Definition candidate (m : N) (e : Z) (n0 : Z) (k : Z) : option (N * Z) :=
  let a := Z.of_N m * 2 ^ Z.max e 0 in
  let b := 2 ^ Z.max (- e) 0 in
  let num := a * 10 ^ Z.max (k - n0) 0 in
  let den := b * 10 ^ Z.max (n0 - k) 0 in
  let lo := num / den in
  let r := num mod den in
  let hi := lo + 1 in
  let clo := (Z.to_N lo, n0 - k) in
  let chi := if hi =? 10 ^ k then (Z.to_N (10 ^ (k - 1)), n0 + 1 - k)
             else (Z.to_N hi, n0 - k) in
  let ok c := eqb (ofDecimal false (fst c) (snd c)) (Finite false m e) in
  let lo_first := (2 * r <? den) || ((2 * r =? den) && Z.even lo) in
  let c1 := if lo_first then clo else chi in
  let c2 := if lo_first then chi else clo in
  if ok c1 then Some c1 else if ok c2 then Some c2 else None.

Fixpoint search (m : N) (e : Z) (n0 : Z) (k : Z) (fuel : nat) : option (N * Z) :=
  match fuel with
  | O => None
  | S fuel' =>
      match candidate m e n0 k with
      | Some c => Some c
      | None => search m e n0 (k + 1) fuel'
      end
  end.

(** The exact decimal expansion of [m * 2^e]. *)
Definition exactDecimal (m : N) (e : Z) : N * Z :=
  if 0 <=? e then (Z.to_N (Z.of_N m * 2 ^ e), 0)
  else (Z.to_N (Z.of_N m * 5 ^ (- e)), e).

(** Shortest decimal [(s, p)], meaning s * 10^p, that converts back to
    [m * 2^e]; seventeen digits always suffice for a binary64 value. *)
Definition shortest (m : N) (e : Z) : N * Z :=
  let a := Z.of_N m * 2 ^ Z.max e 0 in
  let b := 2 ^ Z.max (- e) 0 in
  match search m e (decimal_exponent a b) 1 17 with
  | Some c => c
  | None => exactDecimal m e
  end.

Definition zeros (n : Z) : jsstring := repeat 48%N (Z.to_nat n).

(** Layout of the digit string [ds] (k digits) with decimal point after
    the [n]-th digit, as Number::toString prescribes. *)
Definition layout (ds : jsstring) (n : Z) : jsstring :=
  let k := Z.of_nat (length ds) in
  if (k <=? n) && (n <=? 21) then ds ++ zeros (n - k)
  else if (0 <? n) && (n <=? 21) then
    firstn (Z.to_nat n) ds ++ [46%N] ++ skipn (Z.to_nat n) ds
  else if (-6 <? n) && (n <=? 0) then
    [48%N; 46%N] ++ zeros (- n) ++ ds
  else
    let e := n - 1 in
    let es := (if e <? 0 then 45%N else 43%N) :: JSString.ofN (Z.to_N (Z.abs e)) in
    match ds with
    | [d] => [d; 101%N] ++ es
    | d :: more => [d; 46%N] ++ more ++ [101%N] ++ es
    | [] => []
    end.

Definition toString (x : t) : jsstring :=
  match x with
  | Infinity neg =>
      (if neg then [45%N] else []) ++ JSString.lit "Infinity"
  | Finite _ 0%N _ => [48%N]
  | Finite neg m e =>
      let (s, p) := shortest m e in
      let ds := JSString.ofN s in
      (if neg then [45%N] else []) ++ layout ds (Z.of_nat (length ds) + p)
  end.
End Number.

(* ================================================================== *)
(** ** JSON values, [JSON.parse] and [JSON.stringify] *)

Inductive value :=
| JNull
| JBool (b : bool)
| JNumber (x : Number.t)
| JString (s : jsstring)
| JArray (elems : list value)
| JObject (props : list (jsstring * value)).

(** An object's own properties are kept in [[OwnPropertyKeys]] order: array
    index keys in ascending numeric order, then the other keys in order of
    creation. *)
Definition properties : Type := list (jsstring * value).

Module Object.
Local Open Scope N_scope.

(** The index denoted by a canonical numeric string below 2^32 - 1. *)
Definition arrayIndex (k : jsstring) : option N :=
  match k with
  | [] => None
  | c :: more =>
      if forallb JSString.isDigit k
         && negb ((c =? 48) && negb (length more =? 0)%nat)
         && (JSString.digitsValue k <=? 4294967294)
      then Some (JSString.digitsValue k)
      else None
  end.

Fixpoint lookup (k : jsstring) (props : properties) : option value :=
  match props with
  | [] => None
  | (k', v) :: rest => if JSString.eqb k' k then Some v else lookup k rest
  end.

Fixpoint update (k : jsstring) (v : value) (props : properties) : properties :=
  match props with
  | [] => []
  | (k', v') :: rest =>
      if JSString.eqb k' k then (k', v) :: rest
      else (k', v') :: update k v rest
  end.

Fixpoint insertIndex (i : N) (k : jsstring) (v : value) (props : properties)
  : properties :=
  match props with
  | [] => [(k, v)]
  | (k', v') :: rest =>
      match arrayIndex k' with
      | Some j =>
          if j <? i then (k', v') :: insertIndex i k v rest
          else (k, v) :: props
      | None => (k, v) :: props
      end
  end.

(** Writing property [k] of an ordinary object: an existing property keeps
    its place, a new one is created. *)
Definition set (k : jsstring) (v : value) (props : properties) : properties :=
  match lookup k props with
  | Some _ => update k v props
  | None =>
      match arrayIndex k with
      | Some i => insertIndex i k v props
      | None => props ++ [(k, v)]
      end
  end.

Fixpoint indexed {A} (i : nat) (l : list A) : list (jsstring * A) :=
  match l with
  | [] => []
  | x :: l' => (JSString.ofNat i, x) :: indexed (S i) l'
  end.

(** [Object.entries(v)]: own enumerable string-keyed properties.  Numbers
    and booleans have none, a string has one per code unit, [null] has no
    object to convert to. *)
Definition entries (v : value) : completion properties :=
  match v with
  | JNull => Throw TypeError
  | JBool _ | JNumber _ => Normal []
  | JString s => Normal (indexed 0 (map (fun c => JString [c]) s))
  | JArray elems => Normal (indexed 0 elems)
  | JObject props => Normal props
  end.

(** [Object.keys(v)] *)
Definition keys (v : value) : completion (list jsstring) :=
  bind (entries v) (fun es => Normal (map fst es)).
End Object.

(** [v.name] for a property name that no prototype defines (such as
    [dependencies], [name] or [version]) and that is neither an index nor
    [length]: [None] is [undefined]. *)
Definition getProperty (v : value) (name : jsstring) : completion (option value) :=
  match v with
  | JNull => Throw TypeError
  | JObject props => Normal (Object.lookup name props)
  | _ => Normal None
  end.

(** ToBoolean *)
Definition truthy (v : option value) : bool :=
  match v with
  | None => false
  | Some JNull => false
  | Some (JBool b) => b
  | Some (JNumber x) => negb (Number.isZero x)
  | Some (JString s) => negb (length s =? 0)%nat
  | Some (JArray _) | Some (JObject _) => true
  end.

Module JSON.
Local Open Scope N_scope.

Definition isWhiteSpace (c : N) : bool :=
  (c =? 9) || (c =? 10) || (c =? 13) || (c =? 32).

Fixpoint skipWhiteSpace (s : jsstring) : jsstring :=
  match s with
  | c :: s' => if isWhiteSpace c then skipWhiteSpace s' else s
  | [] => []
  end.

Fixpoint stripPrefix (p s : jsstring) : option jsstring :=
  match p, s with
  | [], _ => Some s
  | y :: p', x :: s' => if x =? y then stripPrefix p' s' else None
  | _ :: _, [] => None
  end.

Definition hex4 (h1 h2 h3 h4 : N) : option N :=
  match JSString.hexValue h1, JSString.hexValue h2,
        JSString.hexValue h3, JSString.hexValue h4 with
  | Some a, Some b, Some c, Some d => Some (((a * 16 + b) * 16 + c) * 16 + d)
  | _, _, _, _ => None
  end.

Definition simpleEscape (c : N) : option N :=
  if c =? 34 then Some 34        (* quotation mark *)
  else if c =? 92 then Some 92   (* reverse solidus *)
  else if c =? 47 then Some 47   (* solidus *)
  else if c =? 98 then Some 8    (* b: backspace *)
  else if c =? 102 then Some 12  (* f: form feed *)
  else if c =? 110 then Some 10  (* n: line feed *)
  else if c =? 114 then Some 13  (* r: carriage return *)
  else if c =? 116 then Some 9   (* t: tab *)
  else None.

Definition consChar (c : N) (r : option (jsstring * jsstring))
  : option (jsstring * jsstring) :=
  match r with
  | Some (str, rest) => Some (c :: str, rest)
  | None => None
  end.

(** The characters of a string literal after its opening quote. *)
Fixpoint parseStringBody (s : jsstring) : option (jsstring * jsstring) :=
  match s with
  | [] => None
  | c :: r =>
      if c =? 34 then Some ([], r)
      else if c =? 92 then
        match r with
        | [] => None
        | e :: r1 =>
            if e =? 117 then
              match r1 with
              | h1 :: h2 :: h3 :: h4 :: r2 =>
                  match hex4 h1 h2 h3 h4 with
                  | Some u => consChar u (parseStringBody r2)
                  | None => None
                  end
              | _ => None
              end
            else
              match simpleEscape e with
              | Some u => consChar u (parseStringBody r1)
              | None => None
              end
        end
      else if c <? 32 then None
      else consChar c (parseStringBody r)
  end.

Fixpoint spanDigits (s : jsstring) : jsstring * jsstring :=
  match s with
  | c :: r =>
      if JSString.isDigit c
      then let (ds, rest) := spanDigits r in (c :: ds, rest)
      else ([], s)
  | [] => ([], [])
  end.

Definition parseSign (s : jsstring) : bool * jsstring :=
  match s with
  | c :: r => if c =? 45 then (true, r) else (false, s)
  | [] => (false, s)
  end.

Definition parseFraction (s : jsstring) : option (jsstring * jsstring) :=
  match s with
  | c :: r =>
      if c =? 46 then
        match spanDigits r with
        | ([], _) => None
        | (fr, rest) => Some (fr, rest)
        end
      else Some ([], s)
  | [] => Some ([], s)
  end.

Definition parseExponent (s : jsstring) : option (Z * jsstring) :=
  match s with
  | c :: r =>
      if (c =? 101) || (c =? 69) then
        let (eneg, r') :=
          match r with
          | c' :: r'' =>
              if c' =? 45 then (true, r'')
              else if c' =? 43 then (false, r'')
              else (false, r)
          | [] => (false, r)
          end in
        match spanDigits r' with
        | ([], _) => None
        | (ed, rest) =>
            let v := Z.of_N (JSString.digitsValue ed) in
            Some (if eneg then (- v)%Z else v, rest)
        end
      else Some (0%Z, s)
  | [] => Some (0%Z, s)
  end.

Definition parseNumber (s : jsstring) : option (Number.t * jsstring) :=
  let (neg, s1) := parseSign s in
  match spanDigits s1 with
  | ([], _) => None
  | (d :: more, s2) =>
      if (d =? 48) && negb (length more =? 0)%nat then None
      else
        match parseFraction s2 with
        | None => None
        | Some (frac, s3) =>
            match parseExponent s3 with
            | None => None
            | Some (ex, s4) =>
                Some (Number.ofDecimal neg
                        (JSString.digitsValue ((d :: more) ++ frac))
                        (ex - Z.of_nat (length frac)), s4)
            end
        end
  end.

Definition keyword (p : string) (v : value) (s : jsstring)
  : option (value * jsstring) :=
  match stripPrefix (JSString.lit p) s with
  | Some rest => Some (v, rest)
  | None => None
  end.

(** Recursive descent on the JSON grammar.  Each call to [parseValue]
    consumes at least one character, so [fuel] beyond the length of the
    input is never used up (lemma [parseValue_fuel]). *)
Fixpoint parseValue (fuel : nat) (s : jsstring) {struct fuel}
  : option (value * jsstring) :=
  match fuel with
  | O => None
  | S fuel' =>
      match skipWhiteSpace s with
      | [] => None
      | c :: r =>
          if c =? 123 then
            match skipWhiteSpace r with
            | [] => None
            | c' :: r' =>
                if c' =? 125 then Some (JObject [], r')
                else parseMembers fuel' (c' :: r') []
            end
          else if c =? 91 then
            match skipWhiteSpace r with
            | [] => None
            | c' :: r' =>
                if c' =? 93 then Some (JArray [], r')
                else parseElements fuel' (c' :: r') []
            end
          else if c =? 34 then
            match parseStringBody r with
            | Some (str, rest) => Some (JString str, rest)
            | None => None
            end
          else if c =? 116 then keyword "true" (JBool true) (c :: r)
          else if c =? 102 then keyword "false" (JBool false) (c :: r)
          else if c =? 110 then keyword "null" JNull (c :: r)
          else
            match parseNumber (c :: r) with
            | Some (x, rest) => Some (JNumber x, rest)
            | None => None
            end
      end
  end

with parseElements (fuel : nat) (s : jsstring) (acc : list value) {struct fuel}
  : option (value * jsstring) :=
  match fuel with
  | O => None
  | S fuel' =>
      match parseValue fuel' s with
      | None => None
      | Some (v, r) =>
          match skipWhiteSpace r with
          | [] => None
          | c :: r' =>
              if c =? 44 then parseElements fuel' r' (acc ++ [v])
              else if c =? 93 then Some (JArray (acc ++ [v]), r')
              else None
          end
      end
  end

with parseMembers (fuel : nat) (s : jsstring) (acc : properties) {struct fuel}
  : option (value * jsstring) :=
  match fuel with
  | O => None
  | S fuel' =>
      match skipWhiteSpace s with
      | [] => None
      | q :: r0 =>
          if q =? 34 then
            match parseStringBody r0 with
            | None => None
            | Some (k, r1) =>
                match skipWhiteSpace r1 with
                | [] => None
                | c :: r2 =>
                    if c =? 58 then
                      match parseValue fuel' r2 with
                      | None => None
                      | Some (v, r3) =>
                          match skipWhiteSpace r3 with
                          | [] => None
                          | c' :: r4 =>
                              if c' =? 44
                              then parseMembers fuel' r4 (Object.set k v acc)
                              else if c' =? 125
                              then Some (JObject (Object.set k v acc), r4)
                              else None
                          end
                      end
                    else None
                end
            end
          else None
      end
  end.

(** [JSON.parse(text)]; [None] is a thrown SyntaxError. *)
Definition parseText (text : jsstring) : option value :=
  match parseValue (S (length text)) text with
  | Some (v, rest) =>
      match skipWhiteSpace rest with
      | [] => Some v
      | _ :: _ => None
      end
  | None => None
  end.

Definition parse (text : jsstring) : completion value :=
  match parseText text with
  | Some v => Normal v
  | None => Throw SyntaxError
  end.

(** *** [JSON.stringify(value, null, 2)] *)

Definition unicodeEscape (c : N) : jsstring :=
  [92; 117;
   JSString.hexChar false (c / 4096);
   JSString.hexChar false ((c / 256) mod 16);
   JSString.hexChar false ((c / 16) mod 16);
   JSString.hexChar false (c mod 16)].

Definition quoteChar (c : N) : jsstring :=
  if c =? 8 then [92; 98]
  else if c =? 9 then [92; 116]
  else if c =? 10 then [92; 110]
  else if c =? 12 then [92; 102]
  else if c =? 13 then [92; 114]
  else if c =? 34 then [92; 34]
  else if c =? 92 then [92; 92]
  else if c <? 32 then unicodeEscape c
  else [c].

(** QuoteJSONString without the quotes: lone surrogates are escaped,
    surrogate pairs are kept. *)
Fixpoint quoteBody (s : jsstring) : jsstring :=
  match s with
  | [] => []
  | c :: r =>
      if JSString.isHighSurrogate c then
        match r with
        | d :: r' =>
            if JSString.isLowSurrogate d then c :: d :: quoteBody r'
            else unicodeEscape c ++ quoteBody r
        | [] => unicodeEscape c
        end
      else if JSString.isLowSurrogate c then unicodeEscape c ++ quoteBody r
      else quoteChar c ++ quoteBody r
  end.

Definition quote (s : jsstring) : jsstring := [34] ++ quoteBody s ++ [34].

Fixpoint join (sep : jsstring) (parts : list jsstring) : jsstring :=
  match parts with
  | [] => []
  | [p] => p
  | p :: more => p ++ sep ++ join sep more
  end.

Definition gap : jsstring := [32; 32].

(** An opening bracket, the parts one per line at [indent ++ gap], and the
    closing bracket at [indent]. *)
Definition block (open close : N) (indent : jsstring) (parts : list jsstring)
  : jsstring :=
  match parts with
  | [] => [open; close]
  | _ =>
      [open; 10] ++ (indent ++ gap)
      ++ join ([44; 10] ++ (indent ++ gap)) parts
      ++ [10] ++ indent ++ [close]
  end.

Fixpoint serialize (indent : jsstring) (v : value) : jsstring :=
  match v with
  | JNull => JSString.lit "null"
  | JBool true => JSString.lit "true"
  | JBool false => JSString.lit "false"
  | JNumber x =>
      if Number.isFinite x then Number.toString x else JSString.lit "null"
  | JString s => quote s
  | JArray elems =>
      block 91 93 indent (map (serialize (indent ++ gap)) elems)
  | JObject props =>
      block 123 125 indent
        (map (fun kv => quote (fst kv) ++ [58; 32]
                        ++ serialize (indent ++ gap) (snd kv)) props)
  end.

(** The depth that an engine can serialize is not modelled: on a value
    nested more deeply than its stack allows the real call throws
    RangeError, where this one returns the text.  What is proved of the
    update to latest is therefore the text it returns when it returns one,
    and the failures that come before the serialization. *)
Definition stringify (v : value) : jsstring := serialize [] v.
End JSON.

(* ================================================================== *)
(** ** DependencyChecker.tsx *)

Module DependencyChecker.
Local Open Scope js_scope.

Inductive DependencyType := Dependencies | DevDependencies | PeerDependencies.

Record Dependency := {
  name : jsstring;
  version : jsstring;
  type : DependencyType
}.

Record DependencyAnalysis := {
  total : nat;
  dependencies : nat;
  devDependencies : nat;
  peerDependencies : nat;
  specificVersions : nat;
  rangeVersions : nat;
  latestVersions : nat;
  issues : list jsstring
}.

(** The local variables of the [try] block that the three loops update. *)
Record Tally := {
  deps : list Dependency;
  specific : nat;
  range : nat;
  latest : nat
}.

(** The callback of each [Object.entries(...).forEach].  A version that is
    not a string has no callable [startsWith], so the call throws; the
    record pushed just before is lost with [deps] when the exception is
    caught. *)
Definition countEntry (ty : DependencyType) (acc : Tally)
           (entry : jsstring * value) : completion Tally :=
  match snd entry with
  | JString versionStr =>
      let deps' := deps acc ++ [{| name := fst entry; version := versionStr; type := ty |}] in
      if JSString.startsWith versionStr `"^" || JSString.startsWith versionStr `"~" then
        Normal {| deps := deps'; specific := specific acc;
                  range := S (range acc); latest := latest acc |}
      else if JSString.eqb versionStr `"latest" then
        Normal {| deps := deps'; specific := specific acc;
                  range := range acc; latest := S (latest acc) |}
      else
        Normal {| deps := deps'; specific := S (specific acc);
                  range := range acc; latest := latest acc |}
  | _ => Throw TypeError
  end.

(** [if (parsed.key) { Object.entries(parsed.key).forEach(...) }] *)
Definition extract (parsed : value) (key : jsstring) (ty : DependencyType)
           (acc : Tally) : completion Tally :=
  section <- getProperty parsed key ;;
  match section with
  | Some sec =>
      if truthy section then
        es <- Object.entries sec ;;
        forEach (countEntry ty) es acc
      else Normal acc
  | None => Normal acc
  end.

(** [parsed.key ? Object.keys(parsed.key).length : 0] *)
Definition sectionSize (parsed : value) (key : jsstring) : completion nat :=
  section <- getProperty parsed key ;;
  match section with
  | Some sec =>
      if truthy section then
        ks <- Object.keys sec ;;
        Normal (length ks)
      else Normal 0
  | None => Normal 0
  end.

Definition deprecatedPackages : list jsstring :=
  [`"request"; `"node-uuid"; `"gulp-util"].

Definition latestIssue (n : nat) : jsstring :=
  JSString.ofNat n ++ `" package(s) using " ++ [34%N] ++ `"latest" ++ [34%N]
  ++ `" version (not recommended for production)".

Definition deprecatedIssue (pkg : jsstring) : jsstring :=
  [34%N] ++ pkg ++ [34%N] ++ `" is deprecated and should be replaced".

Definition pushIf (cond : bool) (issue : jsstring) (issues : list jsstring)
  : list jsstring :=
  if cond then issues ++ [issue] else issues.

(** The [try] block of [analyzePackageJson] after [JSON.parse], up to the
    values handed to [setDependencies] and [setAnalysis]. *)
Definition analyzeParsed (parsed : value)
  : completion (list Dependency * DependencyAnalysis) :=
  let acc := {| deps := []; specific := 0; range := 0; latest := 0 |} in
  acc <- extract parsed `"dependencies" Dependencies acc ;;
  acc <- extract parsed `"devDependencies" DevDependencies acc ;;
  acc <- extract parsed `"peerDependencies" PeerDependencies acc ;;
  let issues := pushIf (0 <? latest acc)%nat (latestIssue (latest acc)) [] in
  let issues := pushIf (length (deps acc) =? 0)%nat `"No dependencies found" issues in
  parsedName <- getProperty parsed `"name" ;;
  let issues := pushIf (negb (truthy parsedName)) `"Package name is missing" issues in
  parsedVersion <- getProperty parsed `"version" ;;
  let issues := pushIf (negb (truthy parsedVersion)) `"Package version is missing" issues in
  let issues :=
    fold_left (fun issues dep =>
                 pushIf (JSString.includes deprecatedPackages (name dep))
                        (deprecatedIssue (name dep)) issues)
              (deps acc) issues in
  nDeps <- sectionSize parsed `"dependencies" ;;
  nDev <- sectionSize parsed `"devDependencies" ;;
  nPeer <- sectionSize parsed `"peerDependencies" ;;
  Normal (deps acc,
          {| total := length (deps acc);
             dependencies := nDeps;
             devDependencies := nDev;
             peerDependencies := nPeer;
             specificVersions := specific acc;
             rangeVersions := range acc;
             latestVersions := latest acc;
             issues := issues |}).

Definition analyze (jsonContent : jsstring)
  : completion (list Dependency * DependencyAnalysis) :=
  parsed <- JSON.parse jsonContent ;;
  analyzeParsed parsed.

(** *** Component state *)

Inductive toast :=
| ToastSuccess (msg : jsstring)
| ToastError (msg : jsstring).

Record State := {
  st_packageJson : jsstring;
  st_dependencies : list Dependency;
  st_analysis : option DependencyAnalysis;
  st_isAnalyzing : bool;
  st_toasts : list toast
}.

Definition setPackageJson (x : jsstring) (st : State) : State :=
  {| st_packageJson := x; st_dependencies := st_dependencies st;
     st_analysis := st_analysis st; st_isAnalyzing := st_isAnalyzing st;
     st_toasts := st_toasts st |}.

Definition setDependencies (x : list Dependency) (st : State) : State :=
  {| st_packageJson := st_packageJson st; st_dependencies := x;
     st_analysis := st_analysis st; st_isAnalyzing := st_isAnalyzing st;
     st_toasts := st_toasts st |}.

Definition setAnalysis (x : option DependencyAnalysis) (st : State) : State :=
  {| st_packageJson := st_packageJson st; st_dependencies := st_dependencies st;
     st_analysis := x; st_isAnalyzing := st_isAnalyzing st;
     st_toasts := st_toasts st |}.

Definition setIsAnalyzing (x : bool) (st : State) : State :=
  {| st_packageJson := st_packageJson st; st_dependencies := st_dependencies st;
     st_analysis := st_analysis st; st_isAnalyzing := x;
     st_toasts := st_toasts st |}.

Definition showToast (x : toast) (st : State) : State :=
  {| st_packageJson := st_packageJson st; st_dependencies := st_dependencies st;
     st_analysis := st_analysis st; st_isAnalyzing := st_isAnalyzing st;
     st_toasts := st_toasts st ++ [x] |}.

Definition initialState : State :=
  {| st_packageJson := []; st_dependencies := []; st_analysis := None;
     st_isAnalyzing := false; st_toasts := [] |}.

(** The timer callback of [analyzePackageJson]: try, catch, finally. *)
Definition analysisCallback (jsonContent : jsstring) (st : State) : State :=
  let st :=
    match analyze jsonContent with
    | Normal (deps, a) =>
        showToast (ToastSuccess `"Analysis complete!")
          (setAnalysis (Some a) (setDependencies deps st))
    | Throw _ =>
        setAnalysis None
          (setDependencies [] (showToast (ToastError `"Invalid JSON format") st))
    end in
  setIsAnalyzing false st.

(** [analyzePackageJson(jsonContent)], run until its timer has fired. *)
Definition analyzePackageJson (jsonContent : jsstring) (st : State) : State :=
  analysisCallback jsonContent (setIsAnalyzing true st).

(** *** Update to latest *)

Fixpoint replaceNth (i : nat) (v : value) (elems : list value) : list value :=
  match elems, i with
  | [], _ => []
  | _ :: rest, O => v :: rest
  | x :: rest, S i' => x :: replaceNth i' v rest
  end.

(** [target[key] = v] in strict mode (module code), for [key] an own
    enumerable property of [target], which is how the loops below use it:
    a property of a primitive cannot be written. *)
Definition assign (target : value) (key : jsstring) (v : value) : completion value :=
  match target with
  | JObject props => Normal (JObject (Object.set key v props))
  | JArray elems =>
      Normal (JArray (replaceNth (N.to_nat (JSString.digitsValue key)) v elems))
  | _ => Throw TypeError
  end.

(** [Object.keys(section).forEach(key => { section[key] = "latest"; })] *)
Definition setAllLatest (section : value) : completion value :=
  ks <- Object.keys section ;;
  forEach (fun sec key => assign sec key (JString `"latest")) ks section.

(** One [if (parsed.key) { ... }] block: the section object is updated in
    place, so [parsed] sees the new versions under the same key. *)
Definition updateSection (parsed : value) (key : jsstring) : completion value :=
  section <- getProperty parsed key ;;
  match section, parsed with
  | Some sec, JObject props =>
      if truthy section then
        sec' <- setAllLatest sec ;;
        Normal (JObject (Object.update key sec' props))
      else Normal parsed
  | _, _ => Normal parsed
  end.

Definition updateSections (parsed : value) : completion value :=
  parsed <- updateSection parsed `"dependencies" ;;
  parsed <- updateSection parsed `"devDependencies" ;;
  updateSection parsed `"peerDependencies".

(** The [try] block of [updateToLatestVersions] up to [updatedJson]. *)
Definition rewriteAllVersionsToLatest (packageJson : jsstring) : completion jsstring :=
  parsed <- JSON.parse packageJson ;;
  parsed <- updateSections parsed ;;
  Normal (JSON.stringify parsed).

Definition updateToLatestVersions (st : State) : State :=
  match rewriteAllVersionsToLatest (st_packageJson st) with
  | Normal updatedJson =>
      analysisCallback updatedJson
        (showToast (ToastSuccess `"All packages updated to latest version!")
           (setIsAnalyzing true (setPackageJson updatedJson st)))
  | Throw _ =>
      showToast (ToastError `"Failed to update packages. Invalid JSON format.") st
  end.
End DependencyChecker.

(* ================================================================== *)
(** ** BadgeSelector.tsx *)

(** [encodeURIComponent(s)]: unreserved characters stay, every other code
    point becomes the percent-encoded bytes of its UTF-8 form; an unpaired
    surrogate throws URIError. *)
Module URI.
Local Open Scope N_scope.
Local Open Scope js_scope.

Definition isAlpha (c : N) : bool :=
  ((65 <=? c) && (c <=? 90)) || ((97 <=? c) && (c <=? 122)).

Definition isUnreserved (c : N) : bool :=
  isAlpha c || JSString.isDigit c
  || existsb (N.eqb c) [45; 95; 46; 33; 126; 42; 39; 40; 41].

Definition utf8 (cp : N) : list N :=
  if cp <? 128 then [cp]
  else if cp <? 2048 then [192 + cp / 64; 128 + cp mod 64]
  else if cp <? 65536 then
    [224 + cp / 4096; 128 + (cp / 64) mod 64; 128 + cp mod 64]
  else
    [240 + cp / 262144; 128 + (cp / 4096) mod 64;
     128 + (cp / 64) mod 64; 128 + cp mod 64].

Definition percent (b : N) : jsstring :=
  [37; JSString.hexChar true (b / 16); JSString.hexChar true (b mod 16)].

Definition escape (cp : N) : jsstring := flat_map percent (utf8 cp).

Fixpoint encodeURIComponent (s : jsstring) : completion jsstring :=
  match s with
  | [] => Normal []
  | c :: r =>
      if isUnreserved c then
        rest <- encodeURIComponent r ;; Normal (c :: rest)
      else if JSString.isLowSurrogate c then Throw URIError
      else if JSString.isHighSurrogate c then
        match r with
        | d :: r' =>
            if JSString.isLowSurrogate d then
              rest <- encodeURIComponent r' ;;
              Normal (escape ((c - 55296) * 1024 + (d - 56320) + 65536) ++ rest)
            else Throw URIError
        | [] => Throw URIError
        end
      else
        rest <- encodeURIComponent r ;; Normal (escape c ++ rest)
  end.
End URI.

Module BadgeSelector.
Local Open Scope N_scope.
Local Open Scope js_scope.

Record Badge := {
  id : jsstring;
  type : jsstring;
  url : jsstring;
  label : option jsstring;
  message : option jsstring;
  color : option jsstring
}.

Record BadgeTemplate := {
  t_type : jsstring;
  t_label : jsstring;
  t_description : jsstring;
  urlPattern : jsstring -> bool;
  urlPlaceholder : jsstring;
  urlExample : jsstring;
  generateMarkdown :
    jsstring -> option jsstring -> option jsstring -> option jsstring ->
    completion jsstring
}.

(** *** The regular expressions, as matchers of whole strings *)

Definition isAlnum (c : N) : bool := URI.isAlpha c || JSString.isDigit c.

Definition nonEmptyAll (p : N -> bool) (s : jsstring) : bool :=
  negb (length s =? 0)%nat && forallb p s.

(** [/^[a-z0-9-_@\/]+$/i] *)
Definition packagePattern (s : jsstring) : bool :=
  nonEmptyAll (fun c => isAlnum c || existsb (N.eqb c) [45; 95; 64; 47]) s.

Fixpoint span (p : N -> bool) (s : jsstring) : jsstring * jsstring :=
  match s with
  | c :: r => if p c then let (a, b) := span p r in (c :: a, b) else ([], s)
  | [] => ([], [])
  end.

(** [/^[a-z0-9-_]+\/[a-z0-9-_\.]+$/i] *)
Definition repoPattern (s : jsstring) : bool :=
  match span (fun c => isAlnum c || existsb (N.eqb c) [45; 95]) s with
  | (_ :: _, slash :: repo) =>
      (slash =? 47)
      && nonEmptyAll (fun c => isAlnum c || existsb (N.eqb c) [45; 95; 46]) repo
  | _ => false
  end.

Definition isLineTerminator (c : N) : bool :=
  existsb (N.eqb c) [10; 13; 8232; 8233].

Definition lower (c : N) : N := if (65 <=? c) && (c <=? 90) then c + 32 else c.

(** [/^https?:\/\/.+$/i] *)
Definition httpPattern (s : jsstring) : bool :=
  let after (rest : jsstring) :=
    nonEmptyAll (fun c => negb (isLineTerminator c)) rest in
  match JSON.stripPrefix `"https://" (map lower (firstn 8 s)),
        JSON.stripPrefix `"http://" (map lower (firstn 7 s)) with
  | Some _, _ => after (skipn 8 s)
  | None, Some _ => after (skipn 7 s)
  | None, None => false
  end.

(** [/^[a-z0-9-_\s\.]+$/i] *)
Definition licensePattern (s : jsstring) : bool :=
  nonEmptyAll (fun c => isAlnum c || existsb (N.eqb c) [45; 95; 46]
                        || JSString.isWhiteSpace c) s.

(** [/.*/] *)
Definition anyPattern (s : jsstring) : bool := true.

(** A parameter with a default value: the default replaces [undefined]. *)
Definition withDefault (arg : option jsstring) (d : jsstring) : jsstring :=
  match arg with
  | Some x => x
  | None => d
  end.

Definition shields : jsstring := `"(https://img.shields.io/".

Definition npmVersionTemplate : BadgeTemplate :=
  {| t_type := `"npm-version";
     t_label := `"NPM Version";
     t_description := `"Shows the current npm package version";
     urlPattern := packagePattern;
     urlPlaceholder := `"package-name";
     urlExample := `"react";
     generateMarkdown := fun url _ _ _ =>
       Normal (`"![npm]" ++ shields ++ `"npm/v/" ++ url ++ `")") |}.

Definition npmDownloadsTemplate : BadgeTemplate :=
  {| t_type := `"npm-downloads";
     t_label := `"NPM Downloads";
     t_description := `"Shows npm package download count";
     urlPattern := packagePattern;
     urlPlaceholder := `"package-name";
     urlExample := `"react";
     generateMarkdown := fun url _ _ _ =>
       Normal (`"![npm]" ++ shields ++ `"npm/dm/" ++ url ++ `")") |}.

Definition githubStarsTemplate : BadgeTemplate :=
  {| t_type := `"github-stars";
     t_label := `"GitHub Stars";
     t_description := `"Shows GitHub repository stars";
     urlPattern := repoPattern;
     urlPlaceholder := `"username/repo";
     urlExample := `"facebook/react";
     generateMarkdown := fun url _ _ _ =>
       Normal (`"![GitHub stars]" ++ shields ++ `"github/stars/" ++ url ++ `")") |}.

Definition githubForksTemplate : BadgeTemplate :=
  {| t_type := `"github-forks";
     t_label := `"GitHub Forks";
     t_description := `"Shows GitHub repository forks";
     urlPattern := repoPattern;
     urlPlaceholder := `"username/repo";
     urlExample := `"facebook/react";
     generateMarkdown := fun url _ _ _ =>
       Normal (`"![GitHub forks]" ++ shields ++ `"github/forks/" ++ url ++ `")") |}.

Definition githubIssuesTemplate : BadgeTemplate :=
  {| t_type := `"github-issues";
     t_label := `"GitHub Issues";
     t_description := `"Shows open GitHub issues";
     urlPattern := repoPattern;
     urlPlaceholder := `"username/repo";
     urlExample := `"facebook/react";
     generateMarkdown := fun url _ _ _ =>
       Normal (`"![GitHub issues]" ++ shields ++ `"github/issues/" ++ url ++ `")") |}.

Definition githubLicenseTemplate : BadgeTemplate :=
  {| t_type := `"github-license";
     t_label := `"GitHub License";
     t_description := `"Shows repository license";
     urlPattern := repoPattern;
     urlPlaceholder := `"username/repo";
     urlExample := `"facebook/react";
     generateMarkdown := fun url _ _ _ =>
       Normal (`"![GitHub license]" ++ shields ++ `"github/license/" ++ url ++ `")") |}.

Definition buildStatusTemplate : BadgeTemplate :=
  {| t_type := `"build-status";
     t_label := `"Build Status";
     t_description := `"Shows CI/CD build status";
     urlPattern := httpPattern;
     urlPlaceholder := `"https://ci-service.com/status-url";
     urlExample := `"https://github.com/user/repo/actions";
     generateMarkdown := fun url _ _ _ =>
       Normal (`"![Build Status]" ++ shields ++ `"badge/build-passing-brightgreen)") |}.

Definition coverageTemplate : BadgeTemplate :=
  {| t_type := `"coverage";
     t_label := `"Code Coverage";
     t_description := `"Shows test coverage percentage";
     urlPattern := httpPattern;
     urlPlaceholder := `"https://codecov.io/gh/user/repo";
     urlExample := `"https://codecov.io/gh/facebook/react";
     generateMarkdown := fun url _ _ _ =>
       Normal (`"![Coverage]" ++ shields ++ `"badge/coverage-95%25-brightgreen)") |}.

Definition licenseTemplate : BadgeTemplate :=
  {| t_type := `"license";
     t_label := `"License Badge";
     t_description := `"Custom license badge";
     urlPattern := licensePattern;
     urlPlaceholder := `"MIT";
     urlExample := `"MIT";
     generateMarkdown := fun url _ _ _ =>
       encoded <- URI.encodeURIComponent url ;;
       Normal (`"![License]" ++ shields ++ `"badge/license-" ++ encoded ++ `"-blue)") |}.

Definition customTemplate : BadgeTemplate :=
  {| t_type := `"custom";
     t_label := `"Custom Badge";
     t_description := `"Create a custom badge with label and message";
     urlPattern := anyPattern;
     urlPlaceholder := `"Enter badge text";
     urlExample := `"custom";
     generateMarkdown := fun url label message color =>
       let label := withDefault label `"label" in
       let message := withDefault message `"message" in
       let color := withDefault color `"blue" in
       encodedLabel <- URI.encodeURIComponent label ;;
       encodedMessage <- URI.encodeURIComponent message ;;
       Normal (`"![" ++ label ++ `"]" ++ shields ++ `"badge/" ++ encodedLabel
               ++ `"-" ++ encodedMessage ++ `"-" ++ color ++ `")") |}.

Definition badgeTemplates : list BadgeTemplate :=
  [ npmVersionTemplate; npmDownloadsTemplate; githubStarsTemplate;
    githubForksTemplate; githubIssuesTemplate; githubLicenseTemplate;
    buildStatusTemplate; coverageTemplate; licenseTemplate; customTemplate ].

(** [badgeTemplates.find(t => t.type === type)] *)
Definition findTemplate (type : jsstring) : option BadgeTemplate :=
  find (fun t => JSString.eqb (t_type t) type) badgeTemplates.

Definition generateBadgeMarkdown (badge : Badge) : completion jsstring :=
  match findTemplate (type badge) with
  | None => Normal []
  | Some template =>
      generateMarkdown template (url badge) (label badge) (message badge) (color badge)
  end.
End BadgeSelector.

(* ================================================================== *)
(** ** ReadmeGenerator.tsx *)

Module ReadmeGenerator.
Local Open Scope js_scope.
Import BadgeSelector.

(** The state of the form that [generateReadme] reads. *)
Record Fields := {
  projectName : jsstring;
  description : jsstring;
  installation : jsstring;
  usage : jsstring;
  features : jsstring;
  selectedLicenses : list jsstring;
  author : jsstring;
  contributing : jsstring;
  badges : list Badge
}.

(** ToBoolean of a string *)
Definition nonEmpty (s : jsstring) : bool := negb (length s =? 0)%nat.

Definition nl : jsstring := [10%N].
Definition fence : jsstring := `"```".

Definition placeholder : jsstring :=
  `"# My Project" ++ nl ++ nl ++ `"Add project details to generate README".

Definition appendBadge (readme : jsstring) (badge : Badge) : completion jsstring :=
  match findTemplate (type badge) with
  | Some template =>
      md <- generateMarkdown template (url badge) (label badge) (message badge)
              (color badge) ;;
      Normal (readme ++ md ++ `" ")
  | None => Normal readme
  end.

Definition generateReadme (f : Fields) : completion jsstring :=
  let readme : jsstring := [] in
  let readme :=
    if nonEmpty (projectName f)
    then readme ++ `"# " ++ projectName f ++ nl ++ nl
    else readme in
  readme <-
    (if (0 <? length (badges f))%nat then
       readme <- forEach appendBadge (badges f) readme ;;
       Normal (readme ++ nl ++ nl)
     else Normal readme) ;;
  let readme :=
    if nonEmpty (description f)
    then readme ++ `"## Description" ++ nl ++ nl ++ description f ++ nl ++ nl
    else readme in
  let readme :=
    if nonEmpty (features f) then
      let readme := readme ++ `"## Features" ++ nl ++ nl in
      let featureList :=
        filter (fun x => nonEmpty (JSString.trim x))
               (JSString.split 10 (features f)) in
      let readme :=
        fold_left (fun readme feature =>
                     readme ++ `"- " ++ JSString.trim feature ++ nl)
                  featureList readme in
      readme ++ nl
    else readme in
  let readme :=
    if nonEmpty (installation f)
    then readme ++ `"## Installation" ++ nl ++ nl ++ fence ++ `"bash" ++ nl
         ++ installation f ++ nl ++ fence ++ nl ++ nl
    else readme in
  let readme :=
    if nonEmpty (usage f)
    then readme ++ `"## Usage" ++ nl ++ nl ++ fence ++ `"bash" ++ nl
         ++ usage f ++ nl ++ fence ++ nl ++ nl
    else readme in
  let readme :=
    if nonEmpty (contributing f)
    then readme ++ `"## Contributing" ++ nl ++ nl ++ contributing f ++ nl ++ nl
    else readme in
  let readme :=
    if (0 <? length (selectedLicenses f))%nat then
      let readme := readme ++ `"## License" ++ nl ++ nl in
      if (length (selectedLicenses f) =? 1)%nat then
        readme ++ `"This project is licensed under the "
        ++ hd [] (selectedLicenses f) ++ `" License." ++ nl ++ nl
      else
        let readme :=
          readme ++ `"This project is licensed under multiple licenses:" ++ nl ++ nl in
        let readme :=
          fold_left (fun readme license => readme ++ `"- " ++ license ++ nl)
                    (selectedLicenses f) readme in
        readme ++ nl
    else readme in
  let readme :=
    if nonEmpty (author f)
    then readme ++ `"## Author" ++ nl ++ nl ++ author f ++ nl
    else readme in
  Normal (if nonEmpty readme then readme else placeholder).
End ReadmeGenerator.

(* ================================================================== *)
(** ** Vocabulary of the specification *)

Module Spec.
Local Open Scope js_scope.
Import DependencyChecker.

(** The three classes of version specifiers. *)
Inductive VersionClass := RangeQualified | LatestTagged | Pinned.

Definition hasPrefixChar (c : N) (v : jsstring) : bool :=
  match v with
  | x :: _ => (x =? c)%N
  | [] => false
  end.

(** Prefixed [^] or [~]: range-qualified; exactly [latest]: latest-tagged;
    otherwise pinned. *)
Definition versionClass (v : jsstring) : VersionClass :=
  if hasPrefixChar 94 v || hasPrefixChar 126 v then RangeQualified
  else if JSString.eqb v `"latest" then LatestTagged
  else Pinned.

Definition sameClass (a b : VersionClass) : bool :=
  match a, b with
  | RangeQualified, RangeQualified | LatestTagged, LatestTagged
  | Pinned, Pinned => true
  | _, _ => false
  end.

(** Number of records whose version is in class [c]. *)
Definition countClass (c : VersionClass) (ds : list Dependency) : nat :=
  length (filter (fun d => sameClass (versionClass (version d)) c) ds).

Definition failed {A} (c : completion A) : Prop :=
  match c with
  | Throw _ => True
  | Normal _ => False
  end.

Definition isObject (v : value) : bool :=
  match v with
  | JObject _ => true
  | _ => false
  end.

Definition isString (v : value) : bool :=
  match v with
  | JString _ => true
  | _ => false
  end.

(** The manifest has a field [key] (whatever its value). *)
Definition hasField (parsed : value) (key : jsstring) : bool :=
  match parsed with
  | JObject props =>
      match Object.lookup key props with
      | Some _ => true
      | None => false
      end
  | _ => false
  end.

(** The manifest has a field [key] whose value is truthy: not [null],
    [false], zero or the empty string. *)
Definition hasTruthyField (parsed : value) (key : jsstring) : bool :=
  match parsed with
  | JObject props => truthy (Object.lookup key props)
  | _ => false
  end.

Definition when (cond : bool) (issue : jsstring) : list jsstring :=
  if cond then [issue] else [].

(** The issue list in its fixed order, given how the presence of [name]
    and [version] is decided. *)
Definition issueList (present : value -> jsstring -> bool) (parsed : value)
           (ds : list Dependency) (nLatest : nat) : list jsstring :=
  when (0 <? nLatest)%nat (latestIssue nLatest)
  ++ when (length ds =? 0)%nat `"No dependencies found"
  ++ when (negb (present parsed `"name")) `"Package name is missing"
  ++ when (negb (present parsed `"version")) `"Package version is missing"
  ++ map deprecatedIssue
       (filter (JSString.includes deprecatedPackages) (map name ds)).

Definition sectionKeys : list jsstring :=
  [`"dependencies"; `"devDependencies"; `"peerDependencies"].

(** The own enumerable properties of a non-null value. *)
Definition entriesOf (v : value) : properties :=
  match Object.entries v with
  | Normal es => es
  | Throw _ => []
  end.

(** Section [key] of the manifest is truthy and has an entry whose value
    is not a string. *)
Definition sectionHasNonString (parsed : value) (key : jsstring) : bool :=
  match parsed with
  | JObject props =>
      match Object.lookup key props with
      | Some sec =>
          truthy (Some sec)
          && existsb (fun e => negb (isString (snd e))) (entriesOf sec)
      | None => false
      end
  | _ => false
  end.

(** The result state of the error path. *)
Definition cleared (st : State) : Prop :=
  st_dependencies st = [] /\ st_analysis st = None.

Definition quoted (s : string) : jsstring := [34%N] ++ `s ++ [34%N].

(** The manifests used as examples. *)
Definition manifestExample : jsstring :=
  `"{" ++ quoted "name" ++ `":" ++ quoted "x" ++ `","
  ++ quoted "version" ++ `":" ++ quoted "1.0.0" ++ `","
  ++ quoted "dependencies" ++ `":{" ++ quoted "react" ++ `":" ++ quoted "^18.2.0"
  ++ `"," ++ quoted "lodash" ++ `":" ++ quoted "4.17.21" ++ `"},"
  ++ quoted "devDependencies" ++ `":{}}".

Definition requestExample : jsstring :=
  `"{" ++ quoted "dependencies" ++ `":{" ++ quoted "request" ++ `":"
  ++ quoted "1.0.0" ++ `"}}".

Definition manifestExampleRecords : list Dependency :=
  [ {| name := `"react"; version := `"^18.2.0"; type := Dependencies |};
    {| name := `"lodash"; version := `"4.17.21"; type := Dependencies |} ].

Definition manifestExampleSummary : DependencyAnalysis :=
  {| total := 2; dependencies := 2; devDependencies := 0; peerDependencies := 0;
     specificVersions := 1; rangeVersions := 1; latestVersions := 0;
     issues := [] |}.

Definition malformedExample : jsstring := `"{not json".

(** A manifest whose [name] is present but empty. *)
Definition emptyNameExample : jsstring :=
  `"{" ++ quoted "name" ++ `":" ++ [34%N; 34%N] ++ `","
  ++ quoted "version" ++ `":" ++ quoted "1.0.0" ++ `","
  ++ quoted "dependencies" ++ `":{" ++ quoted "react" ++ `":" ++ quoted "^18.2.0"
  ++ `"}}".

Definition requestExampleRecords : list Dependency :=
  [ {| name := `"request"; version := `"1.0.0"; type := Dependencies |} ].

Definition requestExampleSummary : DependencyAnalysis :=
  {| total := 1; dependencies := 1; devDependencies := 0; peerDependencies := 0;
     specificVersions := 1; rangeVersions := 0; latestVersions := 0;
     issues := [ `"Package name is missing"; `"Package version is missing";
                 quoted "request" ++ `" is deprecated and should be replaced" ] |}.

(** A state that still shows the results of an earlier analysis. *)
Definition staleState : State :=
  {| st_packageJson := malformedExample;
     st_dependencies := manifestExampleRecords;
     st_analysis := Some manifestExampleSummary;
     st_isAnalyzing := false;
     st_toasts := [] |}.

(** A manifest that maps a package name to a number. *)
Definition numericVersionExample : jsstring :=
  `"{" ++ quoted "dependencies" ++ `":{" ++ quoted "react" ++ `":18}}".

(** The counters agree with the classes of the records. *)
Definition tallyOk (acc : Tally) : Prop :=
  range acc = countClass RangeQualified (deps acc)
  /\ latest acc = countClass LatestTagged (deps acc)
  /\ specific acc = countClass Pinned (deps acc).

Definition nonString (e : jsstring * value) : bool := negb (isString (snd e)).

(** The value that the example manifest parses to. *)
Definition manifestExampleParsed : value :=
  JObject
    [ (`"name", JString `"x");
      (`"version", JString `"1.0.0");
      (`"dependencies",
        JObject [ (`"react", JString `"^18.2.0"); (`"lodash", JString `"4.17.21") ]);
      (`"devDependencies", JObject []) ].

(** The example manifest after the update to latest, as re-serialized. *)
Definition manifestExampleLatest : jsstring :=
  `"{" ++ [10%N]
  ++ `"  " ++ quoted "name" ++ `": " ++ quoted "x" ++ `"," ++ [10%N]
  ++ `"  " ++ quoted "version" ++ `": " ++ quoted "1.0.0" ++ `"," ++ [10%N]
  ++ `"  " ++ quoted "dependencies" ++ `": {" ++ [10%N]
  ++ `"    " ++ quoted "react" ++ `": " ++ quoted "latest" ++ `"," ++ [10%N]
  ++ `"    " ++ quoted "lodash" ++ `": " ++ quoted "latest" ++ [10%N]
  ++ `"  }," ++ [10%N]
  ++ `"  " ++ quoted "devDependencies" ++ `": {}" ++ [10%N]
  ++ `"}".

(** A text that is a number too large for a double. *)
Definition outOfRangeExample : jsstring := `"1e999".

(** What [analyze] returns for a value without any of the fields. *)
Definition emptySummary : DependencyAnalysis :=
  {| total := 0; dependencies := 0; devDependencies := 0; peerDependencies := 0;
     specificVersions := 0; rangeVersions := 0; latestVersions := 0;
     issues := [ `"No dependencies found"; `"Package name is missing";
                 `"Package version is missing" ] |}.

(** A manifest whose [dependencies] field is a string. *)
Definition stringSectionExample : jsstring :=
  `"{" ++ quoted "dependencies" ++ `":" ++ quoted "abc" ++ `"}".

(** The summary has only latest-tagged versions. *)
Definition allLatestSummary (a : DependencyAnalysis) : Prop :=
  latestVersions a = total a /\ rangeVersions a = 0 /\ specificVersions a = 0.

Definition stringSectionRecords : list Dependency :=
  [ {| name := `"0"; version := `"a"; type := Dependencies |};
    {| name := `"1"; version := `"b"; type := Dependencies |};
    {| name := `"2"; version := `"c"; type := Dependencies |} ].

Definition stringSectionSummary : DependencyAnalysis :=
  {| total := 3; dependencies := 3; devDependencies := 0; peerDependencies := 0;
     specificVersions := 3; rangeVersions := 0; latestVersions := 0;
     issues := [ `"Package name is missing"; `"Package version is missing" ] |}.

(** Section [key] of the manifest is a non-empty string. *)
Definition sectionIsString (parsed : value) (key : jsstring) : bool :=
  match parsed with
  | JObject props =>
      match Object.lookup key props with
      | Some (JString s) => negb (length s =? 0)%nat
      | _ => false
      end
  | _ => false
  end.

(** The property as the specification words it: for a manifest that
    [analyze] accepts, the update has an output, and [analyze] gives that
    output a summary with only latest-tagged versions. *)
Definition rewriteYieldsAllLatest (text : jsstring) : Prop :=
  (exists r, analyze text = Normal r) ->
  exists updated ds a,
    rewriteAllVersionsToLatest text = Normal updated
    /\ analyze updated = Normal (ds, a)
    /\ allLatestSummary a.

(** The counters of a tally that has seen only [latest]. *)
Definition onlyLatest (acc : Tally) : Prop :=
  range acc = 0 /\ specific acc = 0 /\ latest acc = length (deps acc).
End Spec.

(** *** The README composer, section by section *)

Module ReadmeSpec.
Local Open Scope js_scope.
Import BadgeSelector ReadmeGenerator.

(** A section is emitted only when its source field is non-empty. *)
Definition section (present : bool) (text : jsstring) : jsstring :=
  if present then text else [].

Definition heading (title : string) : jsstring := `"## " ++ `title ++ nl ++ nl.

Definition listItem (item : jsstring) : jsstring := `"- " ++ item ++ nl.

Definition codeBlock (code : jsstring) : jsstring :=
  fence ++ `"bash" ++ nl ++ code ++ nl ++ fence.

Definition nonBlank (line : jsstring) : bool := nonEmpty (JSString.trim line).

Definition lines (text : jsstring) : list jsstring := JSString.split 10 text.

(** The rendered snippets of the badges whose type is in the catalog. *)
Fixpoint badgeSnippets (bs : list Badge) : completion (list jsstring) :=
  match bs with
  | [] => Normal []
  | b :: more =>
      match findTemplate (type b) with
      | Some template =>
          md <- generateMarkdown template (url b) (label b) (message b) (color b) ;;
          rest <- badgeSnippets more ;;
          Normal (md :: rest)
      | None => badgeSnippets more
      end
  end.

Definition titleSection (f : Fields) : jsstring :=
  section (nonEmpty (projectName f)) (`"# " ++ projectName f ++ nl ++ nl).

Definition badgesSection (snippets : list jsstring) (f : Fields) : jsstring :=
  section (0 <? length (badges f))%nat
    (concat (map (fun md => md ++ `" ") snippets) ++ nl ++ nl).

Definition descriptionSection (f : Fields) : jsstring :=
  section (nonEmpty (description f))
    (heading "Description" ++ description f ++ nl ++ nl).

Definition featuresSection (f : Fields) : jsstring :=
  section (nonEmpty (features f))
    (heading "Features"
     ++ concat (map listItem (map JSString.trim (filter nonBlank (lines (features f)))))
     ++ nl).

Definition installationSection (f : Fields) : jsstring :=
  section (nonEmpty (installation f))
    (heading "Installation" ++ codeBlock (installation f) ++ nl ++ nl).

Definition usageSection (f : Fields) : jsstring :=
  section (nonEmpty (usage f))
    (heading "Usage" ++ codeBlock (usage f) ++ nl ++ nl).

Definition contributingSection (f : Fields) : jsstring :=
  section (nonEmpty (contributing f))
    (heading "Contributing" ++ contributing f ++ nl ++ nl).

Definition licenseSection (f : Fields) : jsstring :=
  match selectedLicenses f with
  | [] => []
  | [license] =>
      heading "License"
      ++ `"This project is licensed under the " ++ license ++ `" License."
      ++ nl ++ nl
  | licenses =>
      heading "License"
      ++ `"This project is licensed under multiple licenses:" ++ nl ++ nl
      ++ concat (map listItem licenses) ++ nl
  end.

Definition authorSection (f : Fields) : jsstring :=
  section (nonEmpty (author f)) (heading "Author" ++ author f ++ nl).

Definition sections (snippets : list jsstring) (f : Fields) : list jsstring :=
  [ titleSection f; badgesSection snippets f; descriptionSection f;
    featuresSection f; installationSection f; usageSection f;
    contributingSection f; licenseSection f; authorSection f ].

Definition compose (f : Fields) : completion jsstring :=
  snippets <- badgeSnippets (badges f) ;;
  Normal (concat (sections snippets f)).

(** The sections are emitted: a document is returned, and it is the nine
    sections in their order (the placeholder when all of them are empty). *)
Definition emitsSections (f : Fields) : Prop :=
  exists snippets,
    generateReadme f
    = Normal (let doc := concat (sections snippets f) in
              if nonEmpty doc then doc else placeholder).

(** Well-formed UTF-16: every surrogate is half of a pair. *)
Fixpoint wellFormed (s : jsstring) : bool :=
  match s with
  | [] => true
  | c :: r =>
      if JSString.isHighSurrogate c then
        match r with
        | d :: r' => JSString.isLowSurrogate d && wellFormed r'
        | [] => false
        end
      else negb (JSString.isLowSurrogate c) && wellFormed r
  end.

(** The badge's template encodes only well-formed text. *)
Definition encodable (b : Badge) : bool :=
  if JSString.eqb (type b) `"license" then wellFormed (url b)
  else if JSString.eqb (type b) `"custom" then
    wellFormed (withDefault (label b) `"label")
    && wellFormed (withDefault (message b) `"message")
  else true.

Definition allEmpty (f : Fields) : Prop :=
  projectName f = [] /\ description f = [] /\ installation f = []
  /\ usage f = [] /\ features f = [] /\ selectedLicenses f = []
  /\ author f = [] /\ contributing f = [] /\ badges f = [].

Definition emptyFields : Fields :=
  {| projectName := []; description := []; installation := []; usage := [];
     features := []; selectedLicenses := []; author := []; contributing := [];
     badges := [] |}.

(** A custom badge whose label is an unpaired high surrogate. *)
Definition loneSurrogateBadge : Badge :=
  {| id := `"b1"; type := `"custom"; url := `"x";
     label := Some [55357%N]; message := None; color := Some `"blue" |}.

Definition loneSurrogateFields : Fields :=
  {| projectName := `"demo"; description := []; installation := []; usage := [];
     features := []; selectedLicenses := []; author := []; contributing := [];
     badges := [loneSurrogateBadge] |}.

Definition starsBadge : Badge :=
  {| id := `"b2"; type := `"github-stars"; url := `"facebook/react";
     label := None; message := None; color := Some `"blue" |}.

(** The fields the form starts with, plus a name and a badge. *)
Definition demoFields : Fields :=
  {| projectName := `"demo"; description := [];
     installation := `"npm install"; usage := `"npm start";
     features := `"fast" ++ nl ++ `"  " ++ nl ++ `" small ";
     selectedLicenses := [`"MIT"]; author := [];
     contributing := `"Pull requests are welcome. For major changes, please open an issue first.";
     badges := [starsBadge] |}.

Definition demoReadme : jsstring :=
  `"# demo" ++ nl ++ nl
  ++ `"![GitHub stars](https://img.shields.io/github/stars/facebook/react) "
  ++ nl ++ nl
  ++ `"## Features" ++ nl ++ nl ++ `"- fast" ++ nl ++ `"- small" ++ nl ++ nl
  ++ `"## Installation" ++ nl ++ nl ++ fence ++ `"bash" ++ nl ++ `"npm install"
  ++ nl ++ fence ++ nl ++ nl
  ++ `"## Usage" ++ nl ++ nl ++ fence ++ `"bash" ++ nl ++ `"npm start"
  ++ nl ++ fence ++ nl ++ nl
  ++ `"## Contributing" ++ nl ++ nl
  ++ `"Pull requests are welcome. For major changes, please open an issue first."
  ++ nl ++ nl
  ++ `"## License" ++ nl ++ nl
  ++ `"This project is licensed under the MIT License." ++ nl ++ nl.

(** *** Badge templates *)

Definition render (t : BadgeTemplate) := generateMarkdown t.

(** The template embeds the identifier, as it is, in a fixed string. *)
Definition embedsIdentifier (t : BadgeTemplate) : Prop :=
  exists pre post, forall url label message color,
    render t url label message color = Normal (pre ++ url ++ post).

(** The template embeds the URI-encoded identifier in a fixed string. *)
Definition embedsEncodedIdentifier (t : BadgeTemplate) : Prop :=
  exists pre post, forall url label message color,
    render t url label message color
    = (encoded <- URI.encodeURIComponent url ;; Normal (pre ++ encoded ++ post)).

(** The template renders one fixed string. *)
Definition rendersConstant (t : BadgeTemplate) : Prop :=
  exists fixed, forall url label message color,
    render t url label message color = Normal fixed.

Definition ignoresOverrides (t : BadgeTemplate) : Prop :=
  forall url label message color label' message' color',
    render t url label message color = render t url label' message' color'.

Definition ignoresIdentifier (t : BadgeTemplate) : Prop :=
  forall url url' label message color,
    render t url label message color = render t url' label message color.

Definition ofTypes (types : list jsstring) : list BadgeTemplate :=
  filter (fun t => JSString.includes types (t_type t)) badgeTemplates.

Definition nonCustom : list BadgeTemplate :=
  filter (fun t => negb (JSString.eqb (t_type t) `"custom")) badgeTemplates.
End ReadmeSpec.

Unset Implicit Arguments.

(** *** The values [JSON.parse] builds and the text [JSON.stringify] writes *)

Module RoundTrip.

(** The significand and exponent of a non-zero binary64: subnormal at the
    least exponent, else with the leading bit set. *)
Definition canonical (m : N) (e : Z) : Prop :=
  (0 < m < 2 ^ 53)%N /\ (-1074 <= e <= 971)%Z /\ (e = (-1074)%Z \/ (2 ^ 52 <= m)%N).

(** A binary64 in the one form that [Number.ofDecimal] returns. *)
Definition wfNumber (x : Number.t) : Prop :=
  match x with
  | Number.Infinity _ => True
  | Number.Finite _ m e => (m = 0%N /\ e = 0%Z) \/ canonical m e
  end.

Definition withSign (neg : bool) (x : Number.t) : Number.t :=
  match x with
  | Number.Finite _ m e => Number.Finite neg m e
  | Number.Infinity _ => Number.Infinity neg
  end.

(** The text after a number does not continue it. *)
Definition ends (rest : jsstring) : Prop :=
  match rest with
  | [] => True
  | c :: _ => JSString.isDigit c = false /\ c <> 46%N /\ c <> 101%N /\ c <> 69%N
  end.

(** The parts of a number literal. *)
Definition signText (neg : bool) : jsstring := if neg then [45%N] else [].

Definition fracText (frac : jsstring) : jsstring :=
  match frac with
  | [] => []
  | _ => 46%N :: frac
  end.

Definition expText (ex : option (bool * jsstring)) : jsstring :=
  match ex with
  | None => []
  | Some (neg, ds) => 101%N :: (if neg then 45%N else 43%N) :: ds
  end.

Definition expValue (ex : option (bool * jsstring)) : Z :=
  match ex with
  | None => 0%Z
  | Some (neg, ds) =>
      if neg then (- Z.of_N (JSString.digitsValue ds))%Z
      else Z.of_N (JSString.digitsValue ds)
  end.

(** The text after the digits of an exponent is not a digit. *)
Definition stops (rest : jsstring) : Prop :=
  match rest with
  | [] => True
  | c :: _ => JSString.isDigit c = false
  end.

(** [k1] may precede [k2] among the own keys of an object: array indices
    come first and ascend, and no key is repeated. *)
Definition keyBefore (k1 k2 : jsstring) : Prop :=
  match Object.arrayIndex k1, Object.arrayIndex k2 with
  | Some i, Some j => (i < j)%N
  | Some _, None => True
  | None, Some _ => False
  | None, None => k1 <> k2
  end.

(** The keys are in [[OwnPropertyKeys]] order. *)
Definition wfKeys (keys : list jsstring) : Prop := ForallOrdPairs keyBefore keys.

(** Numbers are canonical, and the keys of every object are in order. *)
Fixpoint wfValue (v : value) : Prop :=
  match v with
  | JNull | JBool _ | JString _ => True
  | JNumber x => wfNumber x
  | JArray elems =>
      (fix all (l : list value) : Prop :=
         match l with
         | [] => True
         | e :: l' => wfValue e /\ all l'
         end) elems
  | JObject props =>
      wfKeys (map fst props)
      /\ (fix all (l : properties) : Prop :=
            match l with
            | [] => True
            | kv :: l' => wfValue (snd kv) /\ all l'
            end) props
  end.

(** [JSON.stringify] writes an infinite number as [null] and minus zero as
    [0]; everything else is read back as it was. *)
Definition normNumber (x : Number.t) : value :=
  match x with
  | Number.Infinity _ => JNull
  | Number.Finite _ 0%N _ => JNumber (Number.Finite false 0%N 0%Z)
  | Number.Finite _ _ _ => JNumber x
  end.

Fixpoint norm (v : value) : value :=
  match v with
  | JNumber x => normNumber x
  | JArray elems => JArray (map norm elems)
  | JObject props => JObject (map (fun kv => (fst kv, norm (snd kv))) props)
  | _ => v
  end.

Definition normProp (kv : jsstring * value) : jsstring * value :=
  (fst kv, norm (snd kv)).

(** Fuel that [JSON.parseValue] needs for the text of a value. *)
Fixpoint size (v : value) : nat :=
  match v with
  | JArray elems => S (fold_right (fun e n => S (size e) + n) 0 elems)
  | JObject props => S (fold_right (fun kv n => S (size (snd kv)) + n) 0 props)
  | _ => 1
  end.

(** The value is [Infinity] or [-Infinity]. *)
Definition isInfinite (v : value) : bool :=
  match v with
  | JNumber (Number.Infinity _) => true
  | _ => false
  end.

(** Only JSON white space. *)
Definition blank (ws : jsstring) : Prop := forallb JSON.isWhiteSpace ws = true.

(** A character that can start the text of a value. *)
Definition starts (t : jsstring) : Prop :=
  match t with
  | [] => False
  | c :: _ => JSON.isWhiteSpace c = false /\ c <> 93%N /\ c <> 125%N
  end.

(** The text of [v], followed by [rest], is read back as [norm v]. *)
Definition roundTrips (v : value) : Prop :=
  forall indent rest fuel,
    wfValue v -> size v <= fuel -> blank indent -> ends rest ->
    JSON.parseValue fuel (JSON.serialize indent v ++ rest) = Some (norm v, rest).

(** The text of one member of an object. *)
Definition memberText (indent' : jsstring) (kv : jsstring * value) : jsstring :=
  JSON.quote (fst kv) ++ [58; 32]%N ++ JSON.serialize indent' (snd kv).

(** A run that returns with [fuel] has consumed some of [s], and returns
    the same with any fuel not below the number of characters consumed. *)
Definition settled (run : nat -> option (value * jsstring)) (s : jsstring)
           (fuel : nat) : Prop :=
  forall v rest,
    run fuel = Some (v, rest) ->
    length rest < length s
    /\ forall fuel', length s - length rest <= fuel' -> run fuel' = Some (v, rest).

End RoundTrip.

(** *** Sections after the update to latest *)

Module LatestSpec.
Local Open Scope js_scope.
Import Spec RoundTrip.

(** The value written by the update. *)
Definition latestVersion : value := JString `"latest".

Definition toLatest (kv : jsstring * value) : jsstring * value := (fst kv, latestVersion).

(** Every entry of the section has the version [latest]. *)
Definition allLatest (sec : value) : Prop :=
  Forall (fun e => snd e = latestVersion) (entriesOf sec).

(** The section, as it is read back, is skipped or has only [latest]. *)
Definition goodSection (sec : value) : Prop :=
  truthy (Some (norm sec)) = true -> allLatest (norm sec).

(** Section [key] of the manifest [v] is good. *)
Definition goodAt (key : jsstring) (v : value) : Prop :=
  forall props sec,
    v = JObject props -> Object.lookup key props = Some sec -> goodSection sec.

End LatestSpec.

(* ================================================================== *)
(** ** The components as event handlers *)

(** *** DependencyChecker.tsx: handlers, pending timers and file reads *)

Module CheckerApp.
Local Open Scope js_scope.
Import DependencyChecker.

(** [s.endsWith(suffix)] *)
Definition endsWith (s suffix : jsstring) : bool :=
  (length suffix <=? length s)%nat
  && JSString.eqb (skipn (length s - length suffix) s) suffix.

(** A chosen file: its name, and the text that [FileReader.readAsText]
    delivers to [onload] ([None]: the read fails and [onerror] runs). *)
Record File := {
  fileName : jsstring;
  fileText : option jsstring
}.

(** The component state together with the work it has handed to the
    browser: the contents waiting for their [setTimeout] callback (oldest
    first; every timer has the same delay), the reads in progress, and the
    texts offered for download. *)
Record App := {
  ui : State;
  timers : list jsstring;
  reads : list File;
  downloads : list jsstring
}.

Definition withUi (f : State -> State) (app : App) : App :=
  {| ui := f (ui app); timers := timers app; reads := reads app;
     downloads := downloads app |}.

(** [analyzePackageJson(jsonContent)] up to its [setTimeout]: the callback
    is queued. *)
Definition scheduleAnalysis (jsonContent : jsstring) (app : App) : App :=
  {| ui := setIsAnalyzing true (ui app);
     timers := timers app ++ [jsonContent];
     reads := reads app; downloads := downloads app |}.

(** The oldest timer fires and runs its callback. *)
Definition timerFires (app : App) : App :=
  match timers app with
  | [] => app
  | jsonContent :: rest =>
      {| ui := analysisCallback jsonContent (ui app);
         timers := rest; reads := reads app; downloads := downloads app |}
  end.

Definition handleAnalyze (app : App) : App :=
  scheduleAnalysis (st_packageJson (ui app)) app.

(** [handleFileUpload(event)]; [file] is [event.target.files?.[0]]. *)
Definition handleFileUpload (file : option File) (app : App) : App :=
  match file with
  | None => app
  | Some f =>
      if negb (endsWith (fileName f) `".json")
         && negb (JSString.eqb (fileName f) `"package.json")
      then withUi (showToast (ToastError `"Please upload a valid JSON file")) app
      else {| ui := ui app; timers := timers app; reads := reads app ++ [f];
              downloads := downloads app |}
  end.

(** [reader.onload] *)
Definition onload (f : File) (content : jsstring) (app : App) : App :=
  withUi (showToast (ToastSuccess (`"File " ++ [34%N] ++ fileName f ++ [34%N]
                                   ++ `" loaded successfully")))
    (scheduleAnalysis content (withUi (setPackageJson content) app)).

(** [reader.onerror] *)
Definition onerror (app : App) : App :=
  withUi (showToast (ToastError `"Failed to read file")) app.

(** The read of the [i]-th file in progress comes to its end. *)
Definition readCompletes (i : nat) (app : App) : App :=
  match nth_error (reads app) i with
  | None => app
  | Some f =>
      let app' := {| ui := ui app; timers := timers app;
                     reads := firstn i (reads app) ++ skipn (S i) (reads app);
                     downloads := downloads app |} in
      match fileText f with
      | Some content => onload f content app'
      | None => onerror app'
      end
  end.

(** The object literal of [loadExample]. *)
Definition example : value :=
  JObject
    [ (`"name", JString `"my-project");
      (`"version", JString `"1.0.0");
      (`"dependencies",
        JObject [ (`"react", JString `"^18.2.0");
                  (`"react-dom", JString `"^18.2.0");
                  (`"lodash", JString `"4.17.21");
                  (`"axios", JString `"^1.6.0") ]);
      (`"devDependencies",
        JObject [ (`"typescript", JString `"^5.0.0");
                  (`"vite", JString `"^5.0.0");
                  (`"@types/react", JString `"^18.2.0") ]) ].

Definition loadExample (app : App) : App :=
  withUi (setPackageJson (JSON.stringify example)) app.

Definition updateToLatestVersions (app : App) : App :=
  match rewriteAllVersionsToLatest (st_packageJson (ui app)) with
  | Normal updatedJson =>
      withUi (showToast (ToastSuccess `"All packages updated to latest version!"))
        (scheduleAnalysis updatedJson (withUi (setPackageJson updatedJson) app))
  | Throw _ =>
      withUi (showToast (ToastError `"Failed to update packages. Invalid JSON format."))
        app
  end.

Definition downloadUpdatedPackageJson (app : App) : App :=
  {| ui := showToast (ToastSuccess `"package.json downloaded!") (ui app);
     timers := timers app; reads := reads app;
     downloads := downloads app ++ [st_packageJson (ui app)] |}.

Definition getTypeColor (type : jsstring) : jsstring :=
  if JSString.eqb type `"dependencies" then `"default"
  else if JSString.eqb type `"devDependencies" then `"secondary"
  else if JSString.eqb type `"peerDependencies" then `"outline"
  else `"default".

(** What the user and the browser can do to the rendered component. *)
Inductive event :=
| Edit (text : jsstring)
| ClickAnalyze
| ClickLoadExample
| ClickUpdate
| ClickDownload
| ChooseFile (file : option File)
| ReadCompletes (i : nat)
| TimerFires.

Definition isSome {A} (o : option A) : bool :=
  match o with
  | Some _ => true
  | None => false
  end.

(** The Analyze button is disabled while the text is empty or an analysis
    runs; the Update and Download buttons are rendered only with a summary
    and a text. *)
Definition enabled (e : event) (app : App) : bool :=
  match e with
  | ClickAnalyze =>
      ReadmeGenerator.nonEmpty (st_packageJson (ui app))
      && negb (st_isAnalyzing (ui app))
  | ClickUpdate | ClickDownload =>
      isSome (st_analysis (ui app))
      && ReadmeGenerator.nonEmpty (st_packageJson (ui app))
  | _ => true
  end.

Definition handle (e : event) (app : App) : App :=
  match e with
  | Edit text => withUi (setPackageJson text) app
  | ClickAnalyze => handleAnalyze app
  | ClickLoadExample => loadExample app
  | ClickUpdate => updateToLatestVersions app
  | ClickDownload => downloadUpdatedPackageJson app
  | ChooseFile file => handleFileUpload file app
  | ReadCompletes i => readCompletes i app
  | TimerFires => timerFires app
  end.

Definition step (app : App) (e : event) : App :=
  if enabled e app then handle e app else app.

Definition run (es : list event) (app : App) : App := fold_left step es app.

Definition initialApp : App :=
  {| ui := initialState; timers := []; reads := []; downloads := [] |}.

End CheckerApp.

(** *** BadgeSelector.tsx: the form that adds and removes badges *)

Module BadgeForm.
Local Open Scope js_scope.
Import BadgeSelector.

Record Form := {
  selectedType : jsstring;
  badgeUrl : jsstring;
  customLabel : jsstring;
  customMessage : jsstring;
  customColor : jsstring
}.

Definition initialForm : Form :=
  {| selectedType := []; badgeUrl := []; customLabel := [];
     customMessage := []; customColor := `"blue" |}.

Definition currentTemplate (f : Form) : option BadgeTemplate :=
  findTemplate (selectedType f).

Definition validateUrl (f : Form) (url : jsstring) : bool :=
  match currentTemplate f with
  | None => false
  | Some t => urlPattern t url
  end.

(** [s || undefined] *)
Definition orUndefined (s : jsstring) : option jsstring :=
  if ReadmeGenerator.nonEmpty s then Some s else None.

(** [addBadge()], with [newId] the string that [Math.random] yields: the
    form, the badge list handed to [onBadgesChange], and the toast. *)
Definition addBadge (newId : jsstring) (f : Form) (badges : list Badge)
  : Form * list Badge * DependencyChecker.toast :=
  match currentTemplate f with
  | None =>
      (f, badges,
       DependencyChecker.ToastError
         `"Please select a badge type and enter required information")
  | Some t =>
      if negb (ReadmeGenerator.nonEmpty (JSString.trim (badgeUrl f))) then
        (f, badges,
         DependencyChecker.ToastError
           `"Please select a badge type and enter required information")
      else if negb (validateUrl f (badgeUrl f)) then
        (f, badges,
         DependencyChecker.ToastError (`"Invalid format. Example: " ++ urlExample t))
      else
        let newBadge :=
          {| id := newId;
             type := selectedType f;
             url := badgeUrl f;
             label := orUndefined (customLabel f);
             message := orUndefined (customMessage f);
             color := orUndefined (customColor f) |} in
        ({| selectedType := selectedType f; badgeUrl := []; customLabel := [];
            customMessage := []; customColor := `"blue" |},
         badges ++ [newBadge],
         DependencyChecker.ToastSuccess `"Badge added!")
  end.

Definition removeBadge (badgeId : jsstring) (badges : list Badge)
  : list Badge * DependencyChecker.toast :=
  (filter (fun b => negb (JSString.eqb (id b) badgeId)) badges,
   DependencyChecker.ToastSuccess `"Badge removed").

(** The values of the colour select. *)
Definition colors : list jsstring :=
  [ `"brightgreen"; `"blue"; `"red"; `"yellow"; `"orange"; `"lightgrey" ].

End BadgeForm.

(** *** ReadmeGenerator.tsx: the form state and its handlers *)

Module ReadmeApp.
Local Open Scope js_scope.
Import BadgeSelector ReadmeGenerator BadgeForm.

Definition LICENSE_OPTIONS : list (jsstring * jsstring) :=
  [ (`"MIT", `"MIT License");
    (`"Apache-2.0", `"Apache License 2.0");
    (`"GPL-3.0", `"GNU GPL v3.0");
    (`"BSD-3-Clause", `"BSD 3-Clause");
    (`"BSD-2-Clause", `"BSD 2-Clause");
    (`"ISC", `"ISC License");
    (`"MPL-2.0", `"Mozilla Public License 2.0");
    (`"LGPL-3.0", `"GNU LGPL v3.0");
    (`"AGPL-3.0", `"GNU AGPL v3.0");
    (`"Unlicense", `"The Unlicense");
    (`"Proprietary", `"Proprietary") ].

(** The initial values of the [useState] hooks. *)
Definition initialFields : Fields :=
  {| projectName := [];
     description := [];
     installation := `"npm install";
     usage := `"npm start";
     features := [];
     selectedLicenses := [`"MIT"];
     author := [];
     contributing :=
       `"Pull requests are welcome. For major changes, please open an issue first.";
     badges := [] |}.

Definition toggleLicense (license : jsstring) (prev : list jsstring)
  : list jsstring :=
  if JSString.includes prev license
  then filter (fun l => negb (JSString.eqb l license)) prev
  else prev ++ [license].

Definition setSelectedLicenses (x : list jsstring) (f : Fields) : Fields :=
  {| projectName := projectName f; description := description f;
     installation := installation f; usage := usage f; features := features f;
     selectedLicenses := x; author := author f;
     contributing := contributing f; badges := badges f |}.

Definition setBadges (x : list Badge) (f : Fields) : Fields :=
  {| projectName := projectName f; description := description f;
     installation := installation f; usage := usage f; features := features f;
     selectedLicenses := selectedLicenses f; author := author f;
     contributing := contributing f; badges := x |}.

(** The text inputs of the two forms. *)
Inductive input :=
| ProjectName | Description | Installation | Usage | Features | Author
| Contributing | BadgeUrl | CustomLabel | CustomMessage.

(** The state of the two components ([fields] in ReadmeGenerator, [form]
    in BadgeSelector) and what they have handed to the browser: the toasts,
    the text last passed to [navigator.clipboard.writeText], and the texts
    offered for download as README.md. *)
Record App := {
  fields : Fields;
  form : Form;
  toasts : list DependencyChecker.toast;
  clipboard : option jsstring;
  downloads : list jsstring
}.

Definition setText (i : input) (x : jsstring) (app : App) : App :=
  let f := fields app in
  let fm := form app in
  let withFields (f' : Fields) :=
    {| fields := f'; form := fm; toasts := toasts app;
       clipboard := clipboard app; downloads := downloads app |} in
  let withForm (fm' : Form) :=
    {| fields := f; form := fm'; toasts := toasts app;
       clipboard := clipboard app; downloads := downloads app |} in
  match i with
  | ProjectName =>
      withFields
        {| projectName := x; description := description f;
           installation := installation f; usage := usage f;
           features := features f; selectedLicenses := selectedLicenses f;
           author := author f; contributing := contributing f;
           badges := badges f |}
  | Description =>
      withFields
        {| projectName := projectName f; description := x;
           installation := installation f; usage := usage f;
           features := features f; selectedLicenses := selectedLicenses f;
           author := author f; contributing := contributing f;
           badges := badges f |}
  | Installation =>
      withFields
        {| projectName := projectName f; description := description f;
           installation := x; usage := usage f;
           features := features f; selectedLicenses := selectedLicenses f;
           author := author f; contributing := contributing f;
           badges := badges f |}
  | Usage =>
      withFields
        {| projectName := projectName f; description := description f;
           installation := installation f; usage := x;
           features := features f; selectedLicenses := selectedLicenses f;
           author := author f; contributing := contributing f;
           badges := badges f |}
  | Features =>
      withFields
        {| projectName := projectName f; description := description f;
           installation := installation f; usage := usage f;
           features := x; selectedLicenses := selectedLicenses f;
           author := author f; contributing := contributing f;
           badges := badges f |}
  | Author =>
      withFields
        {| projectName := projectName f; description := description f;
           installation := installation f; usage := usage f;
           features := features f; selectedLicenses := selectedLicenses f;
           author := x; contributing := contributing f;
           badges := badges f |}
  | Contributing =>
      withFields
        {| projectName := projectName f; description := description f;
           installation := installation f; usage := usage f;
           features := features f; selectedLicenses := selectedLicenses f;
           author := author f; contributing := x;
           badges := badges f |}
  | BadgeUrl =>
      withForm
        {| selectedType := selectedType fm; badgeUrl := x;
           customLabel := customLabel fm; customMessage := customMessage fm;
           customColor := customColor fm |}
  | CustomLabel =>
      withForm
        {| selectedType := selectedType fm; badgeUrl := badgeUrl fm;
           customLabel := x; customMessage := customMessage fm;
           customColor := customColor fm |}
  | CustomMessage =>
      withForm
        {| selectedType := selectedType fm; badgeUrl := badgeUrl fm;
           customLabel := customLabel fm; customMessage := x;
           customColor := customColor fm |}
  end.

Definition setSelectedType (x : jsstring) (app : App) : App :=
  {| fields := fields app;
     form := {| selectedType := x; badgeUrl := badgeUrl (form app);
                customLabel := customLabel (form app);
                customMessage := customMessage (form app);
                customColor := customColor (form app) |};
     toasts := toasts app; clipboard := clipboard app;
     downloads := downloads app |}.

Definition setCustomColor (x : jsstring) (app : App) : App :=
  {| fields := fields app;
     form := {| selectedType := selectedType (form app);
                badgeUrl := badgeUrl (form app);
                customLabel := customLabel (form app);
                customMessage := customMessage (form app);
                customColor := x |};
     toasts := toasts app; clipboard := clipboard app;
     downloads := downloads app |}.

Definition clickToggle (license : jsstring) (app : App) : App :=
  {| fields := setSelectedLicenses
                 (toggleLicense license (selectedLicenses (fields app)))
                 (fields app);
     form := form app; toasts := toasts app; clipboard := clipboard app;
     downloads := downloads app |}.

Definition clickAdd (newId : jsstring) (app : App) : App :=
  let '(fm, bs, t) := addBadge newId (form app) (badges (fields app)) in
  {| fields := setBadges bs (fields app); form := fm;
     toasts := toasts app ++ [t]; clipboard := clipboard app;
     downloads := downloads app |}.

Definition clickRemove (badgeId : jsstring) (app : App) : App :=
  let '(bs, t) := removeBadge badgeId (badges (fields app)) in
  {| fields := setBadges bs (fields app); form := form app;
     toasts := toasts app ++ [t]; clipboard := clipboard app;
     downloads := downloads app |}.

(** [copyToClipboard()], with [readme] the text of the current render. *)
Definition copyToClipboard (readme : jsstring) (app : App) : App :=
  {| fields := fields app; form := form app;
     toasts := toasts app
               ++ [DependencyChecker.ToastSuccess `"README copied to clipboard!"];
     clipboard := Some readme; downloads := downloads app |}.

(** [downloadReadme()] *)
Definition downloadReadme (readme : jsstring) (app : App) : App :=
  {| fields := fields app; form := form app;
     toasts := toasts app
               ++ [DependencyChecker.ToastSuccess `"README.md downloaded!"];
     clipboard := clipboard app; downloads := downloads app ++ [readme] |}.

Inductive event :=
| Fill (i : input) (text : jsstring)
| ToggleLicense (license : jsstring)
| SelectType (type : jsstring)
| SelectColor (color : jsstring)
| ClickAdd (newId : jsstring)
| ClickRemove (badgeId : jsstring)
| ClickCopy
| ClickDownload.

Definition isCustom (f : Form) : bool :=
  match currentTemplate f with
  | Some t => JSString.eqb (t_type t) `"custom"
  | None => false
  end.

(** The controls that are rendered and enabled: a checkbox per license
    option and a remove button per selected license; the identifier input
    once a type is selected; the label, message and colour controls for the
    custom type; the Add button with a type and an identifier; a remove
    button per badge. *)
Definition enabled (e : event) (app : App) : bool :=
  match e with
  | Fill BadgeUrl _ => CheckerApp.isSome (currentTemplate (form app))
  | Fill CustomLabel _ | Fill CustomMessage _ => isCustom (form app)
  | Fill _ _ => true
  | ToggleLicense license =>
      JSString.includes (map fst LICENSE_OPTIONS) license
      || JSString.includes (selectedLicenses (fields app)) license
  | SelectType type => JSString.includes (map t_type badgeTemplates) type
  | SelectColor color => isCustom (form app) && JSString.includes colors color
  | ClickAdd _ =>
      CheckerApp.isSome (currentTemplate (form app))
      && nonEmpty (badgeUrl (form app))
  | ClickRemove badgeId => JSString.includes (map id (badges (fields app))) badgeId
  | ClickCopy | ClickDownload => true
  end.

Definition handle (readme : jsstring) (e : event) (app : App) : App :=
  match e with
  | Fill i text => setText i text app
  | ToggleLicense license => clickToggle license app
  | SelectType type => setSelectedType type app
  | SelectColor color => setCustomColor color app
  | ClickAdd newId => clickAdd newId app
  | ClickRemove badgeId => clickRemove badgeId app
  | ClickCopy => copyToClipboard readme app
  | ClickDownload => downloadReadme readme app
  end.

(** An event reaches its handler only if the component has rendered, that
    is if [generateReadme], which the render calls, has returned. *)
Definition step (app : App) (e : event) : App :=
  match generateReadme (fields app) with
  | Normal readme => if enabled e app then handle readme e app else app
  | Throw _ => app
  end.

Definition run (es : list event) (app : App) : App := fold_left step es app.

Definition initialApp : App :=
  {| fields := initialFields; form := initialForm; toasts := [];
     clipboard := None; downloads := [] |}.

End ReadmeApp.

(* ================================================================== *)
(** ** Vocabulary of the further properties *)

(** *** The records of an analysis *)

Module AnalysisSpec.
Local Open Scope js_scope.
Import DependencyChecker Spec RoundTrip LatestSpec.

(** The string a record keeps as its version. *)
Definition versionOf (v : value) : jsstring :=
  match v with
  | JString s => s
  | _ => []
  end.

(** The entries of section [key] that the analysis walks through: none
    when the section is missing or falsy. *)
Definition sectionEntries (parsed : value) (key : jsstring) : properties :=
  match parsed with
  | JObject props =>
      match Object.lookup key props with
      | Some sec => if truthy (Some sec) then entriesOf sec else []
      | None => []
      end
  | _ => []
  end.

(** The record that [deps.push] builds from an entry of a section. *)
Definition toRecord (ty : DependencyType) (e : jsstring * value) : Dependency :=
  {| name := fst e; version := versionOf (snd e); type := ty |}.

(** The records of one section, in the order of its keys. *)
Definition sectionRecords (parsed : value) (key : jsstring) (ty : DependencyType)
  : list Dependency :=
  map (toRecord ty) (sectionEntries parsed key).

(** All records: the three sections in their fixed order, each in the
    order of its keys. *)
Definition records (parsed : value) : list Dependency :=
  sectionRecords parsed `"dependencies" Dependencies
  ++ sectionRecords parsed `"devDependencies" DevDependencies
  ++ sectionRecords parsed `"peerDependencies" PeerDependencies.

(** Equality of section types. *)
Definition sameType (a b : DependencyType) : bool :=
  match a, b with
  | Dependencies, Dependencies | DevDependencies, DevDependencies
  | PeerDependencies, PeerDependencies => true
  | _, _ => false
  end.

(** The records that came from one section. *)
Definition ofType (ty : DependencyType) (ds : list Dependency) : list Dependency :=
  filter (fun d => sameType (type d) ty) ds.


(** A manifest text that names the package [a] twice. *)
Definition repeatedKeyExample : jsstring :=
  `"{" ++ quoted "dependencies" ++ `":{" ++ quoted "a" ++ `":" ++ quoted "1"
  ++ `"," ++ quoted "a" ++ `":" ++ quoted "2" ++ `"}}".

Definition repeatedKeyRecords : list Dependency :=
  [ {| name := `"a"; version := `"2"; type := Dependencies |} ].

Definition repeatedKeySummary : DependencyAnalysis :=
  {| total := 1; dependencies := 1; devDependencies := 0; peerDependencies := 0;
     specificVersions := 1; rangeVersions := 0; latestVersions := 0;
     issues := [ `"Package name is missing"; `"Package version is missing" ] |}.

End AnalysisSpec.

(** *** The manifest after the update to latest *)

Module UpdateSpec.
Local Open Scope js_scope.
Import DependencyChecker Spec RoundTrip LatestSpec AnalysisSpec.

(** The section with every version replaced by [latest]; a section without
    entries of its own (a boolean, a number) stays as it is. *)
Definition latestSection (sec : value) : value :=
  match sec with
  | JObject props => JObject (map toLatest props)
  | JArray elems => JArray (map (fun _ => latestVersion) elems)
  | _ => sec
  end.

(** The value of field [key] after the update: only a truthy dependency
    section changes. *)
Definition latestValue (key : jsstring) (v : value) : value :=
  if JSString.includes sectionKeys key && truthy (Some v)
  then latestSection v else v.

(** One field of the manifest after the update. *)
Definition latestProp (kv : jsstring * value) : jsstring * value :=
  (fst kv, latestValue (fst kv) (snd kv)).

(** The manifest after the update: the same fields in the same order. *)
Definition latestManifest (parsed : value) : value :=
  match parsed with
  | JObject props => JObject (map latestProp props)
  | _ => parsed
  end.

(** The record with its version replaced. *)
Definition asLatest (d : Dependency) : Dependency :=
  {| name := name d; version := `"latest"; type := type d |}.

(** One section of the manifest replaced. *)
Definition latestAt (key : jsstring) (parsed : value) : value :=
  match parsed with
  | JObject props =>
      JObject (map (fun kv =>
                      if JSString.eqb (fst kv) key && truthy (Some (snd kv))
                      then (fst kv, latestSection (snd kv)) else kv) props)
  | _ => parsed
  end.

End UpdateSpec.

(** *** States of the dependency checker *)

Module CheckerSpec.
Local Open Scope js_scope.
Import DependencyChecker Spec CheckerApp.

(** The records and the summary on display come from one run of the
    analysis, or there are none. *)
Definition consistent (st : State) : Prop :=
  match st_analysis st with
  | None => st_dependencies st = []
  | Some a =>
      (exists text, analyze text = Normal (st_dependencies st, a))
      /\ total a = length (st_dependencies st)
  end.

(** The results that the callback of an analysis of [text] leaves. *)
Definition shows (text : jsstring) (st : State) : Prop :=
  match analyze text with
  | Normal (ds, a) => st_dependencies st = ds /\ st_analysis st = Some a
  | Throw _ => st_dependencies st = [] /\ st_analysis st = None
  end.

(** The file is put among the reads in progress. *)
Definition addRead (f : File) (app : App) : App :=
  {| ui := ui app; timers := timers app; reads := reads app ++ [f];
     downloads := downloads app |}.

(** Every pending timer fires, oldest first. *)
Definition fireAll (app : App) : App :=
  run (repeat TimerFires (length (timers app))) app.

(** What every event preserves: the results belong together, and a set
    [isAnalyzing] has a timer to clear it. *)
Definition invariant (app : App) : Prop :=
  consistent (ui app)
  /\ (st_isAnalyzing (ui app) = true -> timers app <> []).

(** Two analyses of the example manifests are pending, the malformed one
    first. *)
Definition twoPending : App :=
  {| ui := staleState; timers := [malformedExample; manifestExample];
     reads := []; downloads := [] |}.

(** The read of a file named package.json is in progress. *)
Definition oneRead : App :=
  {| ui := staleState; timers := [];
     reads := [{| fileName := `"package.json"; fileText := Some manifestExample |}];
     downloads := [] |}.

(** The example manifest has been typed into the input field. *)
Definition exampleLoaded : CheckerApp.App :=
  CheckerApp.withUi (setPackageJson manifestExample) CheckerApp.initialApp.

(** A text on which the update to latest throws before it has anything to
    serialize: it is not JSON, it is [null], or one of its three dependency
    sections is a non-empty string. *)
Definition notUpdatable (text : jsstring) : Prop :=
  JSON.parseText text = None
  \/ JSON.parseText text = Some JNull
  \/ exists parsed,
       JSON.parseText text = Some parsed
       /\ existsb (sectionIsString parsed) sectionKeys = true.

(** The toast of a failed update. *)
Definition updateFailed : toast :=
  ToastError `"Failed to update packages. Invalid JSON format.".

(** The manifest with a string section has been typed into the input
    field. *)
Definition stringSectionApp : CheckerApp.App :=
  CheckerApp.withUi (setPackageJson stringSectionExample) CheckerApp.initialApp.

End CheckerSpec.

(** *** Badges, licenses and exports of the README form *)

Module FormSpec.
Local Open Scope js_scope.
Import BadgeSelector ReadmeGenerator ReadmeSpec BadgeForm.

(** The badge has a catalogued type, and its identifier is not blank and
    passes the pattern of its template. *)
Definition validBadge (b : Badge) : bool :=
  match findTemplate (type b) with
  | Some t => urlPattern t (url b) && nonEmpty (JSString.trim (url b))
  | None => false
  end.

(** The badge is not a custom one, or its label and message can be
    URI-encoded. *)
Definition customEncodable (b : Badge) : bool :=
  negb (JSString.eqb (type b) `"custom") || encodable b.

(** The text a validated license identifier is encoded to: white space is
    escaped, every other character stays. *)
Definition escapeWhiteSpace (url : jsstring) : jsstring :=
  flat_map (fun c => if JSString.isWhiteSpace c then URI.escape c else [c]) url.

(** [addBadge] takes the form: a type is selected, and the identifier is
    not blank and passes the pattern of the type. *)
Definition accepts (f : Form) : bool :=
  match currentTemplate f with
  | Some t => nonEmpty (JSString.trim (badgeUrl f)) && urlPattern t (badgeUrl f)
  | None => false
  end.

(** The badge that [addBadge] builds from the form. *)
Definition newBadge (newId : jsstring) (f : Form) : Badge :=
  {| id := newId; type := selectedType f; url := badgeUrl f;
     label := orUndefined (customLabel f);
     message := orUndefined (customMessage f);
     color := orUndefined (customColor f) |}.

(** The badge list that [addBadge] hands to [onBadgesChange] (the old list
    when it rejects the form). *)
Definition badgesAfterAdd (newId : jsstring) (f : Form) (bs : list Badge)
  : list Badge :=
  snd (fst (addBadge newId f bs)).

(** What every sequence of events keeps true of the README form. *)
Definition wellFormedSelection (f : Fields) : Prop :=
  NoDup (selectedLicenses f)
  /\ Forall (fun l => In l (map fst ReadmeApp.LICENSE_OPTIONS)) (selectedLicenses f)
  /\ forallb validBadge (badges f) = true.

(** The code unit is no half of a surrogate pair. *)
Definition notSurrogate (c : N) : bool :=
  negb (JSString.isHighSurrogate c) && negb (JSString.isLowSurrogate c).

(** A character that [licensePattern] admits. *)
Definition licenseChar (c : N) : bool :=
  isAlnum c || existsb (N.eqb c) [45; 95; 46]%N || JSString.isWhiteSpace c.

(** A character that cannot end or break a markdown link: a letter, a
    digit or one of [- _ @ / .]. *)
Definition linkSafe (c : N) : bool :=
  BadgeSelector.isAlnum c || existsb (N.eqb c) [45; 95; 64; 47; 46]%N.

(** The templates that embed the identifier as it is. *)
Definition embeddingTemplates : list BadgeSelector.BadgeTemplate :=
  [ BadgeSelector.npmVersionTemplate; BadgeSelector.npmDownloadsTemplate;
    BadgeSelector.githubStarsTemplate; BadgeSelector.githubForksTemplate;
    BadgeSelector.githubIssuesTemplate; BadgeSelector.githubLicenseTemplate ].

(** A character that may stand in the address of a markdown link without
    ending or breaking it: no white space and no parenthesis. *)
Definition addressChar (c : N) : bool :=
  negb (JSString.isWhiteSpace c) && negb (c =? 40)%N && negb (c =? 41)%N.

(** The markdown image [![alt](address)]. *)
Definition image (alt address : jsstring) : jsstring :=
  `"![" ++ alt ++ `"](" ++ address ++ `")".

(** For each embedding type, its alt text and the directory of the badge
    service that it addresses. *)
Definition badgeImages : list (jsstring * jsstring * jsstring) :=
  [ (`"npm-version", `"npm", `"https://img.shields.io/npm/v/");
    (`"npm-downloads", `"npm", `"https://img.shields.io/npm/dm/");
    (`"github-stars", `"GitHub stars", `"https://img.shields.io/github/stars/");
    (`"github-forks", `"GitHub forks", `"https://img.shields.io/github/forks/");
    (`"github-issues", `"GitHub issues", `"https://img.shields.io/github/issues/");
    (`"github-license", `"GitHub license",
     `"https://img.shields.io/github/license/") ].

Definition isDownload (e : ReadmeApp.event) : bool :=
  match e with
  | ReadmeApp.ClickDownload => true
  | _ => false
  end.

Definition isCopy (e : ReadmeApp.event) : bool :=
  match e with
  | ReadmeApp.ClickCopy => true
  | _ => false
  end.

(** What event [e] asks to export when it arrives at [app]: the README of
    the form as it is at that moment, if [e] is a [wanted] click and the
    page has rendered. *)
Definition exported (wanted : ReadmeApp.event -> bool) (e : ReadmeApp.event)
           (app : ReadmeApp.App) : option jsstring :=
  if wanted e then
    match generateReadme (ReadmeApp.fields app) with
    | Normal readme => Some readme
    | Throw _ => None
    end
  else None.

(** The texts that the download clicks of [es] ask for, each the README of
    the form as it is when the click arrives. *)
Fixpoint downloadsOf (es : list ReadmeApp.event) (app : ReadmeApp.App)
  : list jsstring :=
  match es with
  | [] => []
  | e :: more =>
      match exported isDownload e app with
      | Some readme => readme :: downloadsOf more (ReadmeApp.step app e)
      | None => downloadsOf more (ReadmeApp.step app e)
      end
  end.

(** The text that the last copy click of [es] asks for ([copied] when there
    is none). *)
Fixpoint copyOf (es : list ReadmeApp.event) (app : ReadmeApp.App)
         (copied : option jsstring) : option jsstring :=
  match es with
  | [] => copied
  | e :: more =>
      copyOf more (ReadmeApp.step app e)
        match exported isCopy e app with
        | Some readme => Some readme
        | None => copied
        end
  end.

(** A form in which only the features field is filled in. *)
Definition onlyFeatures (text : jsstring) : Fields :=
  {| projectName := []; description := []; installation := []; usage := [];
     features := text; selectedLicenses := []; author := []; contributing := [];
     badges := [] |}.

End FormSpec.

(* ================================================================== *)
(** * Theorems *)

Import DependencyChecker Spec.
Local Open Scope js_scope.
Unset Implicit Arguments.

(** ** Strings *)

Lemma JSString_eqb_eq (a b : jsstring) : JSString.eqb a b = true <-> a = b.
Proof.
  revert b; induction a as [|x a IH]; intros [|y b]; simpl; split; try easy.
  - intros H. apply andb_true_iff in H as [Hx Hab].
    apply N.eqb_eq in Hx. apply IH in Hab. congruence.
  - intros H. injection H as -> ->. rewrite N.eqb_refl. simpl. now apply IH.
Qed.

Lemma JSString_eqb_refl (a : jsstring) : JSString.eqb a a = true.
Proof. now apply JSString_eqb_eq. Qed.

Lemma startsWith_char (v : jsstring) (c : N) :
  JSString.startsWith v [c] = hasPrefixChar c v.
Proof.
  destruct v as [|x v]; [reflexivity|].
  unfold hasPrefixChar. cbn [JSString.startsWith].
  destruct v; apply andb_true_r.
Qed.

(** ** The tally kept by the three loops *)

Lemma countClass_app c l1 l2 :
  countClass c (l1 ++ l2) = countClass c l1 + countClass c l2.
Proof. unfold countClass. now rewrite filter_app, length_app. Qed.

Lemma countEntry_ok ty acc e acc' :
  tallyOk acc -> countEntry ty acc e = Normal acc' -> tallyOk acc'.
Proof.
  unfold tallyOk, countEntry. intros (Hr & Hl & Hs).
  destruct (snd e) as [| | |v| |]; try discriminate.
  change `"^" with [94%N]. change `"~" with [126%N].
  rewrite !startsWith_char.
  destruct (hasPrefixChar 94 v || hasPrefixChar 126 v) eqn:Hp.
  - intros [= <-]; simpl. rewrite !countClass_app. unfold countClass at 2 4 6.
    simpl. unfold versionClass. rewrite Hp. simpl. lia.
  - destruct (JSString.eqb v `"latest") eqn:Hq.
    + intros [= <-]; simpl. rewrite !countClass_app. unfold countClass at 2 4 6.
      simpl. unfold versionClass. rewrite Hp, Hq. simpl. lia.
    + intros [= <-]; simpl. rewrite !countClass_app. unfold countClass at 2 4 6.
      simpl. unfold versionClass. rewrite Hp, Hq. simpl. lia.
Qed.

Lemma forEach_invariant {A S} (P : S -> Prop) (f : S -> A -> completion S) :
  (forall s a s', P s -> f s a = Normal s' -> P s') ->
  forall l s s', P s -> forEach f l s = Normal s' -> P s'.
Proof.
  intros Hf l; induction l as [|a l IH]; simpl; intros s s' Hs H.
  - now injection H as <-.
  - destruct (f s a) as [s1|] eqn:E; simpl in H; [|discriminate].
    eapply IH; [|exact H]. eapply Hf; eauto.
Qed.

Lemma extract_invariant (P : Tally -> Prop) parsed key ty :
  (forall acc e acc', P acc -> countEntry ty acc e = Normal acc' -> P acc') ->
  forall acc acc', P acc -> extract parsed key ty acc = Normal acc' -> P acc'.
Proof.
  intros Hf acc acc' Hacc. unfold extract.
  destruct (getProperty parsed key) as [[sec|]|]; cbn [bind]; try discriminate.
  - destruct (truthy (Some sec)).
    + destruct (Object.entries sec) as [es|]; cbn [bind]; [|discriminate].
      now apply forEach_invariant.
    + now intros [= <-].
  - now intros [= <-].
Qed.

Lemma extract_ok parsed key ty acc acc' :
  tallyOk acc -> extract parsed key ty acc = Normal acc' -> tallyOk acc'.
Proof. apply extract_invariant. intros ? ? ?. apply countEntry_ok. Qed.

(** What a successful run of [analyze] computed. *)
Lemma analyze_inv text ds a :
  analyze text = Normal (ds, a) ->
  exists parsed acc1 acc2 acc3 pn pv,
    JSON.parse text = Normal parsed
    /\ extract parsed `"dependencies" Dependencies
         {| deps := []; specific := 0; range := 0; latest := 0 |} = Normal acc1
    /\ extract parsed `"devDependencies" DevDependencies acc1 = Normal acc2
    /\ extract parsed `"peerDependencies" PeerDependencies acc2 = Normal acc3
    /\ getProperty parsed `"name" = Normal pn
    /\ getProperty parsed `"version" = Normal pv
    /\ ds = deps acc3
    /\ total a = length ds
    /\ specificVersions a = specific acc3
    /\ rangeVersions a = range acc3
    /\ latestVersions a = latest acc3
    /\ issues a =
       fold_left (fun issues dep =>
                    pushIf (JSString.includes deprecatedPackages (name dep))
                           (deprecatedIssue (name dep)) issues)
         ds
         (pushIf (negb (truthy pv)) `"Package version is missing"
            (pushIf (negb (truthy pn)) `"Package name is missing"
               (pushIf (length ds =? 0)%nat `"No dependencies found"
                  (pushIf (0 <? latest acc3)%nat (latestIssue (latest acc3)) [])))).
Proof.
  unfold analyze. intros H.
  destruct (JSON.parse text) as [parsed|]; simpl in H; [|discriminate].
  unfold analyzeParsed in H.
  destruct (extract parsed `"dependencies" _ _) as [acc1|] eqn:E1; simpl in H; [|discriminate].
  destruct (extract parsed `"devDependencies" _ _) as [acc2|] eqn:E2; simpl in H; [|discriminate].
  destruct (extract parsed `"peerDependencies" _ _) as [acc3|] eqn:E3; simpl in H; [|discriminate].
  destruct (getProperty parsed `"name") as [pn|] eqn:En; simpl in H; [|discriminate].
  destruct (getProperty parsed `"version") as [pv|] eqn:Ev; simpl in H; [|discriminate].
  destruct (sectionSize parsed `"dependencies") as [n1|]; simpl in H; [|discriminate].
  destruct (sectionSize parsed `"devDependencies") as [n2|]; simpl in H; [|discriminate].
  destruct (sectionSize parsed `"peerDependencies") as [n3|]; simpl in H; [|discriminate].
  injection H as <- <-.
  exists parsed, acc1, acc2, acc3, pn, pv. simpl. repeat split; assumption.
Qed.

Lemma analyze_tally text ds a :
  analyze text = Normal (ds, a) ->
  rangeVersions a = countClass RangeQualified ds
  /\ latestVersions a = countClass LatestTagged ds
  /\ specificVersions a = countClass Pinned ds.
Proof.
  intros H. apply analyze_inv in H
    as (parsed & acc1 & acc2 & acc3 & pn & pv & _ & E1 & E2 & E3 & _ & _ & -> & _ & Hs & Hr & Hl & _).
  assert (Hok : tallyOk acc3).
  { eapply extract_ok; [|exact E3]. eapply extract_ok; [|exact E2].
    eapply extract_ok; [|exact E1]. repeat split. }
  destruct Hok as (? & ? & ?). repeat split; congruence.
Qed.

Lemma countClass_partition ds :
  countClass Pinned ds + countClass RangeQualified ds + countClass LatestTagged ds
  = length ds.
Proof.
  unfold countClass. induction ds as [|d ds IH]; simpl; [reflexivity|].
  destruct (versionClass (version d)); simpl; lia.
Qed.

(** C1. For every manifest text that [analyze] accepts, the summary
    satisfies specificVersions + rangeVersions + latestVersions = total,
    and total is the length of the returned record list. *)
Theorem analyze_counts_sum (text : jsstring) ds a :
  analyze text = Normal (ds, a) ->
  specificVersions a + rangeVersions a + latestVersions a = total a
  /\ total a = length ds.
Proof.
  intros H. pose proof (analyze_tally _ _ _ H) as (Hr & Hl & Hs).
  apply analyze_inv in H as (? & ? & ? & ? & ? & ? & _ & _ & _ & _ & _ & _ & _ & Ht & _).
  split; [|exact Ht]. rewrite Hr, Hl, Hs, Ht. apply countClass_partition.
Qed.

Lemma manifestExample_analysis :
  analyze manifestExample = Normal (manifestExampleRecords, manifestExampleSummary).
Proof. vm_compute. reflexivity. Qed.

Lemma analyze_counts_sum_witness :
  analyze manifestExample = Normal (manifestExampleRecords, manifestExampleSummary)
  /\ specificVersions manifestExampleSummary + rangeVersions manifestExampleSummary
     + latestVersions manifestExampleSummary = total manifestExampleSummary
  /\ total manifestExampleSummary = length manifestExampleRecords.
Proof.
  split; [exact manifestExample_analysis|].
  exact (analyze_counts_sum manifestExample _ _ manifestExample_analysis).
Defined.

(** ** Version classes *)




(** ** The issue list *)

Lemma fold_pushIf {A} (p : A -> bool) (g : A -> jsstring) l init :
  fold_left (fun issues x => pushIf (p x) (g x) issues) l init
  = init ++ map g (filter p l).
Proof.
  revert init; induction l as [|x l IH]; intros init; simpl.
  - now rewrite app_nil_r.
  - rewrite IH. unfold pushIf. destruct (p x); simpl.
    + now rewrite <- app_assoc.
    + reflexivity.
Qed.

Lemma pushIf_when c issue init : pushIf c issue init = init ++ when c issue.
Proof. unfold pushIf, when. destruct c; [reflexivity | now rewrite app_nil_r]. Qed.

Lemma getProperty_truthy parsed key pv :
  getProperty parsed key = Normal pv -> truthy pv = hasTruthyField parsed key.
Proof.
  destruct parsed; simpl; try discriminate; intros [= <-]; reflexivity.
Qed.

Lemma analyze_issues text ds a parsed :
  JSON.parse text = Normal parsed ->
  analyze text = Normal (ds, a) ->
  issues a = issueList hasTruthyField parsed ds (latestVersions a).
Proof.
  intros Hp H. apply analyze_inv in H
    as (parsed' & acc1 & acc2 & acc3 & pn & pv & Hp' & _ & _ & _ & Hn & Hv & _ & _ & _ & _ & Hl & Hi).
  rewrite Hp in Hp'. injection Hp' as <-.
  rewrite Hi, Hl. unfold issueList.
  rewrite fold_pushIf, !pushIf_when.
  rewrite (getProperty_truthy _ _ _ Hn), (getProperty_truthy _ _ _ Hv).
  simpl. rewrite <- !app_assoc.
  rewrite filter_map_swap. rewrite map_map. reflexivity.
Qed.

(** C4 (as stated) fails: a manifest whose [name] field is present but
    empty still gets the issue "Package name is missing", which the list
    built from the mere presence of the field does not contain. *)
Lemma issues_empty_name_counterexample :
  exists parsed ds a,
    JSON.parse emptyNameExample = Normal parsed
    /\ analyze emptyNameExample = Normal (ds, a)
    /\ hasField parsed `"name" = true
    /\ issues a = [`"Package name is missing"]
    /\ issues a <> issueList hasField parsed ds (latestVersions a).
Proof.
  eexists _, _, _. split; [vm_compute; reflexivity|].
  split; [vm_compute; reflexivity|].
  split; [reflexivity|]. split; [reflexivity|].
  vm_compute. discriminate.
Qed.

(** C4 (amended). The issue list of an accepted analysis is, in this order:
    the latest-version warning when latestVersions > 0; "No dependencies
    found" when the record list is empty; "Package name is missing" when the
    manifest has no truthy [name] field (absent, or null, false, zero or the
    empty string); "Package version is missing" likewise for [version]; then
    one deprecation message per record whose name is request, node-uuid or
    gulp-util, in record order. *)
Theorem issues_in_fixed_order (text : jsstring) parsed ds a :
  JSON.parse text = Normal parsed ->
  analyze text = Normal (ds, a) ->
  issues a =
    when (0 <? latestVersions a)%nat (latestIssue (latestVersions a))
    ++ when (length ds =? 0)%nat `"No dependencies found"
    ++ when (negb (hasTruthyField parsed `"name")) `"Package name is missing"
    ++ when (negb (hasTruthyField parsed `"version")) `"Package version is missing"
    ++ map deprecatedIssue
         (filter (JSString.includes deprecatedPackages) (map name ds)).
Proof.
  intros Hp H. rewrite (analyze_issues text ds a parsed Hp H).
  unfold issueList. reflexivity.
Qed.

Lemma requestExample_analysis :
  analyze requestExample = Normal (requestExampleRecords, requestExampleSummary).
Proof. vm_compute. reflexivity. Qed.

Lemma requestExample_parse :
  JSON.parse requestExample
  = Normal (JObject [(`"dependencies", JObject [(`"request", JString `"1.0.0")])]).
Proof. vm_compute. reflexivity. Qed.

Lemma issues_in_fixed_order_witness :
  analyze requestExample = Normal (requestExampleRecords, requestExampleSummary)
  /\ issues requestExampleSummary =
     [ `"Package name is missing"; `"Package version is missing";
       quoted "request" ++ `" is deprecated and should be replaced" ].
Proof.
  split; [exact requestExample_analysis|].
  rewrite (issues_in_fixed_order requestExample _ _ _
             requestExample_parse requestExample_analysis).
  vm_compute. reflexivity.
Defined.

(** ** When [analyze] throws *)

Lemma forEach_countEntry_result ty es acc :
  if existsb nonString es
  then forEach (countEntry ty) es acc = Throw TypeError
  else exists acc', forEach (countEntry ty) es acc = Normal acc'.
Proof.
  revert acc; induction es as [|[k v] es IH]; intros acc; simpl.
  - eauto.
  - unfold nonString at 1, countEntry at 1 3. simpl snd.
    destruct v; simpl; try reflexivity.
    destruct (_ || _); simpl; [apply IH|].
    destruct (JSString.eqb s `"latest"); simpl; apply IH.
Qed.

Lemma entries_truthy sec :
  truthy (Some sec) = true -> Object.entries sec = Normal (entriesOf sec).
Proof. unfold entriesOf. destruct sec; simpl; try discriminate; reflexivity. Qed.

Lemma extract_result parsed key ty acc :
  parsed <> JNull ->
  if sectionHasNonString parsed key
  then extract parsed key ty acc = Throw TypeError
  else exists acc', extract parsed key ty acc = Normal acc'.
Proof.
  intros Hnn. unfold extract, sectionHasNonString.
  destruct parsed as [| | | | |props]; try contradiction; cbn [getProperty bind]; eauto.
  destruct (Object.lookup key props) as [sec|]; [|eauto].
  destruct (truthy (Some sec)) eqn:Ht; cbn [andb]; [|eauto].
  rewrite (entries_truthy _ Ht). cbn [bind].
  apply forEach_countEntry_result.
Qed.

Lemma sectionSize_total parsed key :
  parsed <> JNull -> exists n, sectionSize parsed key = Normal n.
Proof.
  intros Hnn. unfold sectionSize.
  destruct parsed as [| | | | |props]; try contradiction; cbn [getProperty bind]; eauto.
  destruct (Object.lookup key props) as [sec|]; [|eauto].
  destruct (truthy (Some sec)) eqn:Ht; [|eauto].
  unfold Object.keys. rewrite (entries_truthy _ Ht). cbn [bind]. eauto.
Qed.

Lemma getProperty_total parsed key :
  parsed <> JNull -> exists pv, getProperty parsed key = Normal pv.
Proof. destruct parsed; try contradiction; simpl; eauto. Qed.

Lemma analyzeParsed_result parsed :
  parsed <> JNull ->
  if existsb (sectionHasNonString parsed) sectionKeys
  then analyzeParsed parsed = Throw TypeError
  else exists r, analyzeParsed parsed = Normal r.
Proof.
  intros Hnn. unfold analyzeParsed, sectionKeys, existsb.
  pose proof (extract_result parsed `"dependencies" Dependencies
                {| deps := []; specific := 0; range := 0; latest := 0 |} Hnn) as H1.
  destruct (sectionHasNonString parsed `"dependencies").
  { rewrite H1. reflexivity. }
  destruct H1 as [acc1 ->]. cbn [bind orb].
  pose proof (extract_result parsed `"devDependencies" DevDependencies acc1 Hnn) as H2.
  destruct (sectionHasNonString parsed `"devDependencies").
  { rewrite H2. reflexivity. }
  destruct H2 as [acc2 ->]. cbn [bind orb].
  pose proof (extract_result parsed `"peerDependencies" PeerDependencies acc2 Hnn) as H3.
  destruct (sectionHasNonString parsed `"peerDependencies").
  { rewrite H3. reflexivity. }
  destruct H3 as [acc3 ->]. cbn [bind orb].
  destruct (getProperty_total parsed `"name" Hnn) as [pn ->].
  destruct (getProperty_total parsed `"version" Hnn) as [pv ->].
  destruct (sectionSize_total parsed `"dependencies" Hnn) as [n1 ->].
  destruct (sectionSize_total parsed `"devDependencies" Hnn) as [n2 ->].
  destruct (sectionSize_total parsed `"peerDependencies" Hnn) as [n3 ->].
  cbn [bind]. eauto.
Qed.

(** The outcome of [analyze], by cases on the parsed text. *)
Lemma analyze_result text :
  match JSON.parseText text with
  | None => analyze text = Throw SyntaxError
  | Some JNull => analyze text = Throw TypeError
  | Some parsed =>
      if existsb (sectionHasNonString parsed) sectionKeys
      then analyze text = Throw TypeError
      else exists r, analyze text = Normal r
  end.
Proof.
  unfold analyze, JSON.parse.
  destruct (JSON.parseText text) as [parsed|]; [|reflexivity].
  cbn [bind].
  destruct parsed; try (apply analyzeParsed_result; discriminate).
  reflexivity.
Qed.

(** C2 (as stated) fails: the text [5] parses to a number, which is not an
    object, and yet [analyze] accepts it. *)
Lemma analyze_accepts_number_counterexample :
  ~ (failed (analyze `"5") <->
     (JSON.parseText `"5" = None
      \/ exists v, JSON.parseText `"5" = Some v /\ isObject v = false)).
Proof.
  intros [_ H].
  assert (Hf : failed (analyze `"5")).
  { apply H. right. eexists. split; [vm_compute; reflexivity | reflexivity]. }
  vm_compute in Hf. exact Hf.
Qed.

(** C2 (amended). [analyze] fails exactly when the text is not valid JSON,
    or it parses to [null], or it parses to an object of which a truthy
    dependency section has an entry whose value is not a string.  Every
    other text is accepted, also when its top-level value is a number, a
    string, a boolean or an array. *)
Theorem analyze_fails_iff (text : jsstring) :
  failed (analyze text) <->
  (JSON.parseText text = None
   \/ JSON.parseText text = Some JNull
   \/ exists parsed,
        JSON.parseText text = Some parsed
        /\ existsb (sectionHasNonString parsed) sectionKeys = true).
Proof.
  pose proof (analyze_result text) as H.
  destruct (JSON.parseText text) as [parsed|] eqn:E.
  - assert (Hcase :
      parsed = JNull \/
      (parsed <> JNull /\
       if existsb (sectionHasNonString parsed) sectionKeys
       then analyze text = Throw TypeError
       else exists r, analyze text = Normal r)).
    { destruct parsed; [left; reflexivity | right; split; [discriminate | exact H] ..]. }
    destruct Hcase as [-> | [Hnn Hc]].
    + rewrite H. simpl. split; [auto | trivial].
    + destruct (existsb (sectionHasNonString parsed) sectionKeys) eqn:Eb.
      * rewrite Hc. simpl. split; [|trivial]. intros _. right; right. eauto.
      * destruct Hc as [r ->]. simpl. split; [contradiction|].
        intros [Hc | [Hc | (p' & Hc & Hb)]]; try discriminate.
        -- injection Hc as Hc. contradiction.
        -- injection Hc as Hc. subst p'.
           change (existsb (sectionHasNonString parsed) sectionKeys = true) in Hb.
           congruence.
  - rewrite H. simpl. split; [auto | trivial].
Qed.

(** ** The records and the entries of the manifest *)

Import AnalysisSpec.

Lemma forEach_countEntry_deps ty es : forall acc acc',
  forEach (countEntry ty) es acc = Normal acc' ->
  deps acc' = deps acc ++ map (toRecord ty) es.
Proof.
  induction es as [|[k v] es IH]; intros acc acc'; cbn [forEach map].
  - intros [= <-]. now rewrite app_nil_r.
  - destruct (countEntry ty acc (k, v)) as [acc1|] eqn:E; cbn [bind]; [|discriminate].
    intros H. rewrite (IH _ _ H).
    assert (H1 : deps acc1 = deps acc ++ [toRecord ty (k, v)]).
    { unfold countEntry in E. cbn [snd fst] in E.
      destruct v as [| | |s| |]; try discriminate.
      destruct (_ || _); [now injection E as <-|].
      destruct (JSString.eqb s `"latest"); now injection E as <-. }
    rewrite H1, <- app_assoc. reflexivity.
Qed.

Lemma extract_deps parsed key ty acc acc' :
  extract parsed key ty acc = Normal acc' ->
  deps acc' = deps acc ++ sectionRecords parsed key ty.
Proof.
  unfold extract, sectionRecords, sectionEntries.
  destruct parsed as [| | | | |props]; cbn [getProperty bind]; try discriminate;
    try (intros [= <-]; now rewrite app_nil_r).
  destruct (Object.lookup key props) as [sec|];
    [|intros [= <-]; now rewrite app_nil_r].
  destruct (truthy (Some sec)) eqn:Ht; [|intros [= <-]; now rewrite app_nil_r].
  rewrite (entries_truthy _ Ht). cbn [bind]. apply forEach_countEntry_deps.
Qed.

Lemma forEach_countEntry_strings ty es : forall acc acc',
  forEach (countEntry ty) es acc = Normal acc' ->
  Forall (fun e => isString (snd e) = true) es.
Proof.
  induction es as [|[k v] es IH]; intros acc acc'; cbn [forEach]; [constructor|].
  destruct (countEntry ty acc (k, v)) as [acc1|] eqn:E; cbn [bind]; [|discriminate].
  intros H. constructor; [|exact (IH _ _ H)].
  unfold countEntry in E. cbn [snd] in *. now destruct v.
Qed.

Lemma extract_strings parsed key ty acc acc' :
  extract parsed key ty acc = Normal acc' ->
  Forall (fun e => isString (snd e) = true) (sectionEntries parsed key).
Proof.
  unfold extract, sectionEntries.
  destruct parsed as [| | | | |props]; cbn [getProperty bind]; try discriminate;
    try (intros _; constructor).
  destruct (Object.lookup key props) as [sec|]; [|intros _; constructor].
  destruct (truthy (Some sec)) eqn:Ht; [|intros _; constructor].
  rewrite (entries_truthy _ Ht). cbn [bind]. apply forEach_countEntry_strings.
Qed.





(** ** The error path *)

Lemma analysisCallback_failed text st :
  failed (analyze text) ->
  analysisCallback text st
  = setIsAnalyzing false
      (setAnalysis None
         (setDependencies [] (showToast (ToastError `"Invalid JSON format") st))).
Proof.
  unfold analysisCallback. destruct (analyze text); [contradiction | reflexivity].
Qed.

Lemma failed_analysis_cleared text st :
  failed (analyze text) ->
  cleared (analysisCallback text st)
  /\ cleared (analyzePackageJson text st)
  /\ st_isAnalyzing (analyzePackageJson text st) = false.
Proof.
  intros H. unfold analyzePackageJson.
  rewrite !analysisCallback_failed by exact H.
  repeat split.
Qed.

(** C6. When [analyze] fails, the resulting state holds no records and no
    summary, whatever was shown before; the malformed input [{not json] is
    such a failure. *)
Theorem failure_clears_state (text : jsstring) (st : State) :
  failed (analyze text) ->
  cleared (analysisCallback text st)
  /\ cleared (analyzePackageJson text st)
  /\ st_isAnalyzing (analyzePackageJson text st) = false.
Proof. exact (failed_analysis_cleared text st). Qed.

Lemma malformedExample_fails : analyze malformedExample = Throw SyntaxError.
Proof. vm_compute. reflexivity. Qed.

Lemma failure_clears_state_witness :
  failed (analyze malformedExample)
  /\ st_dependencies staleState <> []
  /\ cleared (analyzePackageJson malformedExample staleState).
Proof.
  assert (H : failed (analyze malformedExample)).
  { rewrite malformedExample_fails. exact I. }
  split; [exact H|]. split; [discriminate|].
  exact (proj1 (proj2 (failure_clears_state malformedExample staleState H))).
Defined.

Lemma existsb_nonString_In entries k v :
  In (k, v) entries -> isString v = false -> existsb nonString entries = true.
Proof.
  intros Hin Hv. apply existsb_exists. exists (k, v). split; [exact Hin|].
  unfold nonString. simpl. now rewrite Hv.
Qed.

(** C10. If a dependency section of a manifest that is a JSON object maps
    some package name to a value that is not a string, [analyze] produces
    no partial result: it throws, the error path is the one malformed JSON
    takes, and the record list and the summary are cleared. *)
Theorem non_string_version_fails (text : jsstring) props key entries k v (st : State) :
  JSON.parse text = Normal (JObject props) ->
  In key sectionKeys ->
  Object.lookup key props = Some (JObject entries) ->
  In (k, v) entries ->
  isString v = false ->
  analyze text = Throw TypeError
  /\ analysisCallback text st = analysisCallback malformedExample st
  /\ cleared (analyzePackageJson text st).
Proof.
  intros Hp Hkey Hsec Hin Hv.
  assert (Hpt : JSON.parseText text = Some (JObject props)).
  { unfold JSON.parse in Hp. destruct (JSON.parseText text); [|discriminate].
    now injection Hp as ->. }
  assert (Hbad : existsb (sectionHasNonString (JObject props)) sectionKeys = true).
  { apply existsb_exists. exists key. split; [exact Hkey|].
    unfold sectionHasNonString. rewrite Hsec. cbn [truthy andb entriesOf Object.entries].
    exact (existsb_nonString_In entries k v Hin Hv). }
  pose proof (analyze_result text) as H. rewrite Hpt, Hbad in H.
  assert (Hf : failed (analyze text)) by (rewrite H; exact I).
  split; [exact H|]. split.
  - rewrite (analysisCallback_failed text st Hf).
    rewrite (analysisCallback_failed malformedExample st); [reflexivity|].
    rewrite malformedExample_fails. exact I.
  - exact (proj1 (proj2 (failed_analysis_cleared text st Hf))).
Qed.

Lemma numericVersionExample_parse :
  JSON.parse numericVersionExample
  = Normal (JObject [(`"dependencies",
                      JObject [(`"react", JNumber (Number.ofDecimal false 18 0))])]).
Proof. vm_compute. reflexivity. Qed.

Lemma non_string_version_fails_witness :
  analyze numericVersionExample = Throw TypeError
  /\ cleared (analyzePackageJson numericVersionExample staleState).
Proof.
  pose proof (non_string_version_fails numericVersionExample _ `"dependencies"
                _ `"react" (JNumber (Number.ofDecimal false 18 0)) staleState
                numericVersionExample_parse
                (or_introl eq_refl) eq_refl (or_introl eq_refl) eq_refl)
    as (H1 & _ & H3).
  exact (conj H1 H3).
Defined.

(** ** JSON texts and the update to latest *)

Import RoundTrip LatestSpec.

(** ** The fuel of the parser *)

Lemma skipWhiteSpace_length s : length (JSON.skipWhiteSpace s) <= length s.
Proof.
  induction s as [|c s IH]; cbn [JSON.skipWhiteSpace length]; [lia|].
  destruct (JSON.isWhiteSpace c); cbn [length]; lia.
Qed.

Lemma skipWhiteSpace_cons s c r :
  JSON.skipWhiteSpace s = c :: r -> length r < length s.
Proof.
  intros H. pose proof (skipWhiteSpace_length s) as L. rewrite H in L.
  cbn [length] in L. lia.
Qed.

Lemma stripPrefix_length p s rest :
  JSON.stripPrefix p s = Some rest -> length s = length p + length rest.
Proof.
  revert s; induction p as [|y p IH]; intros s; cbn [JSON.stripPrefix].
  - now intros [= <-].
  - destruct s as [|x s]; [discriminate|].
    destruct (x =? y)%N; [|discriminate].
    intros H. apply IH in H. cbn [length]. lia.
Qed.

Lemma keyword_length p v s r :
  JSON.keyword p v s = Some r -> length (JSString.lit p) + length (snd r) = length s.
Proof.
  unfold JSON.keyword.
  destruct (JSON.stripPrefix (JSString.lit p) s) as [rest|] eqn:E; [|discriminate].
  intros [= <-]. apply stripPrefix_length in E. cbn [snd]. lia.
Qed.

Lemma consChar_rest c r str rest :
  JSON.consChar c r = Some (str, rest) -> exists str', r = Some (str', rest).
Proof.
  destruct r as [[str' rest']|]; cbn [JSON.consChar]; [|discriminate].
  intros [= _ <-]. eauto.
Qed.

Lemma parseStringBody_length s k rest :
  JSON.parseStringBody s = Some (k, rest) -> length rest < length s.
Proof.
  remember (length s) as n eqn:Hn. assert (Hle : length s <= n) by lia. clear Hn.
  revert s k rest Hle. induction n as [|n IH]; intros s k rest Hle.
  - destruct s; [discriminate | cbn [length] in Hle; lia].
  - destruct s as [|c r]; [discriminate|]. cbn [length] in Hle.
    cbn [JSON.parseStringBody].
    destruct (c =? 34)%N.
    { intros [= _ <-]. cbn [length]. lia. }
    destruct (c =? 92)%N.
    { destruct r as [|e r1]; [discriminate|]. cbn [length] in Hle.
      destruct (e =? 117)%N.
      - destruct r1 as [|h1 [|h2 [|h3 [|h4 r2]]]]; try discriminate.
        cbn [length] in Hle.
        destruct (JSON.hex4 h1 h2 h3 h4); [|discriminate].
        intros H. apply consChar_rest in H as [str' H].
        apply IH in H; [|lia]. cbn [length]. lia.
      - destruct (JSON.simpleEscape e); [|discriminate].
        intros H. apply consChar_rest in H as [str' H].
        apply IH in H; [|lia]. cbn [length]. lia. }
    destruct (c <? 32)%N; [discriminate|].
    intros H. apply consChar_rest in H as [str' H].
    apply IH in H; [|lia]. cbn [length]. lia.
Qed.

Lemma spanDigits_length s :
  length s = length (fst (JSON.spanDigits s)) + length (snd (JSON.spanDigits s)).
Proof.
  induction s as [|c s IH]; cbn [JSON.spanDigits]; [reflexivity|].
  destruct (JSString.isDigit c); [|reflexivity].
  destruct (JSON.spanDigits s) as [ds rest]. cbn [fst snd length] in *. lia.
Qed.

Lemma parseSign_length s : length (snd (JSON.parseSign s)) <= length s.
Proof.
  destruct s as [|c r]; cbn [JSON.parseSign]; [reflexivity|].
  destruct (c =? 45)%N; cbn [snd length]; lia.
Qed.

Lemma parseFraction_length s fr rest :
  JSON.parseFraction s = Some (fr, rest) -> length rest <= length s.
Proof.
  destruct s as [|c r]; cbn [JSON.parseFraction]; [now intros [= _ <-]|].
  destruct (c =? 46)%N; [|now intros [= _ <-]].
  pose proof (spanDigits_length r) as L.
  destruct (JSON.spanDigits r) as [[|d ds] rest']; [discriminate|].
  intros [= _ <-]. cbn [fst snd length] in *. lia.
Qed.

Lemma parseExponent_length s ex rest :
  JSON.parseExponent s = Some (ex, rest) -> length rest <= length s.
Proof.
  destruct s as [|c r]; cbn [JSON.parseExponent]; [now intros [= _ <-]|].
  destruct ((c =? 101)%N || (c =? 69)%N); [|now intros [= _ <-]].
  destruct r as [|c' r''].
  - cbn. discriminate.
  - destruct (c' =? 45)%N.
    + pose proof (spanDigits_length r'') as L.
      destruct (JSON.spanDigits r'') as [[|d ed] rest0]; [discriminate|].
      intros [= _ <-]. cbn [fst snd length] in *. lia.
    + destruct (c' =? 43)%N.
      * pose proof (spanDigits_length r'') as L.
        destruct (JSON.spanDigits r'') as [[|d ed] rest0]; [discriminate|].
        intros [= _ <-]. cbn [fst snd length] in *. lia.
      * pose proof (spanDigits_length (c' :: r'')) as L.
        destruct (JSON.spanDigits (c' :: r'')) as [[|d ed] rest0]; [discriminate|].
        intros [= _ <-]. cbn [fst snd length] in *. lia.
Qed.

Lemma parseNumber_length s x rest :
  JSON.parseNumber s = Some (x, rest) -> length rest < length s.
Proof.
  unfold JSON.parseNumber.
  pose proof (parseSign_length s) as Ls.
  destruct (JSON.parseSign s) as [neg s1]. cbn [snd] in Ls.
  pose proof (spanDigits_length s1) as Ld.
  destruct (JSON.spanDigits s1) as [[|d more] s2]; [discriminate|].
  cbn [fst snd length] in Ld.
  destruct ((d =? 48)%N && negb (length more =? 0)%nat); [discriminate|].
  destruct (JSON.parseFraction s2) as [[frac s3]|] eqn:Ef; [|discriminate].
  destruct (JSON.parseExponent s3) as [[ex s4]|] eqn:Ee; [|discriminate].
  intros [= _ <-].
  apply parseFraction_length in Ef. apply parseExponent_length in Ee. lia.
Qed.

Lemma parse_settled fuel :
  (forall s, settled (fun f => JSON.parseValue f s) s fuel)
  /\ (forall s acc, settled (fun f => JSON.parseElements f s acc) s fuel)
  /\ (forall s acc, settled (fun f => JSON.parseMembers f s acc) s fuel).
Proof.
  induction fuel as [|fuel (IHV & IHE & IHM)].
  { unfold settled. repeat split; intros;
      match goal with H : _ = Some _ |- _ => discriminate H end. }
  split; [|split].
  - (* parseValue *)
    intros s v rest. cbn [JSON.parseValue].
    destruct (JSON.skipWhiteSpace s) as [|c r] eqn:Ews; [discriminate|].
    pose proof (skipWhiteSpace_cons _ _ _ Ews) as Lr.
    destruct (c =? 123)%N eqn:E1.
    { destruct (JSON.skipWhiteSpace r) as [|c' r'] eqn:Ews'; [discriminate|].
      pose proof (skipWhiteSpace_cons _ _ _ Ews') as Lr'.
      destruct (c' =? 125)%N eqn:E2.
      - intros [= <- <-]. split; [lia|]. intros [|f] Hf; [lia|].
        cbn [JSON.parseValue]. now rewrite Ews, E1, Ews', E2.
      - intros H. destruct (IHM _ _ _ _ H) as [L K]. cbn [length] in L, K.
        split; [lia|]. intros [|f] Hf; [lia|].
        cbn [JSON.parseValue]. rewrite Ews, E1, Ews', E2. apply K. lia. }
    destruct (c =? 91)%N eqn:E3.
    { destruct (JSON.skipWhiteSpace r) as [|c' r'] eqn:Ews'; [discriminate|].
      pose proof (skipWhiteSpace_cons _ _ _ Ews') as Lr'.
      destruct (c' =? 93)%N eqn:E2.
      - intros [= <- <-]. split; [lia|]. intros [|f] Hf; [lia|].
        cbn [JSON.parseValue]. now rewrite Ews, E1, E3, Ews', E2.
      - intros H. destruct (IHE _ _ _ _ H) as [L K]. cbn [length] in L, K.
        split; [lia|]. intros [|f] Hf; [lia|].
        cbn [JSON.parseValue]. rewrite Ews, E1, E3, Ews', E2. apply K. lia. }
    assert (Hscalar :
      forall res : option (value * jsstring),
        (forall f, JSON.parseValue (S f) s = res) ->
        (forall v rest, res = Some (v, rest) -> length rest < length s) ->
        res = Some (v, rest) ->
        length rest < length s
        /\ forall fuel', length s - length rest <= fuel' ->
                         JSON.parseValue fuel' s = Some (v, rest)).
    { intros res Hres Hlen H. pose proof (Hlen _ _ H) as L. split; [exact L|].
      intros [|f] Hf; [lia|]. rewrite Hres. exact H. }
    apply Hscalar.
    + intros f. cbn [JSON.parseValue]. rewrite Ews, E1, E3. reflexivity.
    + intros v0 rest0.
      destruct (c =? 34)%N.
      { destruct (JSON.parseStringBody r) as [[str rest']|] eqn:Es; [|discriminate].
        intros [= _ <-]. apply parseStringBody_length in Es. lia. }
      assert (Hk : forall p val, 1 <= length (JSString.lit p) ->
                                 JSON.keyword p val (c :: r) = Some (v0, rest0) ->
                                 length rest0 < length s).
      { intros p val Hp H. apply keyword_length in H. cbn [snd length] in H. lia. }
      destruct (c =? 116)%N; [apply Hk; cbv; lia|].
      destruct (c =? 102)%N; [apply Hk; cbv; lia|].
      destruct (c =? 110)%N; [apply Hk; cbv; lia|].
      destruct (JSON.parseNumber (c :: r)) as [[x rest']|] eqn:En; [|discriminate].
      intros [= _ <-]. apply parseNumber_length in En. cbn [length] in En. lia.
  - (* parseElements *)
    intros s acc v rest. cbn [JSON.parseElements].
    destruct (JSON.parseValue fuel s) as [[v1 r]|] eqn:Ev; [|discriminate].
    destruct (IHV _ _ _ Ev) as [L1 K1].
    destruct (JSON.skipWhiteSpace r) as [|c r'] eqn:Ews; [discriminate|].
    pose proof (skipWhiteSpace_cons _ _ _ Ews) as Lr.
    destruct (c =? 44)%N eqn:E1.
    + intros H. destruct (IHE _ _ _ _ H) as [L2 K2].
      split; [lia|]. intros [|f] Hf; [lia|].
      cbn [JSON.parseElements]. rewrite (K1 f) by lia. rewrite Ews, E1.
      apply K2. lia.
    + destruct (c =? 93)%N eqn:E2; [|discriminate].
      intros [= <- <-]. split; [lia|]. intros [|f] Hf; [lia|].
      cbn [JSON.parseElements]. rewrite (K1 f) by lia. now rewrite Ews, E1, E2.
  - (* parseMembers *)
    intros s acc v rest. cbn [JSON.parseMembers].
    destruct (JSON.skipWhiteSpace s) as [|q r0] eqn:Ews0; [discriminate|].
    pose proof (skipWhiteSpace_cons _ _ _ Ews0) as L0.
    destruct (q =? 34)%N eqn:Eq; [|discriminate].
    destruct (JSON.parseStringBody r0) as [[k r1]|] eqn:Es; [|discriminate].
    pose proof (parseStringBody_length _ _ _ Es) as Ls.
    destruct (JSON.skipWhiteSpace r1) as [|c r2] eqn:Ews1; [discriminate|].
    pose proof (skipWhiteSpace_cons _ _ _ Ews1) as L1.
    destruct (c =? 58)%N eqn:Ec; [|discriminate].
    destruct (JSON.parseValue fuel r2) as [[v1 r3]|] eqn:Ev; [|discriminate].
    destruct (IHV _ _ _ Ev) as [L2 K2].
    destruct (JSON.skipWhiteSpace r3) as [|c' r4] eqn:Ews3; [discriminate|].
    pose proof (skipWhiteSpace_cons _ _ _ Ews3) as L3.
    destruct (c' =? 44)%N eqn:E1.
    + intros H. destruct (IHM _ _ _ _ H) as [L4 K4].
      split; [lia|]. intros [|f] Hf; [lia|].
      cbn [JSON.parseMembers]. rewrite Ews0, Eq, Es, Ews1, Ec.
      rewrite (K2 f) by lia. rewrite Ews3, E1. apply K4. lia.
    + destruct (c' =? 125)%N eqn:E2; [|discriminate].
      intros [= <- <-]. split; [lia|]. intros [|f] Hf; [lia|].
      cbn [JSON.parseMembers]. rewrite Ews0, Eq, Es, Ews1, Ec.
      rewrite (K2 f) by lia. now rewrite Ews3, E1, E2.
Qed.

(** Fuel beyond the length of the text is never used up: whatever some
    amount of fuel reads, the fuel that [JSON.parseText] hands out reads
    as well. *)
Lemma parseValue_fuel fuel text v rest :
  JSON.parseValue fuel text = Some (v, rest) ->
  JSON.parseValue (S (length text)) text = Some (v, rest).
Proof.
  intros H. destruct (proj1 (parse_settled fuel) text v rest H) as [_ K].
  apply K. lia.
Qed.

Lemma parseText_fuel fuel text v rest :
  JSON.parseValue fuel text = Some (v, rest) ->
  JSON.skipWhiteSpace rest = [] ->
  JSON.parseText text = Some v.
Proof.
  intros H Hr. unfold JSON.parseText.
  rewrite (parseValue_fuel fuel text v rest H), Hr. reflexivity.
Qed.

(** ** Decimal digits *)

Lemma digits_aux_acc fuel : forall n acc,
  JSString.digits_aux fuel n acc = JSString.digits_aux fuel n [] ++ acc.
Proof.
  induction fuel as [|fuel IH]; intros n acc; cbn [JSString.digits_aux].
  - reflexivity.
  - destruct (n <? 10)%N; [reflexivity|].
    rewrite (IH _ (_ :: acc)), (IH _ [_]). now rewrite <- app_assoc.
Qed.

Lemma pow2_succ_nat (f : nat) : (2 ^ N.of_nat (S f) = 2 * 2 ^ N.of_nat f)%N.
Proof. rewrite Nat2N.inj_succ. apply N.pow_succ_r'. Qed.

Lemma digits_aux_fuel f1 : forall f2 n acc,
  (n < 2 ^ N.of_nat (S f1))%N -> (n < 2 ^ N.of_nat (S f2))%N ->
  JSString.digits_aux (S f1) n acc = JSString.digits_aux (S f2) n acc.
Proof.
  induction f1 as [|f1 IH]; intros f2 n acc H1 H2.
  - cbn in H1. cbn [JSString.digits_aux].
    destruct (N.ltb_spec n 10); [reflexivity | lia].
  - cbn [JSString.digits_aux]. destruct (N.ltb_spec n 10) as [|Hn]; [reflexivity|].
    destruct f2 as [|f2].
    { cbn in H2. lia. }
    rewrite !pow2_succ_nat in H1, H2.
    assert (Hd : (n / 10 <= n / 2)%N).
    { apply N.div_le_compat_l. lia. }
    assert (Hh1 : (n / 2 < 2 * 2 ^ N.of_nat f1)%N).
    { apply N.Div0.div_lt_upper_bound. lia. }
    assert (Hh2 : (n / 2 < 2 * 2 ^ N.of_nat f2)%N).
    { apply N.Div0.div_lt_upper_bound. lia. }
    apply IH; rewrite pow2_succ_nat; lia.
Qed.

Lemma log2_fuel n : (n < 2 ^ N.of_nat (S (N.to_nat (N.log2 n))))%N.
Proof.
  rewrite Nat2N.inj_succ, N2Nat.id.
  destruct n as [|p]; [cbn; lia|].
  apply N.log2_spec. lia.
Qed.

Lemma digits_small n : (n < 10)%N -> JSString.digits n = [n].
Proof.
  intros H. unfold JSString.digits. cbn [JSString.digits_aux].
  destruct (N.ltb_spec n 10); [|lia]. now rewrite N.mod_small.
Qed.

Lemma digits_step n :
  (10 <= n)%N -> JSString.digits n = JSString.digits (n / 10) ++ [(n mod 10)%N].
Proof.
  intros H. unfold JSString.digits at 1. cbn [JSString.digits_aux].
  destruct (N.ltb_spec n 10); [lia|].
  rewrite digits_aux_acc. f_equal.
  pose proof (log2_fuel n) as Hn. pose proof (log2_fuel (n / 10)) as Hd.
  destruct (N.to_nat (N.log2 n)) as [|f] eqn:Ef.
  { cbn in Hn. lia. }
  unfold JSString.digits. apply digits_aux_fuel; [|exact Hd].
  rewrite pow2_succ_nat in Hn.
  assert ((n / 10 <= n / 2)%N) by (apply N.div_le_compat_l; lia).
  assert ((n / 2 < 2 ^ N.of_nat (S f))%N) by (apply N.Div0.div_lt_upper_bound; lia).
  lia.
Qed.

(** Induction on a number through its decimal digits. *)
Lemma decimal_ind (P : N -> Prop) :
  (forall n, (n < 10)%N -> P n) ->
  (forall n, (10 <= n)%N -> P (n / 10)%N -> P n) ->
  forall n, P n.
Proof.
  intros Hs Hstep n. induction n as [n IH] using (well_founded_induction N.lt_wf_0).
  destruct (N.ltb_spec n 10) as [H|H]; [now apply Hs|].
  apply Hstep; [exact H|]. apply IH. apply N.div_lt; lia.
Qed.

Lemma digits_range n : Forall (fun d => (d < 10)%N) (JSString.digits n).
Proof.
  induction n as [n H | n H IH] using decimal_ind.
  - rewrite digits_small by exact H. now constructor.
  - rewrite digits_step by exact H. apply Forall_app. split; [exact IH|].
    constructor; [|constructor]. apply N.mod_lt. lia.
Qed.

Lemma digits_nonempty n : JSString.digits n <> [].
Proof.
  induction n as [n H | n H IH] using decimal_ind.
  - now rewrite digits_small.
  - rewrite digits_step by exact H. intros E. now apply app_eq_nil in E as [_ E].
Qed.

Lemma digitsValue_acc (ds : jsstring) : forall a,
  fold_left (fun acc c => 10 * acc + (c - 48))%N ds a
  = (a * 10 ^ N.of_nat (length ds) + JSString.digitsValue ds)%N.
Proof.
  unfold JSString.digitsValue.
  induction ds as [|c ds IH]; intros a; cbn [fold_left length].
  - cbn. lia.
  - rewrite IH, (IH (10 * 0 + (c - 48))%N), Nat2N.inj_succ, N.pow_succ_r'. lia.
Qed.

Lemma digitsValue_app (a b : jsstring) :
  JSString.digitsValue (a ++ b)
  = (JSString.digitsValue a * 10 ^ N.of_nat (length b) + JSString.digitsValue b)%N.
Proof.
  unfold JSString.digitsValue at 1. rewrite fold_left_app.
  fold (JSString.digitsValue a). apply digitsValue_acc.
Qed.

Lemma digitsValue_single d : JSString.digitsValue [JSString.digitChar d] = d.
Proof. unfold JSString.digitsValue, JSString.digitChar. cbn [fold_left]. lia. Qed.

Lemma ofN_small n : (n < 10)%N -> JSString.ofN n = [JSString.digitChar n].
Proof. intros H. unfold JSString.ofN. now rewrite digits_small. Qed.

Lemma ofN_step n :
  (10 <= n)%N ->
  JSString.ofN n = JSString.ofN (n / 10) ++ [JSString.digitChar (n mod 10)].
Proof. intros H. unfold JSString.ofN. rewrite digits_step by exact H. apply map_app. Qed.

(** Printing a number and reading the digits back. *)
Lemma digitsValue_ofN n : JSString.digitsValue (JSString.ofN n) = n.
Proof.
  induction n as [n H | n H IH] using decimal_ind.
  - rewrite ofN_small by exact H. apply digitsValue_single.
  - rewrite ofN_step by exact H. rewrite digitsValue_app, IH, digitsValue_single.
    cbn [length]. change (10 ^ N.of_nat 1)%N with 10%N.
    rewrite N.mul_comm. symmetry. apply N.div_mod. lia.
Qed.

Lemma ofN_isDigit n : forallb JSString.isDigit (JSString.ofN n) = true.
Proof.
  apply forallb_forall. intros c Hc. unfold JSString.ofN in Hc.
  apply in_map_iff in Hc as (d & <- & Hd).
  pose proof (digits_range n) as Hr. rewrite Forall_forall in Hr. apply Hr in Hd.
  unfold JSString.isDigit, JSString.digitChar.
  apply andb_true_iff. split; apply N.leb_le; lia.
Qed.

Lemma ofN_nonempty n : JSString.ofN n <> [].
Proof.
  unfold JSString.ofN. intros E. apply map_eq_nil in E. now apply digits_nonempty in E.
Qed.

(** The first digit of a positive number is not zero. *)
Lemma ofN_head n : (0 < n)%N -> exists c rest, JSString.ofN n = c :: rest /\ c <> 48%N.
Proof.
  induction n as [n H | n H IH] using decimal_ind; intros Hpos.
  - rewrite ofN_small by exact H. exists (JSString.digitChar n), [].
    split; [reflexivity|]. unfold JSString.digitChar. lia.
  - rewrite ofN_step by exact H.
    destruct IH as (c & rest & -> & Hc).
    { apply N.div_str_pos. lia. }
    exists c, (rest ++ [JSString.digitChar (n mod 10)]). split; [reflexivity | exact Hc].
Qed.

(** Reading a canonical digit string and printing its value. *)
Lemma ofN_digitsValue_positive (ds : jsstring) : forall c,
  forallb JSString.isDigit (c :: ds) = true -> c <> 48%N ->
  JSString.ofN (JSString.digitsValue (c :: ds)) = c :: ds
  /\ (0 < JSString.digitsValue (c :: ds))%N.
Proof.
  induction ds as [|d ds IH] using rev_ind; intros c Hd Hc.
  - cbn [forallb] in Hd. rewrite andb_true_r in Hd.
    unfold JSString.isDigit in Hd. apply andb_true_iff in Hd as [H1 H2].
    apply N.leb_le in H1, H2.
    assert (Hv : JSString.digitsValue [c] = (c - 48)%N).
    { unfold JSString.digitsValue. cbn [fold_left]. lia. }
    rewrite Hv. split; [|lia]. rewrite ofN_small by lia.
    unfold JSString.digitChar. f_equal. lia.
  - rewrite app_comm_cons in Hd |- *. rewrite forallb_app in Hd.
    apply andb_true_iff in Hd as [Hd1 Hd2].
    destruct (IH c Hd1 Hc) as [IH1 IH2].
    cbn [forallb] in Hd2. rewrite andb_true_r in Hd2.
    unfold JSString.isDigit in Hd2. apply andb_true_iff in Hd2 as [H1 H2].
    apply N.leb_le in H1, H2.
    rewrite digitsValue_app. cbn [length]. change (10 ^ N.of_nat 1)%N with 10%N.
    assert (Hv : JSString.digitsValue [d] = (d - 48)%N).
    { unfold JSString.digitsValue. cbn [fold_left]. lia. }
    rewrite Hv. set (n := JSString.digitsValue (c :: ds)) in *.
    split; [|lia].
    rewrite ofN_step by lia.
    replace ((n * 10 + (d - 48)) / 10)%N with n.
    2: { symmetry. rewrite N.add_comm.
         rewrite N.div_add by lia. rewrite N.div_small by lia. reflexivity. }
    replace ((n * 10 + (d - 48)) mod 10)%N with (d - 48)%N.
    2: { symmetry. rewrite N.add_comm. rewrite N.Div0.mod_add.
         apply N.mod_small. lia. }
    rewrite IH1. unfold JSString.digitChar. do 2 f_equal. lia.
Qed.

(** ** String literals: [QuoteJSONString] and back *)

Lemma hexValue_hexChar d :
  (d < 16)%N -> JSString.hexValue (JSString.hexChar false d) = Some d.
Proof.
  intros H. unfold JSString.hexChar, JSString.hexValue, JSString.isDigit.
  destruct (N.ltb_spec d 10).
  - destruct (N.leb_spec 48 (48 + d)); [|lia].
    destruct (N.leb_spec (48 + d) 57); [|lia]. cbn [andb]. f_equal. lia.
  - destruct (N.leb_spec 48 (87 + d)); [|lia].
    destruct (N.leb_spec (87 + d) 57); [lia|]. cbn [andb].
    destruct (N.leb_spec 65 (87 + d)); [|lia].
    destruct (N.leb_spec (87 + d) 70); [lia|]. cbn [andb].
    destruct (N.leb_spec 97 (87 + d)); [|lia].
    destruct (N.leb_spec (87 + d) 102); [|lia]. cbn [andb]. f_equal. lia.
Qed.

Lemma hex4_unicodeEscape c rest :
  (c < 65536)%N ->
  JSON.parseStringBody (JSON.unicodeEscape c ++ rest)
  = JSON.consChar c (JSON.parseStringBody rest).
Proof.
  intros H. unfold JSON.unicodeEscape. cbn [app JSON.parseStringBody].
  change (92 =? 34)%N with false. change (92 =? 92)%N with true.
  change (117 =? 117)%N with true. cbv iota.
  unfold JSON.hex4.
  rewrite !hexValue_hexChar.
  2-4: apply N.mod_lt; lia.
  2: apply N.Div0.div_lt_upper_bound; lia.
  replace (((c / 4096 * 16 + (c / 256) mod 16) * 16 + (c / 16) mod 16) * 16 + c mod 16)%N
    with c; [reflexivity|].
  pose proof (N.div_mod c 16 ltac:(lia)) as E1.
  pose proof (N.div_mod (c / 16) 16 ltac:(lia)) as E2.
  pose proof (N.div_mod (c / 16 / 16) 16 ltac:(lia)) as E3.
  rewrite !N.Div0.div_div in E2, E3. change (16 * 16)%N with 256%N in E2, E3.
  rewrite !N.Div0.div_div in E3. change (256 * 16)%N with 4096%N in E3.
  lia.
Qed.

Lemma parse_literal_char c rest :
  (32 <= c)%N -> c <> 34%N -> c <> 92%N ->
  JSON.parseStringBody (c :: rest) = JSON.consChar c (JSON.parseStringBody rest).
Proof.
  intros H1 H2 H3. cbn [JSON.parseStringBody].
  destruct (N.eqb_spec c 34); [contradiction|].
  destruct (N.eqb_spec c 92); [contradiction|].
  destruct (N.ltb_spec c 32); [lia | reflexivity].
Qed.

Lemma parse_quoteChar c rest :
  JSString.isHighSurrogate c = false -> JSString.isLowSurrogate c = false ->
  JSON.parseStringBody (JSON.quoteChar c ++ rest)
  = JSON.consChar c (JSON.parseStringBody rest).
Proof.
  intros _ _. unfold JSON.quoteChar.
  destruct (N.eqb_spec c 8) as [->|]; [reflexivity|].
  destruct (N.eqb_spec c 9) as [->|]; [reflexivity|].
  destruct (N.eqb_spec c 10) as [->|]; [reflexivity|].
  destruct (N.eqb_spec c 12) as [->|]; [reflexivity|].
  destruct (N.eqb_spec c 13) as [->|]; [reflexivity|].
  destruct (N.eqb_spec c 34) as [->|]; [reflexivity|].
  destruct (N.eqb_spec c 92) as [->|]; [reflexivity|].
  destruct (N.ltb_spec c 32).
  - apply hex4_unicodeEscape. lia.
  - cbn [app]. now apply parse_literal_char.
Qed.

Lemma surrogate_literal c :
  JSString.isHighSurrogate c = true \/ JSString.isLowSurrogate c = true ->
  (32 <= c)%N /\ c <> 34%N /\ c <> 92%N /\ (c < 65536)%N.
Proof.
  unfold JSString.isHighSurrogate, JSString.isLowSurrogate.
  rewrite !andb_true_iff, !N.leb_le. lia.
Qed.

Lemma parse_quoteBody_len n : forall s rest,
  length s <= n ->
  JSON.parseStringBody (JSON.quoteBody s ++ 34%N :: rest) = Some (s, rest).
Proof.
  induction n as [|n IH]; intros [|c r] rest Hlen; cbn [length] in Hlen; try lia.
  - reflexivity.
  - reflexivity.
  - cbn [JSON.quoteBody].
    assert (IHr := IH r rest ltac:(lia)).
    destruct (JSString.isHighSurrogate c) eqn:Eh.
    + destruct (surrogate_literal c (or_introl Eh)) as (H1 & H2 & H3 & H4).
      destruct r as [|d r'].
      * rewrite hex4_unicodeEscape by exact H4. reflexivity.
      * destruct (JSString.isLowSurrogate d) eqn:El.
        -- destruct (surrogate_literal d (or_intror El)) as (G1 & G2 & G3 & G4).
           cbn [app]. rewrite parse_literal_char by assumption.
           rewrite parse_literal_char by assumption.
           rewrite (IH r' rest ltac:(cbn [length] in Hlen; lia)). reflexivity.
        -- rewrite <- app_assoc, hex4_unicodeEscape by exact H4.
           rewrite IHr. reflexivity.
    + destruct (JSString.isLowSurrogate c) eqn:El.
      * destruct (surrogate_literal c (or_intror El)) as (H1 & H2 & H3 & H4).
        rewrite <- app_assoc, hex4_unicodeEscape by exact H4.
        rewrite IHr. reflexivity.
      * rewrite <- app_assoc, parse_quoteChar by assumption.
        rewrite IHr. reflexivity.
Qed.

(** A quoted string parses back to the string. *)
Lemma parse_quote s rest :
  JSON.parseStringBody (JSON.quoteBody s ++ 34%N :: rest) = Some (s, rest).
Proof. apply (parse_quoteBody_len (length s)). lia. Qed.

Section Rounding.
Local Open Scope Z_scope.

(** ** Rounding to binary64 *)

Lemma pow2_pos k : 0 < 2 ^ k \/ 2 ^ k = 0.
Proof. destruct (Z.le_gt_cases 0 k); [left; now apply Z.pow_pos_nonneg | right; now apply Z.pow_neg_r]. Qed.

(** [2^l * q <= p] with every power moved to a non-negative exponent. *)
Lemma pow2_le_ratio_shift l p q K :
  0 <= K -> 0 <= K + l ->
  Number.pow2_le_ratio l p q = true <-> q * 2 ^ (K + l) <= p * 2 ^ K.
Proof.
  intros HK HKl. unfold Number.pow2_le_ratio. rewrite Z.leb_le.
  destruct (Z.le_gt_cases 0 l) as [Hl|Hl].
  - rewrite (Z.max_l l 0), (Z.max_r (- l) 0) by lia.
    rewrite (Z.pow_add_r 2 K l) by lia. rewrite Z.pow_0_r, Z.mul_1_r.
    assert (H2 : 0 < 2 ^ K) by (apply Z.pow_pos_nonneg; lia).
    replace (q * (2 ^ K * 2 ^ l)) with (q * 2 ^ l * 2 ^ K) by ring.
    apply Z.mul_le_mono_pos_r. exact H2.
  - rewrite (Z.max_r l 0), (Z.max_l (- l) 0) by lia.
    replace (2 ^ K) with (2 ^ (K + l) * 2 ^ (- l))
      by (rewrite <- Z.pow_add_r by lia; f_equal; lia).
    rewrite Z.pow_0_r, Z.mul_1_r.
    assert (H2 : 0 < 2 ^ (K + l)) by (apply Z.pow_pos_nonneg; lia).
    replace (p * (2 ^ (K + l) * 2 ^ (- l))) with (p * 2 ^ (- l) * 2 ^ (K + l)) by ring.
    apply Z.mul_le_mono_pos_r. exact H2.
Qed.

Lemma pow2_le_ratio_antitone l l' p q :
  0 <= q -> l <= l' ->
  Number.pow2_le_ratio l' p q = true -> Number.pow2_le_ratio l p q = true.
Proof.
  intros Hq Hl H.
  set (K := Z.abs l + Z.abs l').
  apply (pow2_le_ratio_shift l' p q K) in H; [|lia|lia].
  apply (pow2_le_ratio_shift l p q K); [lia|lia|].
  assert (2 ^ (K + l) <= 2 ^ (K + l')) by (apply Z.pow_le_mono_r; lia).
  nia.
Qed.

Lemma floor_log2_ratio_spec p q :
  0 < p -> 0 < q ->
  Number.pow2_le_ratio (Number.floor_log2_ratio p q) p q = true
  /\ Number.pow2_le_ratio (Number.floor_log2_ratio p q + 1) p q = false.
Proof.
  intros Hp Hq. unfold Number.floor_log2_ratio.
  set (a := Z.log2 p). set (b := Z.log2 q).
  destruct (Z.log2_spec p Hp) as [Ha1 Ha2]. fold a in Ha1, Ha2.
  destruct (Z.log2_spec q Hq) as [Hb1 Hb2]. fold b in Hb1, Hb2.
  assert (Ha0 : 0 <= a) by apply Z.log2_nonneg.
  assert (Hb0 : 0 <= b) by apply Z.log2_nonneg.
  set (K := a + b + 2).
  destruct (Number.pow2_le_ratio (a - b) p q) eqn:E.
  - split; [exact E|].
    apply not_true_iff_false. intros H.
    apply (pow2_le_ratio_shift _ p q K) in H; [|lia|lia].
    replace (K + (a - b + 1)) with ((Z.succ a) + (K - b)) in H by lia.
    replace K with (b + (K - b)) in H at 2 by lia.
    rewrite !Z.pow_add_r in H by lia.
    assert (HX : 0 < 2 ^ (K - b)) by (apply Z.pow_pos_nonneg; lia).
    assert (HB : 0 < 2 ^ b) by (apply Z.pow_pos_nonneg; lia).
    assert (H3 : p * 2 ^ b < q * 2 ^ Z.succ a) by nia.
    rewrite !Z.mul_assoc in H. apply Z.mul_le_mono_pos_r in H; [lia | exact HX].
  - replace (a - b - 1 + 1) with (a - b) by lia. split; [|exact E].
    apply (pow2_le_ratio_shift _ p q K); [lia|lia|].
    replace (K + (a - b - 1)) with (a + (K - Z.succ b)) by lia.
    replace K with (Z.succ b + (K - Z.succ b)) at 2 by lia.
    rewrite !Z.pow_add_r by lia.
    assert (HX : 0 < 2 ^ (K - Z.succ b)) by (apply Z.pow_pos_nonneg; lia).
    assert (HA : 0 < 2 ^ a) by (apply Z.pow_pos_nonneg; lia).
    assert (H3 : q * 2 ^ a <= p * 2 ^ Z.succ b) by nia.
    rewrite !Z.mul_assoc. apply Z.mul_le_mono_pos_r; [exact HX | exact H3].
Qed.

Lemma floor_log2_ratio_unique p q l :
  0 < q ->
  0 < p ->
  Number.pow2_le_ratio l p q = true ->
  Number.pow2_le_ratio (l + 1) p q = false ->
  Number.floor_log2_ratio p q = l.
Proof.
  intros Hq Hp H1 H2.
  destruct (floor_log2_ratio_spec p q Hp Hq) as [F1 F2].
  set (fl := Number.floor_log2_ratio p q) in *.
  destruct (Z.lt_trichotomy fl l) as [Hlt | [Heq | Hgt]]; [|exact Heq|].
  - assert (Number.pow2_le_ratio (fl + 1) p q = true)
      by (apply (pow2_le_ratio_antitone (fl + 1) l); [lia|lia|exact H1]).
    congruence.
  - assert (Number.pow2_le_ratio (l + 1) p q = true)
      by (apply (pow2_le_ratio_antitone (l + 1) fl); [lia|lia|exact F1]).
    congruence.
Qed.

(** *** The value converted from a decimal is a canonical binary64 *)

Lemma round_half_even_bounds num den :
  num / den <= Number.round_half_even num den <= num / den + 1.
Proof.
  unfold Number.round_half_even.
  destruct (den <? 2 * (num mod den)); [lia|].
  destruct ((2 * (num mod den) =? den) && Z.odd (num / den)); lia.
Qed.

Lemma round_half_even_exact m den :
  0 < den -> Number.round_half_even (m * den) den = m.
Proof.
  intros H. unfold Number.round_half_even.
  rewrite Z.div_mul, Z.mod_mul by lia.
  destruct (Z.ltb_spec den (2 * 0)); [lia|].
  destruct (Z.eqb_spec (2 * 0) den); [lia|]. reflexivity.
Qed.

(** The steps of [ofDecimal], named. *)
Lemma ofDecimal_unfold neg d e10 :
  d <> 0%N ->
  let p := Z.of_N d * 10 ^ Z.max e10 0 in
  let q := 10 ^ Z.max (- e10) 0 in
  let E := Z.max (-1074) (Number.floor_log2_ratio p q - 52) in
  let M := Number.round_half_even (p * 2 ^ Z.max (- E) 0) (q * 2 ^ Z.max E 0) in
  Number.ofDecimal neg d e10
  = if 971 <? (if M =? 2 ^ 53 then E + 1 else E) then Number.Infinity neg
    else if (if M =? 2 ^ 53 then 2 ^ 52 else M) =? 0 then Number.Finite neg 0 0
    else Number.Finite neg (Z.to_N (if M =? 2 ^ 53 then 2 ^ 52 else M))
                       (if M =? 2 ^ 53 then E + 1 else E).
Proof.
  intros Hd. unfold Number.ofDecimal.
  destruct (N.eqb_spec d 0); [contradiction | reflexivity].
Qed.

(** [num < 2^53 * den] and [2^52 * den <= num] as instances of
    [pow2_le_ratio]. *)
Lemma scaled_lt p q E :
  Number.pow2_le_ratio (E + 53) p q = false ->
  p * 2 ^ Z.max (- E) 0 < 2 ^ 53 * (q * 2 ^ Z.max E 0).
Proof.
  intros H. apply Z.nle_gt. intros Hle.
  apply not_true_iff_false in H. apply H.
  apply (pow2_le_ratio_shift _ p q (Z.max (- E) 0)); [lia|lia|].
  replace (Z.max (- E) 0 + (E + 53)) with (Z.max E 0 + 53) by lia.
  rewrite Z.pow_add_r by lia. lia.
Qed.

Lemma scaled_ge p q E :
  Number.pow2_le_ratio (E + 52) p q = true ->
  2 ^ 52 * (q * 2 ^ Z.max E 0) <= p * 2 ^ Z.max (- E) 0.
Proof.
  intros H.
  apply (pow2_le_ratio_shift _ p q (Z.max (- E) 0)) in H; [|lia|lia].
  replace (Z.max (- E) 0 + (E + 52)) with (Z.max E 0 + 52) in H by lia.
  rewrite Z.pow_add_r in H by lia. lia.
Qed.

Lemma ofDecimal_wf neg d e10 : wfNumber (Number.ofDecimal neg d e10).
Proof.
  destruct (N.eq_dec d 0) as [->|Hd].
  { unfold Number.ofDecimal. cbn. left. split; reflexivity. }
  rewrite (ofDecimal_unfold neg d e10 Hd). cbv zeta.
  set (p := Z.of_N d * 10 ^ Z.max e10 0).
  set (q := 10 ^ Z.max (- e10) 0).
  assert (Hp : 0 < p).
  { unfold p. apply Z.mul_pos_pos; [lia|]. apply Z.pow_pos_nonneg; lia. }
  assert (Hq : 0 < q) by (unfold q; apply Z.pow_pos_nonneg; lia).
  destruct (floor_log2_ratio_spec p q Hp Hq) as [F1 F2].
  set (fl := Number.floor_log2_ratio p q) in *.
  set (E := Z.max (-1074) (fl - 52)).
  set (num := p * 2 ^ Z.max (- E) 0).
  set (den := q * 2 ^ Z.max E 0).
  assert (Hden : 0 < den).
  { unfold den. apply Z.mul_pos_pos; [exact Hq|]. apply Z.pow_pos_nonneg; lia. }
  assert (Hnum : 0 <= num).
  { unfold num. apply Z.mul_nonneg_nonneg; [lia|]. apply Z.pow_nonneg. lia. }
  assert (Hlt : num < 2 ^ 53 * den).
  { apply scaled_lt. apply not_true_iff_false. intros H.
    apply (pow2_le_ratio_antitone (fl + 1)) in H; [congruence | lia | unfold E; lia]. }
  assert (Hge : E = fl - 52 -> 2 ^ 52 * den <= num).
  { intros HE. apply scaled_ge. now replace (E + 52) with fl by lia. }
  pose proof (round_half_even_bounds num den) as [HM1 HM2].
  set (M := Number.round_half_even num den) in *.
  assert (Hfloor : 0 <= num / den < 2 ^ 53).
  { split; [apply Z.div_pos; lia|]. apply Z.div_lt_upper_bound; lia. }
  destruct (Z.eqb_spec M (2 ^ 53)) as [HM|HM].
  - destruct (Z.ltb_spec 971 (E + 1)); [exact I|].
    change (2 ^ 52 =? 0) with false. cbv iota.
    right. unfold canonical.
    split; [|split]; [cbn; lia | unfold E in *; lia | right; cbn; lia].
  - destruct (Z.ltb_spec 971 E); [exact I|].
    destruct (Z.eqb_spec M 0) as [HM0|HM0]; [left; split; reflexivity|].
    right. unfold canonical.
    assert (HMr : 0 < M < 2 ^ 53) by lia.
    split; [|split].
    + change (2 ^ 53)%N with (Z.to_N (2 ^ 53)). lia.
    + unfold E in *. lia.
    + destruct (Z.eq_dec E (-1074)) as [HE|HE]; [left; exact HE | right].
      assert (HEfl : E = fl - 52) by (unfold E in *; lia).
      specialize (Hge HEfl).
      assert (2 ^ 52 <= num / den) by (apply Z.div_le_lower_bound; lia).
      change (2 ^ 52)%N with (Z.to_N (2 ^ 52)). lia.
Qed.

(** *** A canonical value is the conversion of its exact decimal expansion *)

Lemma log2_canonical m e :
  canonical m e ->
  Z.max (-1074) (Z.log2 (Z.of_N m) + e - 52) = e.
Proof.
  intros ((Hm1 & Hm2) & He & Hn).
  assert (Hm2' : Z.of_N m < 2 ^ 53).
  { change (2 ^ 53) with (Z.of_N (2 ^ 53)). lia. }
  assert (Hl : Z.log2 (Z.of_N m) < 53).
  { apply Z.log2_lt_pow2; lia. }
  destruct Hn as [-> | Hn]; [lia|].
  assert (Hn' : 2 ^ 52 <= Z.of_N m).
  { change (2 ^ 52) with (Z.of_N (2 ^ 52)). lia. }
  assert (52 <= Z.log2 (Z.of_N m)) by (apply Z.log2_le_pow2; lia).
  lia.
Qed.

Lemma floor_log2_ratio_exact m e p q :
  0 < m -> 0 < q -> p * 2 ^ Z.max (- e) 0 = m * q * 2 ^ Z.max e 0 ->
  Number.floor_log2_ratio p q = Z.log2 m + e.
Proof.
  intros Hm Hq Hpq.
  assert (Hp : 0 < p).
  { assert (0 < 2 ^ Z.max (- e) 0) by (apply Z.pow_pos_nonneg; lia).
    assert (0 < 2 ^ Z.max e 0) by (apply Z.pow_pos_nonneg; lia).
    assert (0 < m * q * 2 ^ Z.max e 0) by (repeat apply Z.mul_pos_pos; lia).
    nia. }
  destruct (Z.log2_spec m Hm) as [Hl1 Hl2].
  assert (Hl0 : 0 <= Z.log2 m) by apply Z.log2_nonneg.
  set (L := Z.log2 m) in *.
  set (K := Z.abs e + Z.abs (L + e) + 1).
  assert (Hk1 : 0 < 2 ^ (K - Z.max (- e) 0)) by (apply Z.pow_pos_nonneg; lia).
  (* p * 2^K = m * q * 2^(K + e) *)
  assert (HpK : p * 2 ^ K = m * q * 2 ^ (K + e)).
  { replace K with (Z.max (- e) 0 + (K - Z.max (- e) 0)) at 1 by lia.
    rewrite Z.pow_add_r by lia. rewrite Z.mul_assoc, Hpq.
    replace (K + e) with (Z.max e 0 + (K - Z.max (- e) 0)) by lia.
    rewrite Z.pow_add_r by lia. ring. }
  assert (HKe : 0 < 2 ^ (K + e)) by (apply Z.pow_pos_nonneg; lia).
  apply floor_log2_ratio_unique; [exact Hq | exact Hp | |].
  - apply (pow2_le_ratio_shift _ p q K); [lia|lia|].
    rewrite HpK. replace (K + (L + e)) with (L + (K + e)) by lia.
    rewrite Z.pow_add_r by lia.
    assert (q * 2 ^ L <= m * q) by nia.
    replace (q * (2 ^ L * 2 ^ (K + e))) with (q * 2 ^ L * 2 ^ (K + e)) by ring.
    apply Z.mul_le_mono_pos_r; assumption.
  - apply not_true_iff_false. intros H.
    apply (pow2_le_ratio_shift _ p q K) in H; [|lia|lia].
    rewrite HpK in H. replace (K + (L + e + 1)) with (Z.succ L + (K + e)) in H by lia.
    rewrite Z.pow_add_r in H by lia.
    assert (m * q < q * 2 ^ Z.succ L) by nia.
    replace (q * (2 ^ Z.succ L * 2 ^ (K + e)))
      with (q * 2 ^ Z.succ L * 2 ^ (K + e)) in H by ring.
    apply Z.mul_le_mono_pos_r in H; [lia | assumption].
Qed.

Lemma ofDecimal_exact neg m e :
  canonical m e ->
  Number.ofDecimal neg (fst (Number.exactDecimal m e)) (snd (Number.exactDecimal m e))
  = Number.Finite neg m e.
Proof.
  intros Hc. pose proof Hc as ((Hm1 & Hm2) & He & Hn).
  assert (Hm2' : Z.of_N m < 2 ^ 53).
  { change (2 ^ 53) with (Z.of_N (2 ^ 53)). lia. }
  set (d := fst (Number.exactDecimal m e)).
  set (e10 := snd (Number.exactDecimal m e)).
  set (p := Z.of_N d * 10 ^ Z.max e10 0).
  set (q := 10 ^ Z.max (- e10) 0).
  assert (Hq : 0 < q) by (unfold q; apply Z.pow_pos_nonneg; lia).
  assert (Hpq : p * 2 ^ Z.max (- e) 0 = Z.of_N m * q * 2 ^ Z.max e 0 /\ d <> 0%N).
  { unfold p, q, d, e10, Number.exactDecimal.
    destruct (Z.leb_spec 0 e) as [H0|H0]; cbn [fst snd].
    - assert (0 < 2 ^ e) by (apply Z.pow_pos_nonneg; lia).
      assert (0 < Z.of_N m * 2 ^ e) by (apply Z.mul_pos_pos; lia).
      split; [|lia].
      rewrite Z2N.id by lia.
      rewrite (Z.max_r (- e) 0), (Z.max_l e 0) by lia.
      cbn [Z.max Z.opp]. change (Z.max 0 0) with 0. rewrite !Z.pow_0_r. ring.
    - assert (0 < 5 ^ (- e)) by (apply Z.pow_pos_nonneg; lia).
      assert (0 < Z.of_N m * 5 ^ (- e)) by (apply Z.mul_pos_pos; lia).
      split; [|lia].
      rewrite Z2N.id by lia.
      rewrite (Z.max_l (- e) 0), (Z.max_r e 0) by lia.
      rewrite !Z.pow_0_r.
      change 10 with (5 * 2). rewrite Z.pow_mul_l. ring. }
  destruct Hpq as [Hpq Hd].
  rewrite (ofDecimal_unfold neg d e10 Hd). cbv zeta. fold p q.
  rewrite (floor_log2_ratio_exact (Z.of_N m) e p q ltac:(lia) Hq Hpq).
  rewrite (log2_canonical m e Hc).
  assert (Hden : 0 < q * 2 ^ Z.max e 0).
  { apply Z.mul_pos_pos; [exact Hq|]. apply Z.pow_pos_nonneg; lia. }
  rewrite Hpq. rewrite <- Z.mul_assoc.
  rewrite round_half_even_exact by exact Hden.
  destruct (Z.eqb_spec (Z.of_N m) (2 ^ 53)); [lia|].
  destruct (Z.ltb_spec 971 e); [lia|].
  destruct (Z.eqb_spec (Z.of_N m) 0); [lia|].
  now rewrite N2Z.id.
Qed.

(** *** The shortest decimal converts back *)

Lemma Number_eqb_eq x y : Number.eqb x y = true -> x = y.
Proof.
  destruct x as [n1 m1 e1|n1], y as [n2 m2 e2|n2]; cbn; try discriminate.
  - rewrite !andb_true_iff. intros [[H1 H2] H3].
    apply eqb_prop in H1. apply N.eqb_eq in H2. apply Z.eqb_eq in H3. congruence.
  - intros H. apply eqb_prop in H. congruence.
Qed.

Lemma candidate_valid m e n0 k c :
  Number.candidate m e n0 k = Some c ->
  Number.ofDecimal false (fst c) (snd c) = Number.Finite false m e.
Proof.
  unfold Number.candidate. cbv zeta.
  repeat match goal with
         | |- context [if Number.eqb ?a ?b then _ else _] =>
             destruct (Number.eqb a b) eqn:?
         end; intros H; try discriminate; injection H as <-;
    now apply Number_eqb_eq.
Qed.

Lemma search_valid m e n0 fuel : forall k c,
  Number.search m e n0 k fuel = Some c ->
  Number.ofDecimal false (fst c) (snd c) = Number.Finite false m e.
Proof.
  induction fuel as [|fuel IH]; intros k c; cbn [Number.search]; [discriminate|].
  destruct (Number.candidate m e n0 k) as [c'|] eqn:E.
  - intros [= <-]. eapply candidate_valid; eassumption.
  - apply IH.
Qed.

Lemma shortest_valid m e :
  canonical m e ->
  Number.ofDecimal false (fst (Number.shortest m e)) (snd (Number.shortest m e))
  = Number.Finite false m e.
Proof.
  intros Hc. unfold Number.shortest.
  destruct (Number.search m e _ 1 17) as [c|] eqn:E.
  - eapply search_valid; eassumption.
  - now apply ofDecimal_exact.
Qed.

Lemma shortest_positive m e :
  canonical m e -> (0 < fst (Number.shortest m e))%N.
Proof.
  intros Hc. pose proof (shortest_valid m e Hc) as H.
  destruct (fst (Number.shortest m e)) eqn:E; [|lia].
  unfold Number.ofDecimal in H. cbn in H. injection H as H _.
  destruct Hc as ((Hm & _) & _). lia.
Qed.

Lemma ofDecimal_sign neg d e10 :
  Number.ofDecimal neg d e10 = withSign neg (Number.ofDecimal false d e10).
Proof.
  unfold Number.ofDecimal. cbv zeta.
  repeat match goal with
         | |- context [if ?c then _ else _] => destruct c
         end; reflexivity.
Qed.

Lemma ofDecimal_scale neg s p :
  0 <= p ->
  Number.ofDecimal neg (s * Z.to_N (10 ^ p)) 0 = Number.ofDecimal neg s p.
Proof.
  intros Hp. assert (H10 : 0 < 10 ^ p) by (apply Z.pow_pos_nonneg; lia).
  destruct (N.eq_dec s 0) as [->|Hs]; [reflexivity|].
  rewrite !ofDecimal_unfold by lia. cbv zeta.
  rewrite N2Z.inj_mul, Z2N.id by lia.
  rewrite (Z.max_l p 0), (Z.max_r (- p) 0) by lia.
  change (Z.max 0 0) with 0. change (Z.max (- 0) 0) with 0.
  rewrite Z.pow_0_r, Z.mul_1_r. reflexivity.
Qed.

End Rounding.

(** ** Number literals *)

Lemma spanDigits_app ds rest :
  forallb JSString.isDigit ds = true -> stops rest ->
  JSON.spanDigits (ds ++ rest) = (ds, rest).
Proof.
  intros Hd Hr. induction ds as [|c ds IH]; cbn [app JSON.spanDigits].
  - destruct rest as [|c r]; [reflexivity|]. cbn in Hr. cbn [JSON.spanDigits].
    now rewrite Hr.
  - cbn [forallb] in Hd. apply andb_true_iff in Hd as [Hc Hd].
    rewrite Hc, (IH Hd). reflexivity.
Qed.

Lemma parseExponent_text ex rest :
  (forall neg ds, ex = Some (neg, ds) -> forallb JSString.isDigit ds = true /\ ds <> []) ->
  ends rest ->
  JSON.parseExponent (expText ex ++ rest) = Some (expValue ex, rest).
Proof.
  intros Hex Hr. destruct ex as [[neg ds]|]; cbn [expText expValue app].
  - destruct (Hex neg ds eq_refl) as [Hd Hne].
    assert (Hstops : stops rest) by (destruct rest; [exact I | apply Hr]).
    unfold JSON.parseExponent. change (101 =? 101)%N with true. cbn [orb].
    destruct neg.
    + change (45 =? 45)%N with true. cbv iota.
      rewrite (spanDigits_app ds rest Hd Hstops).
      destruct ds; [contradiction | reflexivity].
    + change (43 =? 45)%N with false. change (43 =? 43)%N with true. cbv iota.
      rewrite (spanDigits_app ds rest Hd Hstops).
      destruct ds; [contradiction | reflexivity].
  - destruct rest as [|c r]; [reflexivity|].
    destruct Hr as (_ & _ & H1 & H2). unfold JSON.parseExponent.
    destruct (N.eqb_spec c 101); [contradiction|].
    destruct (N.eqb_spec c 69); [contradiction|]. reflexivity.
Qed.

Lemma expText_stops ex rest : ends rest -> stops (expText ex ++ rest).
Proof.
  intros Hr. destruct ex as [[neg ds]|]; cbn; [reflexivity|].
  destruct rest; [exact I | apply Hr].
Qed.

Lemma parseFraction_text frac tail :
  forallb JSString.isDigit frac = true -> stops tail ->
  (match tail with c :: _ => c <> 46%N | [] => True end) ->
  JSON.parseFraction (fracText frac ++ tail) = Some (frac, tail).
Proof.
  intros Hd Hs Hdot. destruct frac as [|c frac]; cbn [fracText app].
  - destruct tail as [|c r]; [reflexivity|]. unfold JSON.parseFraction.
    destruct (N.eqb_spec c 46); [contradiction | reflexivity].
  - unfold JSON.parseFraction. change (46 =? 46)%N with true. cbv iota.
    change (c :: frac ++ tail) with ((c :: frac) ++ tail).
    rewrite (spanDigits_app (c :: frac) tail Hd Hs). reflexivity.
Qed.

Lemma expText_not_dot ex rest :
  ends rest -> match expText ex ++ rest with c :: _ => c <> 46%N | [] => True end.
Proof.
  intros Hr. destruct ex as [[neg ds]|]; cbn; [discriminate|].
  destruct rest; [exact I | apply Hr].
Qed.

(** Reading a number written as sign, integer part, fraction, exponent. *)
Lemma parseNumber_text neg c int frac ex rest :
  forallb JSString.isDigit (c :: int) = true ->
  (c = 48%N -> int = []) ->
  forallb JSString.isDigit frac = true ->
  (forall eneg ds, ex = Some (eneg, ds) ->
                   forallb JSString.isDigit ds = true /\ ds <> []) ->
  ends rest ->
  JSON.parseNumber (signText neg ++ (c :: int) ++ fracText frac ++ expText ex ++ rest)
  = Some (Number.ofDecimal neg (JSString.digitsValue ((c :: int) ++ frac))
            (expValue ex - Z.of_nat (length frac)), rest).
Proof.
  intros Hint Hzero Hfrac Hex Hr. unfold JSON.parseNumber.
  assert (Hc : (c =? 45)%N = false).
  { cbn [forallb] in Hint. apply andb_true_iff in Hint as [Hc _].
    unfold JSString.isDigit in Hc. apply andb_true_iff in Hc as [H1 H2].
    apply N.leb_le in H1, H2. apply N.eqb_neq. lia. }
  assert (Hsign : JSON.parseSign (signText neg ++ (c :: int) ++ fracText frac ++ expText ex ++ rest)
                  = (neg, (c :: int) ++ fracText frac ++ expText ex ++ rest)).
  { destruct neg; cbn [signText app JSON.parseSign]; [reflexivity|]. now rewrite Hc. }
  rewrite Hsign.
  assert (Hstop1 : stops (fracText frac ++ expText ex ++ rest)).
  { destruct frac; cbn [fracText app]; [now apply expText_stops | reflexivity]. }
  rewrite (spanDigits_app (c :: int) _ Hint Hstop1).
  assert (Hlead : ((c =? 48)%N && negb (length int =? 0)%nat) = false).
  { destruct (N.eqb_spec c 48) as [E|E]; [|reflexivity].
    rewrite (Hzero E). reflexivity. }
  rewrite Hlead.
  rewrite (parseFraction_text frac _ Hfrac (expText_stops ex rest Hr)
             (expText_not_dot ex rest Hr)).
  rewrite (parseExponent_text ex rest Hex Hr). reflexivity.
Qed.

(** *** The layout of Number::toString *)

Lemma zeros_length j : length (Number.zeros j) = Z.to_nat j.
Proof. apply repeat_length. Qed.

Lemma zeros_isDigit j : forallb JSString.isDigit (Number.zeros j) = true.
Proof.
  unfold Number.zeros. induction (Z.to_nat j) as [|n IH]; [reflexivity|].
  cbn [repeat forallb]. now rewrite IH.
Qed.

Lemma zeros_value j : JSString.digitsValue (Number.zeros j) = 0%N.
Proof.
  unfold Number.zeros. induction (Z.to_nat j) as [|n IH]; [reflexivity|].
  change (repeat 48%N (S n)) with ([48%N] ++ repeat 48%N n).
  rewrite digitsValue_app, IH. reflexivity.
Qed.

Lemma forallb_firstn {A} (f : A -> bool) n l :
  forallb f l = true -> forallb f (firstn n l) = true.
Proof.
  intros H. rewrite <- (firstn_skipn n l), forallb_app in H.
  now apply andb_true_iff in H as [H _].
Qed.

Lemma forallb_skipn {A} (f : A -> bool) n l :
  forallb f l = true -> forallb f (skipn n l) = true.
Proof.
  intros H. rewrite <- (firstn_skipn n l), forallb_app in H.
  now apply andb_true_iff in H as [_ H].
Qed.

Lemma pow10_N_Z (j : Z) :
  (0 <= j)%Z -> (10 ^ N.of_nat (Z.to_nat j))%N = Z.to_N (10 ^ j).
Proof.
  intros H. apply N2Z.inj. rewrite N2Z.inj_pow, Z2N.id.
  - rewrite nat_N_Z, Z2Nat.id by lia. reflexivity.
  - apply Z.pow_nonneg. lia.
Qed.

(** The exponent suffix of the scientific layouts. *)
Lemma exponent_suffix (e' : Z) :
  let ex := Some ((e' <? 0)%Z, JSString.ofN (Z.to_N (Z.abs e'))) in
  expText ex
  = 101%N :: (if (e' <? 0)%Z then 45%N else 43%N) :: JSString.ofN (Z.to_N (Z.abs e'))
  /\ expValue ex = e'
  /\ (forall eneg ds, ex = Some (eneg, ds) ->
        forallb JSString.isDigit ds = true /\ ds <> []).
Proof.
  cbv zeta. split; [reflexivity|]. split.
  - cbn [expValue]. rewrite digitsValue_ofN, Z2N.id by lia.
    destruct (Z.ltb_spec e' 0); lia.
  - intros eneg ds [= _ <-]. split; [apply ofN_isDigit | apply ofN_nonempty].
Qed.

Lemma layout_parts (s : N) (p : Z) :
  (0 < s)%N ->
  exists c int frac ex,
    Number.layout (JSString.ofN s) (Z.of_nat (length (JSString.ofN s)) + p)
    = (c :: int) ++ fracText frac ++ expText ex
    /\ forallb JSString.isDigit (c :: int) = true
    /\ (c = 48%N -> int = [])
    /\ forallb JSString.isDigit frac = true
    /\ (forall eneg ds, ex = Some (eneg, ds) ->
          forallb JSString.isDigit ds = true /\ ds <> [])
    /\ forall neg,
         Number.ofDecimal neg (JSString.digitsValue ((c :: int) ++ frac))
           (expValue ex - Z.of_nat (length frac))
         = Number.ofDecimal neg s p.
Proof.
  intros Hs.
  destruct (ofN_head s Hs) as (c & more & Hds & Hc).
  pose proof (ofN_isDigit s) as Hdig.
  pose proof (digitsValue_ofN s) as Hval.
  set (ds := JSString.ofN s) in *.
  set (k := Z.of_nat (length ds)).
  assert (Hk : (1 <= k)%Z) by (unfold k; rewrite Hds; cbn [length]; lia).
  set (n := (k + p)%Z).
  unfold Number.layout. fold k.
  destruct ((k <=? n)%Z && (n <=? 21)%Z) eqn:Hcase1.
  { apply andb_true_iff in Hcase1 as [Hcase1 _]. apply Z.leb_le in Hcase1.
    exists c, (more ++ Number.zeros (n - k)), [], None.
    cbn [fracText expText expValue app length].
    rewrite !app_nil_r.
    split; [now rewrite Hds|]. split.
    { change (c :: more ++ Number.zeros (n - k)) with ((c :: more) ++ Number.zeros (n - k)).
      rewrite forallb_app, <- Hds, Hdig. apply zeros_isDigit. }
    split; [intros; contradiction|]. split; [reflexivity|].
    split; [discriminate|]. intros neg.
    change (c :: more ++ Number.zeros (n - k)) with ((c :: more) ++ Number.zeros (n - k)).
    rewrite <- Hds, digitsValue_app, Hval, zeros_value, zeros_length, N.add_0_r.
    replace (n - k)%Z with p by (unfold n; lia).
    rewrite pow10_N_Z by (unfold n in Hcase1; lia).
    change (0 - Z.of_nat 0)%Z with 0%Z.
    apply ofDecimal_scale. unfold n in Hcase1. lia. }
  destruct ((0 <? n)%Z && (n <=? 21)%Z) eqn:Hcase2.
  { apply andb_true_iff in Hcase2 as [Hcase2 Hcase2']. apply Z.ltb_lt in Hcase2.
    apply Z.leb_le in Hcase2'.
    assert (Hnk : (n < k)%Z).
    { apply andb_false_iff in Hcase1 as [Hcase1|Hcase1]; [apply Z.leb_gt in Hcase1; lia|].
      apply Z.leb_gt in Hcase1. lia. }
    assert (Hn : Z.to_nat n = S (Z.to_nat (n - 1))) by lia.
    exists c, (firstn (Z.to_nat (n - 1)) more), (skipn (Z.to_nat n) ds), None.
    assert (Hskip : skipn (Z.to_nat n) ds <> []).
    { intros E. apply (f_equal (@length N)) in E. rewrite length_skipn in E.
      cbn [length] in E. unfold k in Hnk. lia. }
    split.
    { rewrite Hn. rewrite Hds at 1. cbn [firstn expText app].
      rewrite app_nil_r. unfold fracText.
      destruct (skipn (S (Z.to_nat (n - 1))) ds) eqn:E; [|reflexivity].
      rewrite Hn in Hskip. contradiction. }
    split.
    { change (c :: firstn (Z.to_nat (n - 1)) more) with (firstn (S (Z.to_nat (n - 1))) (c :: more)).
      apply forallb_firstn. now rewrite <- Hds. }
    split; [intros; contradiction|].
    split; [now apply forallb_skipn|].
    split; [discriminate|]. intros neg.
    change (c :: firstn (Z.to_nat (n - 1)) more) with (firstn (S (Z.to_nat (n - 1))) (c :: more)).
    rewrite <- Hds, <- Hn, firstn_skipn, Hval. f_equal.
    cbn [expValue]. rewrite length_skipn. unfold n, k in *. lia. }
  destruct ((-6 <? n)%Z && (n <=? 0)%Z) eqn:Hcase3.
  { apply andb_true_iff in Hcase3 as [_ Hcase3]. apply Z.leb_le in Hcase3.
    exists 48%N, [], (Number.zeros (- n) ++ ds), None.
    split.
    { cbn [app expText]. rewrite app_nil_r. unfold fracText.
      destruct (Number.zeros (- n) ++ ds) eqn:E; [|reflexivity].
      apply app_eq_nil in E as [_ E]. rewrite Hds in E. discriminate. }
    split; [reflexivity|]. split; [reflexivity|].
    split; [rewrite forallb_app, zeros_isDigit; exact Hdig|].
    split; [discriminate|]. intros neg.
    assert (Hz : JSString.digitsValue ([48%N] ++ Number.zeros (- n) ++ ds) = s).
    { rewrite !digitsValue_app, zeros_value, Hval.
      change (JSString.digitsValue [48%N]) with 0%N. lia. }
    rewrite Hz. f_equal. cbn [expValue].
    rewrite length_app, zeros_length. unfold n, k in *. lia. }
  destruct (exponent_suffix (n - 1)) as (Hex1 & Hex2 & Hex3).
  rewrite Hds. destruct more as [|d more'].
  - exists c, [], [], (Some ((n - 1 <? 0)%Z, JSString.ofN (Z.to_N (Z.abs (n - 1))))).
    split; [cbn [fracText app]; rewrite Hex1; reflexivity|].
    split; [now rewrite <- Hds|]. split; [reflexivity|]. split; [reflexivity|].
    split; [exact Hex3|]. intros neg.
    rewrite Hex2, app_nil_r, <- Hds, Hval. f_equal.
    unfold n, k. rewrite Hds. cbn [length]. lia.
  - exists c, [], (d :: more'), (Some ((n - 1 <? 0)%Z, JSString.ofN (Z.to_N (Z.abs (n - 1))))).
    split.
    { cbn [fracText app]. rewrite Hex1. reflexivity. }
    split.
    { rewrite Hds in Hdig. cbn [forallb] in Hdig |- *.
      apply andb_true_iff in Hdig as [-> _]. reflexivity. }
    split; [reflexivity|].
    split.
    { rewrite Hds in Hdig. cbn [forallb] in Hdig.
      apply andb_true_iff in Hdig as [_ Hdig]. exact Hdig. }
    split; [exact Hex3|]. intros neg.
    rewrite Hex2. change ([c] ++ d :: more') with (c :: d :: more').
    rewrite <- Hds, Hval. f_equal.
    unfold n, k. rewrite Hds. cbn [length]. lia.
Qed.

(** ** Values that [JSON.parse] builds, and what re-parsing their text gives *)

Lemma value_ind' (P : value -> Prop) :
  P JNull -> (forall b, P (JBool b)) -> (forall x, P (JNumber x)) ->
  (forall s, P (JString s)) ->
  (forall elems, Forall P elems -> P (JArray elems)) ->
  (forall props, Forall (fun kv => P (snd kv)) props -> P (JObject props)) ->
  forall v, P v.
Proof.
  intros Hnull Hbool Hnum Hstr Harr Hobj.
  fix IH 1. intros [| b | x | s | elems | props].
  - exact Hnull.
  - apply Hbool.
  - apply Hnum.
  - apply Hstr.
  - apply Harr. induction elems as [|e elems IHl]; constructor; [apply IH | exact IHl].
  - apply Hobj. induction props as [|kv props IHl]; constructor; [apply IH | exact IHl].
Qed.

Lemma wfValue_array elems : wfValue (JArray elems) <-> Forall wfValue elems.
Proof.
  cbn [wfValue]. induction elems as [|e l IH].
  - split; [constructor | trivial].
  - split.
    + intros [He Hl]. constructor; [exact He | now apply IH].
    + intros H. inversion H; subst. split; [assumption | now apply IH].
Qed.

Lemma wfValue_object props :
  wfValue (JObject props)
  <-> wfKeys (map fst props) /\ Forall (fun kv => wfValue (snd kv)) props.
Proof.
  cbn [wfValue]. apply and_iff_compat_l. induction props as [|kv l IH].
  - split; [constructor | trivial].
  - split.
    + intros [He Hl]. constructor; [exact He | now apply IH].
    + intros H. inversion H; subst. split; [assumption | now apply IH].
Qed.

(** *** Object keys *)

Lemma arrayIndex_ofN k i : Object.arrayIndex k = Some i -> k = JSString.ofN i.
Proof.
  unfold Object.arrayIndex. destruct k as [|c more]; [discriminate|].
  destruct (forallb JSString.isDigit (c :: more)) eqn:Hd; [|discriminate].
  cbn [andb].
  destruct (negb ((c =? 48)%N && negb (length more =? 0)%nat)) eqn:Hz; [|discriminate].
  cbn [andb]. destruct (_ <=? _)%N; [|discriminate]. intros [= <-].
  destruct (N.eqb_spec c 48) as [->|Hc].
  - destruct more as [|d more]; [reflexivity | discriminate].
  - symmetry. now apply ofN_digitsValue_positive.
Qed.

Lemma arrayIndex_inj k1 k2 i :
  Object.arrayIndex k1 = Some i -> Object.arrayIndex k2 = Some i -> k1 = k2.
Proof.
  intros H1 H2. apply arrayIndex_ofN in H1, H2. congruence.
Qed.

Lemma keyBefore_neq k1 k2 : keyBefore k1 k2 -> k1 <> k2.
Proof.
  unfold keyBefore. intros H E. subst k2.
  destruct (Object.arrayIndex k1); [lia | contradiction].
Qed.

Lemma ForallOrdPairs_snoc {A} (R : A -> A -> Prop) l x :
  ForallOrdPairs R (l ++ [x]) <-> ForallOrdPairs R l /\ Forall (fun y => R y x) l.
Proof.
  induction l as [|a l IH]; cbn [app].
  - split; [intros _; split; constructor | intros _; repeat constructor].
  - split.
    + intros H. inversion H as [|? ? Ha Hl]; subst.
      apply IH in Hl as [Hl Hx]. apply Forall_app in Ha as [Ha1 Ha2].
      inversion Ha2; subst. split; constructor; assumption.
    + intros [H Hx]. inversion H as [|? ? Ha Hl]; subst.
      inversion Hx; subst. constructor.
      * apply Forall_app. split; [assumption | repeat constructor; assumption].
      * apply IH. split; assumption.
Qed.

Lemma lookup_none k (props : properties) :
  Forall (fun k' => k' <> k) (map fst props) -> Object.lookup k props = None.
Proof.
  induction props as [|[k' v'] props IH]; cbn [map fst Object.lookup]; [reflexivity|].
  intros H. inversion H as [|? ? Hk Hrest]; subst.
  destruct (JSString.eqb k' k) eqn:E.
  - apply JSString_eqb_eq in E. contradiction.
  - now apply IH.
Qed.

Lemma insertIndex_last i k v (props : properties) :
  Forall (fun k' => exists j, Object.arrayIndex k' = Some j /\ (j < i)%N) (map fst props) ->
  Object.insertIndex i k v props = props ++ [(k, v)].
Proof.
  induction props as [|[k' v'] props IH]; cbn [map fst Object.insertIndex app];
    [reflexivity|].
  intros H. inversion H as [|? ? (j & Hj & Hlt) Hrest]; subst.
  rewrite Hj. destruct (N.ltb_spec j i); [|lia]. now rewrite IH.
Qed.

(** Creating the properties in key order appends them. *)
Lemma set_last k v (acc : properties) :
  wfKeys (map fst (acc ++ [(k, v)])) -> Object.set k v acc = acc ++ [(k, v)].
Proof.
  intros H. rewrite map_app in H. cbn [map fst] in H.
  apply ForallOrdPairs_snoc in H as [_ H].
  unfold Object.set. rewrite lookup_none.
  2: { eapply Forall_impl; [|exact H]. intros k'. apply keyBefore_neq. }
  destruct (Object.arrayIndex k) as [i|] eqn:Ei; [|reflexivity].
  apply insertIndex_last. eapply Forall_impl; [|exact H].
  intros k' Hk. unfold keyBefore in Hk. rewrite Ei in Hk.
  destruct (Object.arrayIndex k') as [j|]; [eauto | contradiction].
Qed.

Lemma fold_set_props (props acc : properties) :
  wfKeys (map fst (acc ++ props)) ->
  fold_left (fun a kv => Object.set (fst kv) (snd kv) a) props acc = acc ++ props.
Proof.
  revert acc. induction props as [|[k v] props IH]; intros acc H; cbn [fold_left].
  - now rewrite app_nil_r.
  - cbn [fst snd].
    replace (acc ++ (k, v) :: props) with ((acc ++ [(k, v)]) ++ props) in *
      by now rewrite <- app_assoc.
    rewrite set_last.
    + now apply IH.
    + rewrite map_app in H. unfold wfKeys in *.
      revert H. generalize (map fst (acc ++ [(k, v)])) as l1. intros l1.
      generalize (map fst props) as l2. intros l2. revert l1.
      induction l2 as [|x l2 IHl] using rev_ind; intros l1 H.
      * now rewrite app_nil_r in H.
      * rewrite app_assoc in H. apply ForallOrdPairs_snoc in H as [H _]. now apply IHl.
Qed.

(** ** Reading back what [JSON.stringify] wrote *)

Lemma skipWhiteSpace_blank ws t :
  blank ws -> JSON.skipWhiteSpace (ws ++ t) = JSON.skipWhiteSpace t.
Proof.
  unfold blank. induction ws as [|c ws IH]; cbn [app forallb JSON.skipWhiteSpace];
    [reflexivity|].
  intros H. apply andb_true_iff in H as [-> H]. now apply IH.
Qed.

Lemma skipWhiteSpace_starts t : starts t -> JSON.skipWhiteSpace t = t.
Proof. destruct t as [|c t]; [contradiction|]. intros (H & _). cbn. now rewrite H. Qed.

Lemma parseValue_blank fuel ws t :
  blank ws -> JSON.parseValue fuel (ws ++ t) = JSON.parseValue fuel t.
Proof.
  intros H. destruct fuel; [reflexivity|]. cbn [JSON.parseValue].
  now rewrite skipWhiteSpace_blank.
Qed.

Lemma parseElements_blank fuel ws t acc :
  blank ws -> JSON.parseElements fuel (ws ++ t) acc = JSON.parseElements fuel t acc.
Proof.
  intros H. destruct fuel; [reflexivity|]. cbn [JSON.parseElements].
  now rewrite parseValue_blank.
Qed.

Lemma parseMembers_blank fuel ws t acc :
  blank ws -> JSON.parseMembers fuel (ws ++ t) acc = JSON.parseMembers fuel t acc.
Proof.
  intros H. destruct fuel; [reflexivity|]. cbn [JSON.parseMembers].
  now rewrite skipWhiteSpace_blank.
Qed.

Lemma blank_app a b : blank a -> blank b -> blank (a ++ b).
Proof. unfold blank. intros Ha Hb. now rewrite forallb_app, Ha, Hb. Qed.

Lemma blank_gap : blank JSON.gap.
Proof. reflexivity. Qed.

Lemma parseValue_string fuel t :
  JSON.parseValue (S fuel) (34%N :: t)
  = match JSON.parseStringBody t with
    | Some (str, rest) => Some (JString str, rest)
    | None => None
    end.
Proof. reflexivity. Qed.

Lemma parseValue_number fuel c t :
  JSString.isDigit c = true \/ c = 45%N ->
  JSON.parseValue (S fuel) (c :: t)
  = match JSON.parseNumber (c :: t) with
    | Some (x, rest) => Some (JNumber x, rest)
    | None => None
    end.
Proof.
  intros [H | ->]; [|reflexivity].
  unfold JSString.isDigit in H. apply andb_true_iff in H as [H1 H2].
  apply N.leb_le in H1, H2.
  assert (Hws : JSON.isWhiteSpace c = false).
  { unfold JSON.isWhiteSpace.
    repeat match goal with
           | |- context [(c =? ?n)%N] => destruct (N.eqb_spec c n); [lia|]
           end.
    reflexivity. }
  cbn [JSON.parseValue JSON.skipWhiteSpace]. rewrite Hws.
  repeat match goal with
         | |- context [(c =? ?n)%N] => destruct (N.eqb_spec c n); [lia|]
         end.
  reflexivity.
Qed.

Lemma parseValue_array fuel ws t :
  blank ws -> starts t ->
  JSON.parseValue (S fuel) (91%N :: ws ++ t) = JSON.parseElements fuel t [].
Proof.
  intros Hws Ht. cbn [JSON.parseValue JSON.skipWhiteSpace].
  change (JSON.isWhiteSpace 91) with false. cbv iota.
  change (91 =? 123)%N with false. change (91 =? 91)%N with true. cbv iota.
  rewrite skipWhiteSpace_blank, skipWhiteSpace_starts by assumption.
  destruct t as [|c t]; [contradiction|]. destruct Ht as (_ & H & _).
  destruct (N.eqb_spec c 93); [contradiction | reflexivity].
Qed.

Lemma parseValue_object fuel ws t :
  blank ws -> starts t ->
  JSON.parseValue (S fuel) (123%N :: ws ++ t) = JSON.parseMembers fuel t [].
Proof.
  intros Hws Ht. cbn [JSON.parseValue JSON.skipWhiteSpace].
  change (JSON.isWhiteSpace 123) with false. cbv iota.
  change (123 =? 123)%N with true. cbv iota.
  rewrite skipWhiteSpace_blank, skipWhiteSpace_starts by assumption.
  destruct t as [|c t]; [contradiction|]. destruct Ht as (_ & _ & H).
  destruct (N.eqb_spec c 125); [contradiction | reflexivity].
Qed.

(** *** Numbers *)

Lemma toString_canonical neg m e :
  canonical m e ->
  Number.toString (Number.Finite neg m e)
  = signText neg
    ++ Number.layout (JSString.ofN (fst (Number.shortest m e)))
         (Z.of_nat (length (JSString.ofN (fst (Number.shortest m e))))
          + snd (Number.shortest m e)).
Proof.
  intros ((Hm & _) & _). unfold Number.toString.
  destruct m as [|pm]; [lia|].
  destruct (Number.shortest (N.pos pm) e) as [s p]. destruct neg; reflexivity.
Qed.

Lemma parseNumber_toString x rest :
  wfNumber x -> Number.isFinite x = true -> ends rest ->
  exists c t x',
    Number.toString x = c :: t
    /\ (JSString.isDigit c = true \/ c = 45%N)
    /\ JSON.parseNumber (Number.toString x ++ rest) = Some (x', rest)
    /\ JNumber x' = normNumber x.
Proof.
  intros Hwf Hfin Hr. destruct x as [neg m e|neg]; [|discriminate].
  destruct Hwf as [[-> ->] | Hc].
  - exists 48%N, [], (Number.Finite false 0 0).
    split; [reflexivity|]. split; [left; reflexivity|]. split; [|reflexivity].
    change (Number.toString (Number.Finite neg 0 0) ++ rest)
      with (signText false ++ [48%N] ++ fracText [] ++ expText None ++ rest).
    rewrite parseNumber_text; try reflexivity; try assumption.
    discriminate.
  - pose proof (shortest_valid m e Hc) as Hv.
    pose proof (shortest_positive m e Hc) as Hs.
    rewrite (toString_canonical neg m e Hc).
    destruct (layout_parts _ (snd (Number.shortest m e)) Hs)
      as (c & int & frac & ex & Hlay & Hint & Hzero & Hfrac & Hex & Hval).
    rewrite Hlay.
    assert (Hcd : JSString.isDigit c = true).
    { cbn [forallb] in Hint. now apply andb_true_iff in Hint as [Hcd _]. }
    exists (if neg then 45%N else c),
           (if neg then (c :: int) ++ fracText frac ++ expText ex
            else int ++ fracText frac ++ expText ex),
           (Number.Finite neg m e).
    split; [destruct neg; reflexivity|].
    split; [destruct neg; [right; reflexivity | left; exact Hcd]|].
    split.
    + rewrite <- !app_assoc.
      rewrite (parseNumber_text neg c int frac ex rest Hint Hzero Hfrac Hex Hr).
      rewrite Hval, ofDecimal_sign, Hv. reflexivity.
    + destruct Hc as ((Hm & _) & _). destruct m; [lia | reflexivity].
Qed.

(** *** Values *)

Lemma ends_newline t : ends (10%N :: t).
Proof. cbn. repeat split; discriminate. Qed.

Lemma ends_comma t : ends (44%N :: t).
Proof. cbn. repeat split; discriminate. Qed.

Lemma serialize_array indent elems :
  JSON.serialize indent (JArray elems)
  = JSON.block 91 93 indent (map (JSON.serialize (indent ++ JSON.gap)) elems).
Proof. reflexivity. Qed.

Lemma serialize_object indent props :
  JSON.serialize indent (JObject props)
  = JSON.block 123 125 indent
      (map (fun kv => JSON.quote (fst kv) ++ [58; 32]%N
                      ++ JSON.serialize (indent ++ JSON.gap) (snd kv)) props).
Proof. reflexivity. Qed.

Lemma block_cons open close indent part parts rest :
  JSON.block open close indent (part :: parts) ++ rest
  = open :: (10%N :: indent ++ JSON.gap)
      ++ (JSON.join (44%N :: 10%N :: indent ++ JSON.gap) (part :: parts)
          ++ 10%N :: indent ++ close :: rest).
Proof.
  unfold JSON.block. cbn [app]. rewrite <- !app_assoc. cbn [app].
  rewrite <- !app_assoc. reflexivity.
Qed.

(** The text of a well-formed value starts with a character of a value. *)
Lemma serialize_starts indent v rest :
  wfValue v -> starts (JSON.serialize indent v ++ rest).
Proof.
  intros Hwf. destruct v as [| [|] | x | s | elems | props].
  - cbn. repeat split; discriminate.
  - cbn. repeat split; discriminate.
  - cbn. repeat split; discriminate.
  - cbn [JSON.serialize]. destruct (Number.isFinite x) eqn:Hf.
    + destruct (parseNumber_toString x [] Hwf Hf I) as (c & t & x' & -> & Hc & _).
      cbn [app starts]. destruct Hc as [Hc | ->]; [|repeat split; discriminate].
      unfold JSString.isDigit in Hc. apply andb_true_iff in Hc as [H1 H2].
      apply N.leb_le in H1, H2. unfold JSON.isWhiteSpace.
      repeat match goal with
             | |- context [(c =? ?n)%N] => destruct (N.eqb_spec c n); [lia|]
             end.
      repeat split; lia.
    + cbn. repeat split; discriminate.
  - cbn. repeat split; discriminate.
  - rewrite serialize_array. destruct elems; cbn; repeat split; discriminate.
  - rewrite serialize_object. destruct props; cbn; repeat split; discriminate.
Qed.

Lemma parseElements_join indent indent' rest :
  blank indent -> blank indent' ->
  forall elems acc fuel,
    elems <> [] ->
    Forall roundTrips elems -> Forall wfValue elems ->
    fold_right (fun e n => S (size e) + n) 0 elems <= fuel ->
    JSON.parseElements fuel
      (JSON.join (44%N :: 10%N :: indent') (map (JSON.serialize indent') elems)
       ++ 10%N :: indent ++ 93%N :: rest) acc
    = Some (JArray (acc ++ map norm elems), rest).
Proof.
  intros Hi Hi'. induction elems as [|e elems IH]; intros acc fuel Hne HP Hwf Hfuel;
    [contradiction|].
  inversion HP as [|? ? He HPl]; subst. inversion Hwf as [|? ? Hwe Hwl]; subst.
  cbn [fold_right] in Hfuel. destruct fuel as [|fuel]; [lia|].
  cbn [JSON.parseElements map].
  destruct elems as [|e2 elems].
  - cbn [JSON.join map].
    rewrite (He indent' _ fuel Hwe ltac:(cbn [fold_right] in Hfuel; lia) Hi'
               (ends_newline _)).
    change (10%N :: indent ++ 93%N :: rest) with ((10%N :: indent) ++ 93%N :: rest).
    rewrite skipWhiteSpace_blank by (unfold blank; cbn [forallb]; exact Hi).
    reflexivity.
  - change (JSON.join (44%N :: 10%N :: indent')
              (JSON.serialize indent' e :: map (JSON.serialize indent') (e2 :: elems)))
      with (JSON.serialize indent' e ++ (44%N :: 10%N :: indent')
            ++ JSON.join (44%N :: 10%N :: indent')
                 (map (JSON.serialize indent') (e2 :: elems))).
    rewrite <- !app_assoc. cbn [app].
    rewrite (He indent' _ fuel Hwe ltac:(lia) Hi' (ends_comma _)).
    cbn [JSON.skipWhiteSpace]. change (JSON.isWhiteSpace 44) with false. cbv iota.
    change (44 =? 44)%N with true. cbv iota.
    change (10%N :: indent' ++ ?t) with ((10%N :: indent') ++ t).
    rewrite parseElements_blank by (unfold blank; cbn [forallb]; exact Hi').
    rewrite (IH (acc ++ [norm e]) fuel ltac:(discriminate) HPl Hwl ltac:(lia)).
    rewrite <- app_assoc. reflexivity.
Qed.

Lemma parseMembers_member fuel indent' k v tail acc :
  roundTrips v -> wfValue v -> size v <= fuel -> blank indent' -> ends tail ->
  JSON.parseMembers (S fuel) (memberText indent' (k, v) ++ tail) acc
  = match JSON.skipWhiteSpace tail with
    | [] => None
    | c' :: r4 =>
        if (c' =? 44)%N then JSON.parseMembers fuel r4 (Object.set k (norm v) acc)
        else if (c' =? 125)%N then Some (JObject (Object.set k (norm v) acc), r4)
        else None
    end.
Proof.
  intros Hv Hwf Hfuel Hi Ht. unfold memberText, JSON.quote. cbn [fst snd].
  rewrite <- !app_assoc. cbn [app JSON.parseMembers JSON.skipWhiteSpace].
  change (JSON.isWhiteSpace 34) with false. cbv iota.
  change (34 =? 34)%N with true. cbv iota.
  rewrite parse_quote.
  cbn [JSON.skipWhiteSpace]. change (JSON.isWhiteSpace 58) with false. cbv iota.
  change (58 =? 58)%N with true. cbv iota.
  change (32%N :: JSON.serialize indent' v ++ tail)
    with ([32%N] ++ JSON.serialize indent' v ++ tail).
  rewrite parseValue_blank by reflexivity.
  rewrite (Hv indent' tail fuel Hwf Hfuel Hi Ht). reflexivity.
Qed.

Lemma parseMembers_join indent indent' rest :
  blank indent -> blank indent' ->
  forall props acc fuel,
    props <> [] ->
    Forall (fun kv => roundTrips (snd kv)) props ->
    Forall (fun kv => wfValue (snd kv)) props ->
    fold_right (fun kv n => S (size (snd kv)) + n) 0 props <= fuel ->
    JSON.parseMembers fuel
      (JSON.join (44%N :: 10%N :: indent') (map (memberText indent') props)
       ++ 10%N :: indent ++ 125%N :: rest) acc
    = Some (JObject (fold_left (fun a kv => Object.set (fst kv) (snd kv) a)
                       (map normProp props) acc), rest).
Proof.
  intros Hi Hi'. induction props as [|[k v] props IH]; intros acc fuel Hne HP Hwf Hfuel;
    [contradiction|].
  inversion HP as [|? ? He HPl]; subst. inversion Hwf as [|? ? Hwe Hwl]; subst.
  cbn [snd] in He, Hwe. cbn [fold_right snd] in Hfuel.
  destruct fuel as [|fuel]; [lia|].
  cbn [map fold_left normProp fst snd].
  destruct props as [|kv2 props].
  - cbn [JSON.join map].
    rewrite (parseMembers_member fuel indent' k v _ acc He Hwe
               ltac:(cbn [fold_right] in Hfuel; lia) Hi' (ends_newline _)).
    change (10%N :: indent ++ 125%N :: rest) with ((10%N :: indent) ++ 125%N :: rest).
    rewrite skipWhiteSpace_blank by (unfold blank; cbn [forallb]; exact Hi).
    reflexivity.
  - change (JSON.join (44%N :: 10%N :: indent')
              (memberText indent' (k, v) :: map (memberText indent') (kv2 :: props)))
      with (memberText indent' (k, v) ++ (44%N :: 10%N :: indent')
            ++ JSON.join (44%N :: 10%N :: indent')
                 (map (memberText indent') (kv2 :: props))).
    rewrite <- !app_assoc. cbn [app].
    rewrite (parseMembers_member fuel indent' k v _ acc He Hwe ltac:(lia) Hi'
               (ends_comma _)).
    cbn [app JSON.skipWhiteSpace]. change (JSON.isWhiteSpace 44) with false. cbv iota.
    change (44 =? 44)%N with true. cbv iota.
    change (10%N :: indent' ++ ?t) with ((10%N :: indent') ++ t).
    rewrite parseMembers_blank by (unfold blank; cbn [forallb]; exact Hi').
    rewrite (IH (Object.set k (norm v) acc) fuel ltac:(discriminate) HPl Hwl ltac:(lia)).
    reflexivity.
Qed.

Lemma norm_keys props : map fst (map normProp props) = map fst props.
Proof. rewrite map_map. reflexivity. Qed.

(** Every well-formed value is read back, normalised, from its text. *)
Lemma parse_serialize v : roundTrips v.
Proof.
  induction v as [| b | x | s | elems IH | props IH] using value_ind';
    intros indent rest fuel Hwf Hfuel Hi Hr;
    (destruct fuel as [|fuel]; [cbn [size] in Hfuel; lia|]).
  - reflexivity.
  - destruct b; reflexivity.
  - cbn [JSON.serialize norm]. destruct (Number.isFinite x) eqn:Hf.
    + destruct (parseNumber_toString x rest Hwf Hf Hr) as (c & t & x' & Hts & Hc & Hp & Hn).
      rewrite <- Hn. rewrite Hts in Hp |- *. cbn [app] in Hp |- *.
      rewrite (parseValue_number fuel c _ Hc), Hp. reflexivity.
    + destruct x; [discriminate | reflexivity].
  - cbn [JSON.serialize norm]. unfold JSON.quote. rewrite <- !app_assoc.
    cbn [app]. rewrite parseValue_string, parse_quote. reflexivity.
  - rewrite serialize_array. cbn [norm].
    destruct elems as [|e elems]; [reflexivity|].
    apply wfValue_array in Hwf.
    rewrite map_cons, block_cons.
    rewrite parseValue_array.
    + rewrite <- map_cons.
      rewrite (parseElements_join indent (indent ++ JSON.gap) rest Hi
                 (blank_app _ _ Hi blank_gap) (e :: elems) [] fuel
                 ltac:(discriminate) IH Hwf ltac:(cbn [size] in Hfuel; lia)).
      reflexivity.
    + unfold blank. cbn [forallb]. apply (blank_app _ _ Hi blank_gap).
    + cbn [map JSON.join]. destruct (map _ elems).
      * apply serialize_starts. now inversion Hwf.
      * rewrite <- app_assoc. apply serialize_starts. now inversion Hwf.
  - rewrite serialize_object. cbn [norm].
    destruct props as [|kv props]; [reflexivity|].
    apply wfValue_object in Hwf as [Hkeys Hwf].
    change (fun kv0 : jsstring * value =>
              JSON.quote (fst kv0) ++ [58; 32]%N
              ++ JSON.serialize (indent ++ JSON.gap) (snd kv0))
      with (memberText (indent ++ JSON.gap)).
    rewrite map_cons, block_cons.
    rewrite parseValue_object.
    + rewrite <- map_cons.
      etransitivity.
      { apply (parseMembers_join indent (indent ++ JSON.gap) rest Hi
                 (blank_app _ _ Hi blank_gap) (kv :: props) [] fuel
                 ltac:(discriminate) IH Hwf ltac:(cbn [size] in Hfuel; lia)). }
      rewrite fold_set_props; [reflexivity|].
      cbn [app]. now rewrite norm_keys.
    + unfold blank. cbn [forallb]. apply (blank_app _ _ Hi blank_gap).
    + cbn [map JSON.join]. destruct (map _ props); cbn; repeat split; discriminate.
Qed.

(** *** The text is long enough to pay for its parse *)

Lemma join_length sep parts :
  1 <= length sep -> parts <> [] ->
  fold_right (fun p n => S (length p) + n) 0 parts <= S (length (JSON.join sep parts)).
Proof.
  intros Hsep. induction parts as [|p parts IH]; intros Hne; [contradiction|].
  destruct parts as [|p2 parts].
  - cbn [fold_right JSON.join]. lia.
  - change (JSON.join sep (p :: p2 :: parts)) with (p ++ sep ++ JSON.join sep (p2 :: parts)).
    cbn [fold_right] in IH |- *. rewrite !length_app.
    specialize (IH ltac:(discriminate)). lia.
Qed.

Lemma block_length open close indent parts :
  parts <> [] ->
  S (S (fold_right (fun p n => S (length p) + n) 0 parts))
  <= length (JSON.block open close indent parts).
Proof.
  intros Hne. unfold JSON.block. destruct parts as [|p parts]; [contradiction|].
  pose proof (join_length ([44; 10]%N ++ (indent ++ JSON.gap)) (p :: parts)
                ltac:(cbn; lia) Hne) as H.
  cbn [fold_right] in H |- *. rewrite !length_app. cbn [length] in *. lia.
Qed.

Lemma fold_right_le {A} (f g : A -> nat) l :
  Forall (fun x => f x <= g x) l ->
  fold_right (fun x n => S (f x) + n) 0 l <= fold_right (fun x n => S (g x) + n) 0 l.
Proof. induction 1; cbn [fold_right]; lia. Qed.

Lemma size_le_length v : forall indent,
  wfValue v -> size v <= length (JSON.serialize indent v).
Proof.
  induction v as [| b | x | s | elems IH | props IH] using value_ind';
    intros indent Hwf.
  - cbn. lia.
  - destruct b; cbn; lia.
  - pose proof (serialize_starts indent (JNumber x) [] Hwf) as H.
    rewrite app_nil_r in H. destruct (JSON.serialize indent (JNumber x));
      [contradiction | cbn; lia].
  - cbn [JSON.serialize size]. unfold JSON.quote. rewrite !length_app. cbn. lia.
  - rewrite serialize_array. cbn [size].
    destruct elems as [|e elems]; [cbn; lia|].
    apply wfValue_array in Hwf.
    etransitivity; [|apply block_length; discriminate].
    rewrite <- Nat.succ_le_mono. apply Nat.le_le_succ_r.
    generalize dependent (e :: elems). intros l IHl Hwl.
    induction l as [|a l IHrec]; [cbn; lia|].
    inversion IHl; subst. inversion Hwl; subst.
    cbn [map fold_right]. specialize (IHrec ltac:(assumption) ltac:(assumption)).
    match goal with H : forall indent, wfValue a -> _ |- _ =>
      specialize (H (indent ++ JSON.gap) ltac:(assumption)) end.
    lia.
  - rewrite serialize_object. cbn [size].
    destruct props as [|kv props]; [cbn; lia|].
    apply wfValue_object in Hwf as [_ Hwf].
    etransitivity; [|apply block_length; discriminate].
    rewrite <- Nat.succ_le_mono. apply Nat.le_le_succ_r.
    generalize dependent (kv :: props). intros l IHl Hwl.
    induction l as [|a l IHrec]; [cbn; lia|].
    inversion IHl; subst. inversion Hwl; subst.
    cbn [map fold_right]. specialize (IHrec ltac:(assumption) ltac:(assumption)).
    match goal with H : forall indent, wfValue (snd a) -> _ |- _ =>
      specialize (H (indent ++ JSON.gap) ltac:(assumption)) end.
    rewrite !length_app. lia.
Qed.

(** [JSON.parse (JSON.stringify v)] for a value as [JSON.parse] builds them. *)
Lemma parseText_stringify v :
  wfValue v -> JSON.parseText (JSON.stringify v) = Some (norm v).
Proof.
  intros Hwf. unfold JSON.parseText, JSON.stringify.
  pose proof (parse_serialize v [] [] (S (length (JSON.serialize [] v))) Hwf
                ltac:(pose proof (size_le_length v [] Hwf); lia) eq_refl I) as H.
  rewrite app_nil_r in H. rewrite H. reflexivity.
Qed.

(** ** [JSON.parse] builds well-formed values *)

Lemma update_keys k v (props : properties) :
  map fst (Object.update k v props) = map fst props.
Proof.
  induction props as [|[k' v'] props IH]; cbn [Object.update map fst]; [reflexivity|].
  destruct (JSString.eqb k' k); cbn [map fst]; [reflexivity | now rewrite IH].
Qed.

Lemma update_values (P : value -> Prop) k v (props : properties) :
  P v -> Forall (fun kv => P (snd kv)) props ->
  Forall (fun kv => P (snd kv)) (Object.update k v props).
Proof.
  intros Hv. induction 1 as [|[k' v'] props Hx Hl IH]; cbn [Object.update];
    [constructor|].
  destruct (JSString.eqb k' k); constructor; assumption.
Qed.

Lemma lookup_None_keys k (props : properties) :
  Object.lookup k props = None -> Forall (fun k' => k' <> k) (map fst props).
Proof.
  induction props as [|[k' v'] props IH]; cbn [Object.lookup map fst]; [constructor|].
  destruct (JSString.eqb k' k) eqn:E; [discriminate|]. intros H.
  constructor; [|now apply IH].
  intros ->. now rewrite JSString_eqb_refl in E.
Qed.

Lemma insertIndex_keys (P : jsstring -> Prop) i k v (props : properties) :
  P k -> Forall P (map fst props) ->
  Forall P (map fst (Object.insertIndex i k v props)).
Proof.
  intros Hk. induction props as [|[k' v'] props IH]; cbn [Object.insertIndex map fst];
    intros H.
  - repeat constructor. exact Hk.
  - inversion H as [|? ? Hk' Hl]; subst.
    destruct (Object.arrayIndex k') as [j|].
    + destruct (j <? i)%N; cbn [map fst].
      * constructor; [exact Hk' | now apply IH].
      * constructor; [exact Hk | exact H].
    + cbn [map fst]. constructor; [exact Hk | exact H].
Qed.

Lemma insertIndex_values (P : value -> Prop) i k v (props : properties) :
  P v -> Forall (fun kv => P (snd kv)) props ->
  Forall (fun kv => P (snd kv)) (Object.insertIndex i k v props).
Proof.
  intros Hv. induction 1 as [|[k' v'] props Hx Hl IH]; cbn [Object.insertIndex].
  - repeat constructor. exact Hv.
  - destruct (Object.arrayIndex k') as [j|].
    + destruct (j <? i)%N; repeat constructor; assumption.
    + repeat constructor; assumption.
Qed.

Lemma insertIndex_wf i k v (props : properties) :
  Object.arrayIndex k = Some i ->
  Forall (fun k' => k' <> k) (map fst props) ->
  wfKeys (map fst props) ->
  wfKeys (map fst (Object.insertIndex i k v props)).
Proof.
  intros Hi. unfold wfKeys.
  induction props as [|[k' v'] props IH]; cbn [Object.insertIndex map fst];
    intros Hne Hwf.
  - repeat constructor.
  - inversion Hne as [|? ? Hk' Hnel]; subst.
    inversion Hwf as [|? ? Hb Hwl]; subst.
    assert (Hall : forall j, Object.arrayIndex k' = Some j -> (i < j)%N ->
                   Forall (keyBefore k) (k' :: map fst props)).
    { intros j Hj Hlt. constructor.
      - unfold keyBefore. now rewrite Hi, Hj.
      - eapply Forall_impl; [|exact Hb]. intros k'' Hk''.
        unfold keyBefore in *. rewrite Hi. rewrite Hj in Hk''.
        destruct (Object.arrayIndex k''); [lia | exact I]. }
    destruct (Object.arrayIndex k') as [j|] eqn:Ej.
    + destruct (N.ltb_spec j i) as [Hlt|Hge]; cbn [map fst].
      * constructor; [|now apply IH].
        apply insertIndex_keys; [|exact Hb].
        unfold keyBefore. now rewrite Ej, Hi.
      * constructor; [|exact Hwf].
        apply (Hall j eq_refl).
        assert (j <> i).
        { intros ->. apply Hk'. eapply arrayIndex_inj; eassumption. }
        lia.
    + cbn [map fst]. constructor; [|exact Hwf]. constructor.
      * unfold keyBefore. now rewrite Hi, Ej.
      * eapply Forall_impl; [|exact Hb]. intros k'' Hk''.
        unfold keyBefore in *. rewrite Hi. rewrite Ej in Hk''.
        destruct (Object.arrayIndex k''); [contradiction | exact I].
Qed.

Lemma set_wfKeys k v (props : properties) :
  wfKeys (map fst props) -> wfKeys (map fst (Object.set k v props)).
Proof.
  intros Hwf. unfold Object.set.
  destruct (Object.lookup k props) eqn:El.
  - now rewrite update_keys.
  - apply lookup_None_keys in El.
    destruct (Object.arrayIndex k) as [i|] eqn:Ei.
    + now apply insertIndex_wf.
    + rewrite map_app. cbn [map fst]. apply ForallOrdPairs_snoc. split; [exact Hwf|].
      rewrite Forall_forall in El |- *. intros k' Hin. specialize (El k' Hin).
      unfold keyBefore. rewrite Ei. destruct (Object.arrayIndex k'); [exact I | exact El].
Qed.

Lemma set_values (P : value -> Prop) k v (props : properties) :
  P v -> Forall (fun kv => P (snd kv)) props ->
  Forall (fun kv => P (snd kv)) (Object.set k v props).
Proof.
  intros Hv Hl. unfold Object.set.
  destruct (Object.lookup k props).
  - now apply update_values.
  - destruct (Object.arrayIndex k).
    + now apply insertIndex_values.
    + apply Forall_app. split; [exact Hl | repeat constructor; exact Hv].
Qed.

Lemma parseNumber_wf s x rest : JSON.parseNumber s = Some (x, rest) -> wfNumber x.
Proof.
  unfold JSON.parseNumber. destruct (JSON.parseSign s) as [neg s1].
  destruct (JSON.spanDigits s1) as [[|d more] s2]; [discriminate|].
  destruct (_ && _); [discriminate|].
  destruct (JSON.parseFraction s2) as [[frac s3]|]; [|discriminate].
  destruct (JSON.parseExponent s3) as [[ex s4]|]; [|discriminate].
  intros [= <- _]. apply ofDecimal_wf.
Qed.

Lemma keyword_wf p v s r :
  wfValue v -> forall v', JSON.keyword p v s = Some (v', r) -> wfValue v'.
Proof.
  intros Hv v'. unfold JSON.keyword. destruct (JSON.stripPrefix _ s); [|discriminate].
  now intros [= <- _].
Qed.

Lemma parse_wf fuel :
  (forall s v r, JSON.parseValue fuel s = Some (v, r) -> wfValue v)
  /\ (forall s acc v r,
        Forall wfValue acc ->
        JSON.parseElements fuel s acc = Some (v, r) -> wfValue v)
  /\ (forall s acc v r,
        wfKeys (map fst acc) -> Forall (fun kv => wfValue (snd kv)) acc ->
        JSON.parseMembers fuel s acc = Some (v, r) -> wfValue v).
Proof.
  induction fuel as [|fuel (IHv & IHe & IHm)].
  { repeat split; intros; discriminate. }
  split; [|split].
  - intros s v r. cbn [JSON.parseValue].
    destruct (JSON.skipWhiteSpace s) as [|c t]; [discriminate|].
    destruct (c =? 123)%N.
    { destruct (JSON.skipWhiteSpace t) as [|c' t']; [discriminate|].
      destruct (c' =? 125)%N.
      - intros [= <- _]. cbn. split; constructor.
      - apply IHm; constructor. }
    destruct (c =? 91)%N.
    { destruct (JSON.skipWhiteSpace t) as [|c' t']; [discriminate|].
      destruct (c' =? 93)%N.
      - intros [= <- _]. exact I.
      - apply IHe. constructor. }
    destruct (c =? 34)%N.
    { destruct (JSON.parseStringBody t) as [[str rest]|]; [|discriminate].
      intros [= <- _]. exact I. }
    destruct (c =? 116)%N; [now apply keyword_wf|].
    destruct (c =? 102)%N; [now apply keyword_wf|].
    destruct (c =? 110)%N; [now apply keyword_wf|].
    destruct (JSON.parseNumber (c :: t)) as [[x rest]|] eqn:E; [|discriminate].
    intros [= <- _]. cbn. eapply parseNumber_wf; eassumption.
  - intros s acc v r Hacc. cbn [JSON.parseElements].
    destruct (JSON.parseValue fuel s) as [[v1 r1]|] eqn:E; [|discriminate].
    apply IHv in E.
    assert (Hacc' : Forall wfValue (acc ++ [v1])).
    { apply Forall_app. split; [exact Hacc | repeat constructor; exact E]. }
    destruct (JSON.skipWhiteSpace r1) as [|c r']; [discriminate|].
    destruct (c =? 44)%N; [now apply IHe|].
    destruct (c =? 93)%N; [|discriminate].
    intros [= <- _]. now apply wfValue_array.
  - intros s acc v r Hkeys Hvals. cbn [JSON.parseMembers].
    destruct (JSON.skipWhiteSpace s) as [|q r0]; [discriminate|].
    destruct (q =? 34)%N; [|discriminate].
    destruct (JSON.parseStringBody r0) as [[k r1]|]; [|discriminate].
    destruct (JSON.skipWhiteSpace r1) as [|c r2]; [discriminate|].
    destruct (c =? 58)%N; [|discriminate].
    destruct (JSON.parseValue fuel r2) as [[v1 r3]|] eqn:E; [|discriminate].
    apply IHv in E.
    pose proof (set_wfKeys k v1 acc Hkeys) as Hk'.
    pose proof (set_values wfValue k v1 acc E Hvals) as Hv'.
    destruct (JSON.skipWhiteSpace r3) as [|c' r4]; [discriminate|].
    destruct (c' =? 44)%N; [now apply IHm|].
    destruct (c' =? 125)%N; [|discriminate].
    intros [= <- _]. apply wfValue_object. split; assumption.
Qed.

Lemma parseText_wf text v : JSON.parseText text = Some v -> wfValue v.
Proof.
  unfold JSON.parseText.
  destruct (JSON.parseValue _ text) as [[v' rest]|] eqn:E; [|discriminate].
  destruct (JSON.skipWhiteSpace rest); [|discriminate].
  intros [= <-]. eapply (proj1 (parse_wf _)); eassumption.
Qed.

(** ** Update to latest *)

Lemma wfKeys_middle l1 k l2 :
  wfKeys (l1 ++ k :: l2) -> Forall (fun x => x <> k) l1.
Proof.
  unfold wfKeys. induction l1 as [|a l1 IH]; cbn [app]; intros H; [constructor|].
  inversion H as [|? ? Ha Hl]; subst. constructor; [|now apply IH].
  apply Forall_app in Ha as [_ Ha]. inversion Ha; subst.
  now apply keyBefore_neq.
Qed.

Lemma lookup_middle k v (a b : properties) :
  Forall (fun x => x <> k) (map fst a) ->
  Object.lookup k (a ++ (k, v) :: b) = Some v.
Proof.
  induction a as [|[k' v'] a IH]; cbn [app map fst Object.lookup]; intros H.
  - now rewrite JSString_eqb_refl.
  - inversion H as [|? ? Hk Hl]; subst.
    destruct (JSString.eqb k' k) eqn:E; [apply JSString_eqb_eq in E; contradiction|].
    now apply IH.
Qed.

Lemma update_middle k v w (a b : properties) :
  Forall (fun x => x <> k) (map fst a) ->
  Object.update k w (a ++ (k, v) :: b) = a ++ (k, w) :: b.
Proof.
  induction a as [|[k' v'] a IH]; cbn [app map fst Object.update]; intros H.
  - now rewrite JSString_eqb_refl.
  - inversion H as [|? ? Hk Hl]; subst.
    destruct (JSString.eqb k' k) eqn:E; [apply JSString_eqb_eq in E; contradiction|].
    now rewrite IH.
Qed.

Lemma forEach_assign_object (todo : properties) : forall done,
  wfKeys (map fst (done ++ todo)) ->
  forEach (fun sec key => assign sec key latestVersion) (map fst todo)
    (JObject (map toLatest done ++ todo))
  = Normal (JObject (map toLatest (done ++ todo))).
Proof.
  induction todo as [|[k v] todo IH]; intros done Hwf; cbn [map fst forEach].
  - now rewrite !app_nil_r.
  - assert (Hne : Forall (fun x => x <> k) (map fst (map toLatest done))).
    { rewrite map_map. cbn [toLatest fst]. rewrite map_app in Hwf.
      now apply wfKeys_middle in Hwf. }
    cbn [assign bind]. unfold Object.set.
    rewrite (lookup_middle k v _ _ Hne), (update_middle k v _ _ _ Hne).
    replace (map toLatest done ++ (k, latestVersion) :: todo)
      with (map toLatest (done ++ [(k, v)]) ++ todo)
      by (rewrite map_app, <- app_assoc; reflexivity).
    rewrite IH.
    + now rewrite <- app_assoc.
    + now rewrite <- app_assoc.
Qed.

Lemma replaceNth_middle (a b : list value) x w n :
  length a = n -> replaceNth n w (a ++ x :: b) = a ++ w :: b.
Proof.
  intros <-.
  induction a as [|y a IH]; cbn [length app replaceNth]; [reflexivity | now rewrite IH].
Qed.

Lemma forEach_assign_array (todo : list value) : forall done,
  forEach (fun sec key => assign sec key latestVersion)
    (map fst (Object.indexed (length done) todo))
    (JArray (map (fun _ => latestVersion) done ++ todo))
  = Normal (JArray (map (fun _ => latestVersion) (done ++ todo))).
Proof.
  induction todo as [|x todo IH]; intros done; cbn [Object.indexed map fst forEach].
  - now rewrite !app_nil_r.
  - cbn [assign bind]. unfold JSString.ofNat. rewrite digitsValue_ofN, Nat2N.id.
    rewrite replaceNth_middle by apply length_map.
    replace (map (fun _ => latestVersion) done ++ latestVersion :: todo)
      with (map (fun _ : value => latestVersion) (done ++ [x]) ++ todo)
      by (rewrite map_app, <- app_assoc; reflexivity).
    replace (S (length done)) with (length (done ++ [x]))
      by (rewrite length_app; cbn; lia).
    rewrite IH. now rewrite <- app_assoc.
Qed.

Lemma indexed_values {A} (P : A -> Prop) (l : list A) : forall i,
  Forall P l -> Forall (fun e => P (snd e)) (Object.indexed i l).
Proof. induction l; intros i H; inversion H; subst; cbn; constructor; auto. Qed.

(** What [setAllLatest] returns for a truthy section. *)
Lemma setAllLatest_result sec sec' :
  wfValue sec -> truthy (Some sec) = true ->
  setAllLatest sec = Normal sec' ->
  wfValue sec' /\ goodSection sec'.
Proof.
  intros Hwf Ht. unfold setAllLatest, Object.keys.
  change (JString `"latest") with latestVersion.
  destruct sec as [| b | x | s | elems | props]; cbn [Object.entries bind].
  - discriminate.
  - cbn [map forEach]. intros [= <-]. split; [exact I|]. intros _. constructor.
  - cbn [map forEach]. intros [= <-]. split; [exact Hwf|]. intros _.
    unfold allLatest, entriesOf. cbn [norm].
    destruct x as [neg [|m] e|neg]; constructor.
  - destruct s as [|c s]; [discriminate|]. cbn. discriminate.
  - pose proof (forEach_assign_array elems []) as H. cbn [length map app] in H.
    rewrite H. intros [= <-]. split.
    + apply wfValue_array. apply Forall_forall. intros v Hv.
      apply in_map_iff in Hv as (? & <- & _). exact I.
    + intros _. unfold allLatest, entriesOf. cbn [norm Object.entries].
      apply (indexed_values (fun v => v = latestVersion)).
      apply Forall_forall. intros v Hv.
      apply in_map_iff in Hv as (v' & <- & Hv').
      apply in_map_iff in Hv' as (? & <- & _). reflexivity.
  - apply wfValue_object in Hwf as [Hkeys _].
    pose proof (forEach_assign_object props [] Hkeys) as H. cbn [map app] in H.
    rewrite H. intros [= <-]. split.
    + apply wfValue_object. split.
      * rewrite map_map. exact Hkeys.
      * apply Forall_forall. intros kv Hkv.
        apply in_map_iff in Hkv as (? & <- & _). exact I.
    + intros _. unfold allLatest, entriesOf. cbn [norm Object.entries].
      apply Forall_forall. intros kv Hkv.
      apply in_map_iff in Hkv as (kv' & <- & Hkv').
      apply in_map_iff in Hkv' as (? & <- & _). reflexivity.
Qed.

Lemma norm_falsy s : truthy (Some s) = false -> truthy (Some (norm s)) = false.
Proof.
  destruct s as [| b | [neg [|m] e|neg] | s | elems | props]; cbn; try discriminate;
    auto.
Qed.

Lemma lookup_update_same k w (props : properties) v :
  Object.lookup k props = Some v -> Object.lookup k (Object.update k w props) = Some w.
Proof.
  induction props as [|[k' v'] props IH]; cbn [Object.lookup Object.update];
    [discriminate|].
  destruct (JSString.eqb k' k) eqn:E; cbn [Object.lookup]; rewrite E; auto.
Qed.

Lemma lookup_update_other k k2 w (props : properties) :
  k2 <> k -> Object.lookup k2 (Object.update k w props) = Object.lookup k2 props.
Proof.
  intros Hne. induction props as [|[k' v'] props IH]; cbn [Object.lookup Object.update];
    [reflexivity|].
  destruct (JSString.eqb k' k) eqn:E; cbn [Object.lookup].
  - apply JSString_eqb_eq in E. subst k'.
    destruct (JSString.eqb k k2) eqn:E2; [|reflexivity].
    apply JSString_eqb_eq in E2. congruence.
  - destruct (JSString.eqb k' k2); [reflexivity | exact IH].
Qed.

Lemma goodAt_unchanged v key :
  wfValue v -> v <> JNull -> goodAt key v ->
  wfValue v /\ v <> JNull /\ isInfinite v = isInfinite v
  /\ goodAt key v
  /\ (forall key2, key2 <> key -> goodAt key2 v -> goodAt key2 v).
Proof. intros Hwf Hn Hg. repeat split; auto. Qed.

Lemma goodAt_nonObject key v : isObject v = false -> goodAt key v.
Proof. intros H props sec ->. discriminate. Qed.

Lemma lookup_wf key (props : properties) sec :
  Forall (fun kv => wfValue (snd kv)) props ->
  Object.lookup key props = Some sec -> wfValue sec.
Proof.
  intros Hvals. induction props as [|[k' v'] props IH]; cbn [Object.lookup];
    [discriminate|].
  inversion Hvals; subst.
  destruct (JSString.eqb k' key); [now intros [= <-] | now apply IH].
Qed.

(** One [if (parsed.key) { ... }] block of [updateToLatestVersions]. *)
Lemma updateSection_result v key v' :
  wfValue v -> updateSection v key = Normal v' ->
  wfValue v' /\ v' <> JNull /\ isInfinite v' = isInfinite v
  /\ goodAt key v'
  /\ (forall key2, key2 <> key -> goodAt key2 v -> goodAt key2 v').
Proof.
  intros Hwf. unfold updateSection.
  destruct v as [| b | x | s | elems | props]; cbn [getProperty bind];
    try discriminate;
    try (intros [= <-]; apply goodAt_unchanged;
         [exact Hwf | discriminate | now apply goodAt_nonObject]).
  destruct (Object.lookup key props) as [sec|] eqn:El.
  2: { intros [= <-]. apply goodAt_unchanged; [exact Hwf | discriminate|].
       intros props' sec [= <-] H. congruence. }
  destruct (truthy (Some sec)) eqn:Ht.
  2: { intros [= <-]. apply goodAt_unchanged; [exact Hwf | discriminate|].
       intros props' sec' [= <-] H. rewrite El in H. injection H as <-.
       intros Hn. rewrite (norm_falsy sec Ht) in Hn. discriminate. }
  destruct (setAllLatest sec) as [sec'|] eqn:Es; cbn [bind]; [|discriminate].
  intros [= <-].
  apply wfValue_object in Hwf as [Hkeys Hvals].
  pose proof (lookup_wf key props sec Hvals El) as Hsec.
  destruct (setAllLatest_result sec sec' Hsec Ht Es) as [Hw' Hg'].
  split; [|split; [|split; [|split]]].
  - apply wfValue_object. split; [now rewrite update_keys | now apply update_values].
  - discriminate.
  - reflexivity.
  - intros props' s [= <-] H. rewrite (lookup_update_same key sec' props sec El) in H.
    now injection H as <-.
  - intros key2 Hne Hgood props' s [= <-] H.
    rewrite (lookup_update_other key key2 sec' props Hne) in H.
    exact (Hgood props s eq_refl H).
Qed.

Lemma updateSections_result v v' :
  wfValue v -> updateSections v = Normal v' ->
  wfValue v' /\ v' <> JNull /\ isInfinite v' = isInfinite v
  /\ Forall (fun key => goodAt key v') sectionKeys.
Proof.
  intros Hwf. unfold updateSections.
  destruct (updateSection v `"dependencies") as [v1|] eqn:E1; cbn [bind]; [|discriminate].
  destruct (updateSection v1 `"devDependencies") as [v2|] eqn:E2; cbn [bind]; [|discriminate].
  intros E3.
  destruct (updateSection_result _ _ _ Hwf E1) as (W1 & _ & I1 & G1 & _).
  destruct (updateSection_result _ _ _ W1 E2) as (W2 & _ & I2 & G2 & K2).
  destruct (updateSection_result _ _ _ W2 E3) as (W3 & N3 & I3 & G3 & K3).
  split; [exact W3|]. split; [exact N3|]. split; [congruence|].
  unfold sectionKeys. repeat constructor.
  - apply K3; [discriminate|]. apply K2; [discriminate | exact G1].
  - apply K3; [discriminate | exact G2].
  - exact G3.
Qed.

(** ** Analysis of a manifest whose sections hold only [latest] *)

Lemma forEach_countEntry_latest ty es :
  Forall (fun e => snd e = latestVersion) es ->
  forall acc, onlyLatest acc ->
  exists acc', forEach (countEntry ty) es acc = Normal acc' /\ onlyLatest acc'.
Proof.
  induction 1 as [|[k v] es Hv _ IH]; intros acc Hacc; cbn [forEach].
  - eauto.
  - cbn [snd] in Hv. subst v. unfold countEntry at 1. cbn [snd fst latestVersion].
    change (JSString.startsWith `"latest" `"^" || JSString.startsWith `"latest" `"~")
      with false.
    change (JSString.eqb `"latest" `"latest") with true. cbv iota. cbn [bind].
    apply IH. destruct Hacc as (Hr & Hs & Hl). unfold onlyLatest; cbn.
    rewrite length_app. cbn. repeat split; auto; lia.
Qed.

Lemma extract_latest parsed key ty acc :
  parsed <> JNull ->
  (forall props sec, parsed = JObject props -> Object.lookup key props = Some sec ->
                     truthy (Some sec) = true -> allLatest sec) ->
  onlyLatest acc ->
  exists acc', extract parsed key ty acc = Normal acc' /\ onlyLatest acc'.
Proof.
  intros Hnn Hsec Hacc. unfold extract.
  destruct parsed as [| | | | |props]; try contradiction; cbn [getProperty bind]; eauto.
  destruct (Object.lookup key props) as [sec|] eqn:El; [|eauto].
  destruct (truthy (Some sec)) eqn:Ht; [|eauto].
  rewrite (entries_truthy _ Ht). cbn [bind].
  apply forEach_countEntry_latest; [|exact Hacc].
  exact (Hsec props sec eq_refl El Ht).
Qed.

Lemma analyzeParsed_latest parsed :
  parsed <> JNull ->
  Forall (fun key =>
            forall props sec, parsed = JObject props ->
              Object.lookup key props = Some sec ->
              truthy (Some sec) = true -> allLatest sec) sectionKeys ->
  exists ds a,
    analyzeParsed parsed = Normal (ds, a)
    /\ latestVersions a = total a /\ rangeVersions a = 0 /\ specificVersions a = 0.
Proof.
  intros Hnn Hall. unfold sectionKeys in Hall.
  inversion Hall as [|? ? H1 Hall1]; subst.
  inversion Hall1 as [|? ? H2 Hall2]; subst.
  inversion Hall2 as [|? ? H3 _]; subst.
  unfold analyzeParsed.
  destruct (extract_latest parsed `"dependencies" Dependencies
              {| deps := []; specific := 0; range := 0; latest := 0 |} Hnn H1)
    as (acc1 & -> & O1); [repeat split|]. cbn [bind].
  destruct (extract_latest parsed `"devDependencies" DevDependencies acc1 Hnn H2 O1)
    as (acc2 & -> & O2). cbn [bind].
  destruct (extract_latest parsed `"peerDependencies" PeerDependencies acc2 Hnn H3 O2)
    as (acc3 & -> & (Hr & Hs & Hl)). cbn [bind].
  destruct (getProperty_total parsed `"name" Hnn) as [pn ->]. cbn [bind].
  destruct (getProperty_total parsed `"version" Hnn) as [pv ->]. cbn [bind].
  destruct (sectionSize_total parsed `"dependencies" Hnn) as [n1 ->]. cbn [bind].
  destruct (sectionSize_total parsed `"devDependencies" Hnn) as [n2 ->]. cbn [bind].
  destruct (sectionSize_total parsed `"peerDependencies" Hnn) as [n3 ->]. cbn [bind].
  eexists. eexists. split; [reflexivity|]. cbn. auto.
Qed.

Lemma lookup_norm key (props : properties) :
  Object.lookup key (map normProp props) = option_map norm (Object.lookup key props).
Proof.
  induction props as [|[k v] props IH]; cbn [map Object.lookup normProp fst snd option_map];
    [reflexivity|].
  destruct (JSString.eqb k key); [reflexivity | exact IH].
Qed.

Lemma norm_null v : v <> JNull -> isInfinite v = false -> norm v <> JNull.
Proof.
  destruct v as [| b | [neg [|m] e|neg] | s | elems | props]; cbn; intros; congruence.
Qed.

Lemma norm_infinite v : isInfinite v = true -> norm v = JNull.
Proof.
  destruct v as [| b | [neg [|m] e|neg] | s | elems | props]; cbn; intros; congruence.
Qed.

(** The manifest read back from the text of [v] has only [latest] in its
    sections when every section of [v] is good. *)
Lemma analyzeParsed_norm v :
  v <> JNull -> isInfinite v = false ->
  Forall (fun key => goodAt key v) sectionKeys ->
  exists ds a,
    analyzeParsed (norm v) = Normal (ds, a)
    /\ latestVersions a = total a /\ rangeVersions a = 0 /\ specificVersions a = 0.
Proof.
  intros Hnn Hinf Hgood. apply analyzeParsed_latest; [now apply norm_null|].
  eapply Forall_impl; [|exact Hgood]. intros key Hk props' sec' Hp Hl Ht.
  destruct v as [| b | [neg [|m] e|neg] | s | elems | props];
    try (cbn in Hp; discriminate).
  cbn [norm] in Hp. injection Hp as <-.
  change (fun kv : jsstring * value => (fst kv, norm (snd kv))) with normProp in Hl.
  rewrite lookup_norm in Hl.
  destruct (Object.lookup key props) as [sec|] eqn:El; [|discriminate].
  cbn [option_map] in Hl. injection Hl as <-.
  exact (Hk props sec eq_refl El Ht).
Qed.

Lemma rewrite_inv text updated :
  rewriteAllVersionsToLatest text = Normal updated ->
  exists parsed v,
    JSON.parseText text = Some parsed
    /\ updateSections parsed = Normal v
    /\ updated = JSON.stringify v.
Proof.
  unfold rewriteAllVersionsToLatest, JSON.parse.
  destruct (JSON.parseText text) as [parsed|]; cbn [bind]; [|discriminate].
  destruct (updateSections parsed) as [v|] eqn:Eu; cbn [bind]; [|discriminate].
  intros [= <-]. exists parsed, v. split; [reflexivity|]. split; [exact Eu | reflexivity].
Qed.

(** ** The outcome of the update, before it serializes *)

Lemma forEach_assign_total ks : forall sec,
  isObject sec = true \/ (exists elems, sec = JArray elems) ->
  exists sec', forEach (fun sec key => assign sec key (JString `"latest")) ks sec
               = Normal sec'.
Proof.
  induction ks as [|k ks IH]; intros sec Hs; cbn [forEach]; [eauto|].
  destruct Hs as [Ho | [elems ->]].
  - destruct sec; try discriminate. cbn [assign bind]. apply IH. now left.
  - cbn [assign bind]. apply IH. right. eauto.
Qed.

Lemma setAllLatest_outcome sec :
  truthy (Some sec) = true ->
  if isString sec
  then setAllLatest sec = Throw TypeError
  else exists sec', setAllLatest sec = Normal sec'.
Proof.
  unfold setAllLatest, Object.keys.
  destruct sec as [| b | x | s | elems | props]; cbn [truthy isString Object.entries bind];
    intros Ht; try discriminate; try (eexists; reflexivity).
  - destruct s as [|c s]; [discriminate|]. reflexivity.
  - apply forEach_assign_total. right. eauto.
  - apply forEach_assign_total. now left.
Qed.

Lemma sectionIsString_spec props key :
  sectionIsString (JObject props) key
  = match Object.lookup key props with
    | Some sec => truthy (Some sec) && isString sec
    | None => false
    end.
Proof.
  cbn [sectionIsString]. destruct (Object.lookup key props) as [[| | | | |]|]; cbn;
    try reflexivity; now rewrite ?andb_true_r, ?andb_false_r.
Qed.

Lemma updateSection_outcome parsed key :
  parsed <> JNull ->
  if sectionIsString parsed key
  then updateSection parsed key = Throw TypeError
  else exists parsed',
         updateSection parsed key = Normal parsed'
         /\ parsed' <> JNull
         /\ forall key2, key2 <> key ->
                         sectionIsString parsed' key2 = sectionIsString parsed key2.
Proof.
  intros Hnn. unfold updateSection.
  destruct parsed as [| b | x | s | elems | props]; try contradiction;
    cbn [getProperty bind sectionIsString];
    try (eexists; split; [reflexivity|]; split; [discriminate | reflexivity]).
  change (match Object.lookup key props with
          | Some (JString s) => negb (length s =? 0)%nat
          | _ => false
          end) with (sectionIsString (JObject props) key).
  rewrite sectionIsString_spec.
  destruct (Object.lookup key props) as [sec|] eqn:El.
  2: { eexists; split; [reflexivity|]; split; [discriminate | reflexivity]. }
  destruct (truthy (Some sec)) eqn:Ht; cbn [andb].
  2: { eexists; split; [reflexivity|]; split; [discriminate | reflexivity]. }
  pose proof (setAllLatest_outcome sec Ht) as Hs.
  destruct (isString sec).
  - rewrite Hs. reflexivity.
  - destruct Hs as [sec' ->]. cbn [bind]. eexists. split; [reflexivity|].
    split; [discriminate|]. intros key2 Hne.
    rewrite sectionIsString_spec, (lookup_update_other key key2 sec' props Hne).
    rewrite <- sectionIsString_spec. reflexivity.
Qed.

Lemma updateSections_outcome parsed :
  parsed <> JNull ->
  if existsb (sectionIsString parsed) sectionKeys
  then updateSections parsed = Throw TypeError
  else exists parsed', updateSections parsed = Normal parsed'.
Proof.
  intros Hnn. unfold updateSections, sectionKeys, existsb.
  pose proof (updateSection_outcome parsed `"dependencies" Hnn) as H1.
  destruct (sectionIsString parsed `"dependencies").
  { rewrite H1. reflexivity. }
  destruct H1 as (p1 & -> & Hn1 & K1). cbn [bind orb].
  pose proof (updateSection_outcome p1 `"devDependencies" Hn1) as H2.
  rewrite <- (K1 `"devDependencies") by discriminate.
  rewrite <- (K1 `"peerDependencies") by discriminate.
  destruct (sectionIsString p1 `"devDependencies").
  { rewrite H2. reflexivity. }
  destruct H2 as (p2 & -> & Hn2 & K2). cbn [bind orb].
  pose proof (updateSection_outcome p2 `"peerDependencies" Hn2) as H3.
  rewrite <- (K2 `"peerDependencies") by discriminate.
  destruct (sectionIsString p2 `"peerDependencies").
  { rewrite H3. reflexivity. }
  destruct H3 as (p3 & -> & _). cbn [orb]. eauto.
Qed.

Lemma stringSectionExample_analysis :
  analyze stringSectionExample = Normal (stringSectionRecords, stringSectionSummary).
Proof. vm_compute. reflexivity. Qed.

Lemma stringSectionExample_rewrite :
  rewriteAllVersionsToLatest stringSectionExample = Throw TypeError.
Proof. vm_compute. reflexivity. Qed.

Lemma outOfRangeExample_analysis :
  analyze outOfRangeExample = Normal ([], emptySummary).
Proof. vm_compute. reflexivity. Qed.

Lemma outOfRangeExample_rewrite :
  rewriteAllVersionsToLatest outOfRangeExample = Normal `"null".
Proof. vm_compute. reflexivity. Qed.

Lemma null_analysis : analyze `"null" = Throw TypeError.
Proof. vm_compute. reflexivity. Qed.

(** C3 (as stated) fails, in two ways.  [analyze] accepts the text [1e999],
    which is read as Infinity; the update to latest re-serializes it as
    [null], and [analyze] fails on that output.  And [analyze] accepts a
    manifest whose [dependencies] field is the string [abc], with one record
    per character, while the update to latest throws on it and has no
    output to analyse. *)
Lemma rewrite_then_analyze_counterexample :
  (analyze outOfRangeExample = Normal ([], emptySummary)
   /\ rewriteAllVersionsToLatest outOfRangeExample = Normal `"null"
   /\ analyze `"null" = Throw TypeError
   /\ ~ rewriteYieldsAllLatest outOfRangeExample)
  /\ (analyze stringSectionExample = Normal (stringSectionRecords, stringSectionSummary)
      /\ rewriteAllVersionsToLatest stringSectionExample = Throw TypeError
      /\ ~ rewriteYieldsAllLatest stringSectionExample).
Proof.
  split.
  - split; [exact outOfRangeExample_analysis|].
    split; [exact outOfRangeExample_rewrite|].
    split; [exact null_analysis|].
    intros H. destruct H as (updated & ds & a & Hu & Ha & _).
    { eexists. exact outOfRangeExample_analysis. }
    rewrite outOfRangeExample_rewrite in Hu. injection Hu as <-.
    rewrite null_analysis in Ha. discriminate.
  - split; [exact stringSectionExample_analysis|].
    split; [exact stringSectionExample_rewrite|].
    intros H. destruct H as (updated & ds & a & Hu & _).
    { eexists. exact stringSectionExample_analysis. }
    rewrite stringSectionExample_rewrite in Hu. discriminate.
Qed.

Lemma infinite_rewrite parsed v :
  isInfinite parsed = true -> updateSections parsed = Normal v ->
  JSON.stringify v = `"null".
Proof.
  destruct parsed as [| | [neg m e|neg] | | |]; try discriminate.
  intros _ [= <-]. reflexivity.
Qed.

Lemma infinite_analysis parsed :
  isInfinite parsed = true -> analyzeParsed parsed = Normal ([], emptySummary).
Proof.
  destruct parsed as [| | [neg m e|neg] | | |]; try discriminate.
  intros _. reflexivity.
Qed.

(** In strict mode the index of a string cannot be assigned: the update
    throws on a manifest with a string section. *)
Lemma stringSection_rewrite text parsed :
  JSON.parse text = Normal parsed ->
  existsb (sectionIsString parsed) sectionKeys = true ->
  rewriteAllVersionsToLatest text = Throw TypeError.
Proof.
  intros Hp Hs. unfold rewriteAllVersionsToLatest. rewrite Hp. cbn [bind].
  assert (Hnn : parsed <> JNull) by (intros ->; discriminate).
  pose proof (updateSections_outcome parsed Hnn) as H. rewrite Hs in H.
  rewrite H. reflexivity.
Qed.

(** C3 (amended).  For a text that [JSON.parse] accepts.  Whenever the
    update-to-latest transform returns a text, the analysis of that text is
    settled by what the original text parsed to: for a number too large for
    a double (read as Infinity) the returned text is [null] and [analyze]
    fails on it; for every other value [analyze] accepts the returned text
    with [latestVersions = total] and [rangeVersions = specificVersions =
    0], whether or not it accepted the original.  In the Infinity case
    [analyze] accepts the original text, with no records.  And when one of
    the three dependency sections is a non-empty string, the transform
    throws TypeError and returns no text to analyse. *)
Theorem rewrite_then_analyze_all_latest text parsed :
  JSON.parse text = Normal parsed ->
  (forall updated,
     rewriteAllVersionsToLatest text = Normal updated ->
     if isInfinite parsed
     then updated = `"null" /\ analyze updated = Throw TypeError
     else exists ds a, analyze updated = Normal (ds, a) /\ allLatestSummary a)
  /\ (isInfinite parsed = true -> analyze text = Normal ([], emptySummary))
  /\ (existsb (sectionIsString parsed) sectionKeys = true ->
      rewriteAllVersionsToLatest text = Throw TypeError).
Proof.
  intros Hparse. split; [|split].
  - intros updated Hrw.
    destruct (rewrite_inv text updated Hrw) as (parsed' & v & Hp & Hu & ->).
    pose proof Hparse as Hparse'.
    unfold JSON.parse in Hparse'. rewrite Hp in Hparse'. injection Hparse' as ->.
    pose proof (parseText_wf text parsed Hp) as Hwf.
    destruct (updateSections_result parsed v Hwf Hu) as (Hwf' & Hnn & Hinf & Hgood).
    destruct (isInfinite parsed) eqn:Hi.
    + rewrite (infinite_rewrite parsed v Hi Hu). split; [reflexivity|].
      exact null_analysis.
    + unfold analyze, JSON.parse. rewrite (parseText_stringify v Hwf'). cbn [bind].
      destruct (analyzeParsed_norm v Hnn Hinf Hgood) as (ds & a & Ha & Hs).
      exists ds, a. split; [exact Ha | exact Hs].
  - intros Hi. unfold analyze. rewrite Hparse. cbn [bind].
    now apply infinite_analysis.
  - now apply stringSection_rewrite.
Qed.

Lemma manifestExample_parse : JSON.parse manifestExample = Normal manifestExampleParsed.
Proof. vm_compute. reflexivity. Qed.

Lemma manifestExample_rewrite :
  rewriteAllVersionsToLatest manifestExample = Normal manifestExampleLatest.
Proof. vm_compute. reflexivity. Qed.

Lemma stringSectionExample_parse :
  JSON.parse stringSectionExample
  = Normal (JObject [(`"dependencies", JString `"abc")]).
Proof. vm_compute. reflexivity. Qed.

Lemma rewrite_then_analyze_all_latest_witness :
  JSON.parse manifestExample = Normal manifestExampleParsed
  /\ rewriteAllVersionsToLatest manifestExample = Normal manifestExampleLatest
  /\ (exists ds a, analyze manifestExampleLatest = Normal (ds, a) /\ allLatestSummary a)
  /\ rewriteAllVersionsToLatest stringSectionExample = Throw TypeError.
Proof.
  split; [exact manifestExample_parse|]. split; [exact manifestExample_rewrite|].
  split.
  - exact (proj1 (rewrite_then_analyze_all_latest manifestExample manifestExampleParsed
                    manifestExample_parse)
             manifestExampleLatest manifestExample_rewrite).
  - exact (proj2 (proj2 (rewrite_then_analyze_all_latest stringSectionExample _
                           stringSectionExample_parse))
             eq_refl).
Defined.

(** ** The README composer *)

Import BadgeSelector ReadmeGenerator ReadmeSpec.

Lemma bind_assoc {A B C} (c : completion A) (f : A -> completion B)
      (g : B -> completion C) :
  bind (bind c f) g = bind c (fun a => bind (f a) g).
Proof. destruct c; reflexivity. Qed.

Lemma forEach_appendBadge bs readme :
  forEach appendBadge bs readme
  = (snippets <- badgeSnippets bs ;;
     Normal (readme ++ concat (map (fun md => md ++ `" ") snippets))).
Proof.
  revert readme; induction bs as [|b bs IH]; intros readme.
  - cbn. now rewrite app_nil_r.
  - cbn [forEach badgeSnippets]. unfold appendBadge at 1.
    destruct (findTemplate (type b)) as [t|]; [|cbn [bind]; apply IH].
    destruct (generateMarkdown t (url b) (label b) (message b) (color b)) as [md|e];
      [|reflexivity].
    cbn [bind]. rewrite IH.
    destruct (badgeSnippets bs) as [rest|e]; [|reflexivity].
    cbn [bind map concat]. now rewrite <- !app_assoc.
Qed.

Lemma fold_left_append {A} (g : A -> jsstring) l init :
  fold_left (fun r x => r ++ g x) l init = init ++ concat (map g l).
Proof.
  revert init; induction l as [|x l IH]; intros init; cbn [fold_left map concat].
  - now rewrite app_nil_r.
  - rewrite IH. now rewrite <- app_assoc.
Qed.

Lemma if_append (b : bool) (r a : jsstring) :
  (if b then r ++ a else r) = r ++ section b a.
Proof. destruct b; [reflexivity | now rewrite app_nil_r]. Qed.

Lemma licenses_append (ls : list jsstring) (r : jsstring) f :
  selectedLicenses f = ls ->
  (if (0 <? length ls)%nat then
     if (length ls =? 1)%nat then
       (r ++ `"## License" ++ nl ++ nl) ++ `"This project is licensed under the "
       ++ hd [] ls ++ `" License." ++ nl ++ nl
     else
       fold_left (fun readme license => readme ++ `"- " ++ license ++ nl) ls
         ((r ++ `"## License" ++ nl ++ nl)
          ++ `"This project is licensed under multiple licenses:" ++ nl ++ nl)
       ++ nl
   else r) = r ++ licenseSection f.
Proof.
  intros Hl. unfold licenseSection. rewrite Hl.
  destruct ls as [|l1 [|l2 ls]].
  - cbn. now rewrite app_nil_r.
  - cbn [length Nat.ltb Nat.leb Nat.eqb hd]. unfold heading.
    change (`"## " ++ `"License") with (`"## License").
    now rewrite <- !app_assoc.
  - cbn [length Nat.ltb Nat.leb Nat.eqb].
    rewrite (fold_left_append listItem). unfold heading.
    change (`"## " ++ `"License") with (`"## License").
    now rewrite <- !app_assoc.
Qed.

Lemma features_append (text : jsstring) (r : jsstring) f :
  features f = text ->
  (if nonEmpty text then
     fold_left (fun readme feature => readme ++ `"- " ++ JSString.trim feature ++ nl)
       (filter (fun x => nonEmpty (JSString.trim x)) (JSString.split 10 text))
       (r ++ `"## Features" ++ nl ++ nl)
     ++ nl
   else r) = r ++ featuresSection f.
Proof.
  intros Hf. unfold featuresSection. rewrite Hf.
  destruct (nonEmpty text); [|now rewrite app_nil_r].
  rewrite (fold_left_append (fun feature => `"- " ++ JSString.trim feature ++ nl)).
  unfold section, heading, listItem, nonBlank, lines. rewrite map_map.
  now rewrite <- !app_assoc.
Qed.

Lemma readme_tail_sections (f : Fields) (r : jsstring) :
  (let readme := r in
   let readme :=
      if nonEmpty (description f)
      then readme ++ `"## Description" ++ nl ++ nl ++ description f ++ nl ++ nl
      else readme in
    let readme :=
      if nonEmpty (features f) then
        let readme := readme ++ `"## Features" ++ nl ++ nl in
        let featureList :=
          filter (fun x => nonEmpty (JSString.trim x))
                 (JSString.split 10 (features f)) in
        let readme :=
          fold_left (fun readme feature =>
                       readme ++ `"- " ++ JSString.trim feature ++ nl)
                    featureList readme in
        readme ++ nl
      else readme in
    let readme :=
      if nonEmpty (installation f)
      then readme ++ `"## Installation" ++ nl ++ nl ++ fence ++ `"bash" ++ nl
           ++ installation f ++ nl ++ fence ++ nl ++ nl
      else readme in
    let readme :=
      if nonEmpty (usage f)
      then readme ++ `"## Usage" ++ nl ++ nl ++ fence ++ `"bash" ++ nl
           ++ usage f ++ nl ++ fence ++ nl ++ nl
      else readme in
    let readme :=
      if nonEmpty (contributing f)
      then readme ++ `"## Contributing" ++ nl ++ nl ++ contributing f ++ nl ++ nl
      else readme in
    let readme :=
      if (0 <? length (selectedLicenses f))%nat then
        let readme := readme ++ `"## License" ++ nl ++ nl in
        if (length (selectedLicenses f) =? 1)%nat then
          readme ++ `"This project is licensed under the "
          ++ hd [] (selectedLicenses f) ++ `" License." ++ nl ++ nl
        else
          let readme :=
            readme ++ `"This project is licensed under multiple licenses:" ++ nl ++ nl in
          let readme :=
            fold_left (fun readme license => readme ++ `"- " ++ license ++ nl)
                      (selectedLicenses f) readme in
          readme ++ nl
      else readme in
    let readme :=
      if nonEmpty (author f)
      then readme ++ `"## Author" ++ nl ++ nl ++ author f ++ nl
      else readme in
    readme)
  = r ++ descriptionSection f ++ featuresSection f ++ installationSection f
      ++ usageSection f ++ contributingSection f ++ licenseSection f
      ++ authorSection f.
Proof.
  cbv zeta.
  rewrite (features_append (features f) _ f eq_refl).
  rewrite (licenses_append (selectedLicenses f) _ f eq_refl).
  rewrite !if_append.
  rewrite <- !app_assoc.
  unfold descriptionSection, installationSection, usageSection,
    contributingSection, authorSection, heading, codeBlock.
  rewrite <- !app_assoc.
  reflexivity.
Qed.

Lemma title_append f : (if nonEmpty (projectName f)
                        then [] ++ `"# " ++ projectName f ++ nl ++ nl
                        else []) = titleSection f.
Proof. unfold titleSection, section. reflexivity. Qed.

(** [generateReadme] is the concatenation of the nine sections, or the
    placeholder when that is empty. *)
Lemma generateReadme_sections f :
  generateReadme f
  = (doc <- compose f ;;
     Normal (if nonEmpty doc then doc else placeholder)).
Proof.
  pose proof (readme_tail_sections f) as Htail. cbv zeta in Htail.
  unfold generateReadme, compose. cbv zeta.
  rewrite title_append, forEach_appendBadge, !bind_assoc.
  unfold sections, badgesSection. cbn [concat].
  destruct (badges f) as [|b bs].
  - cbn [length Nat.ltb Nat.leb badgeSnippets bind section].
    rewrite Htail. rewrite app_nil_r. reflexivity.
  - cbn [length Nat.ltb Nat.leb section].
    destruct (badgeSnippets (b :: bs)) as [snippets|e]; [|reflexivity].
    cbn [bind]. rewrite Htail. rewrite <- !app_assoc, app_nil_r. reflexivity.
Qed.

Lemma section_nil (b : bool) (text : jsstring) :
  text <> [] -> (section b text = [] <-> b = false).
Proof.
  intros Ht. destruct b; simpl; split; intros H; try reflexivity; try discriminate.
  contradiction.
Qed.

Lemma nonEmpty_false (s : jsstring) : nonEmpty s = false <-> s = [].
Proof. destruct s; simpl; split; intros H; try reflexivity; discriminate. Qed.

Lemma ltb_length_false {A} (l : list A) : (0 <? length l)%nat = false <-> l = [].
Proof. destruct l; simpl; split; intros H; try reflexivity; discriminate. Qed.

Lemma section_present (x text : jsstring) :
  text <> [] -> (section (nonEmpty x) text = [] <-> x = []).
Proof.
  intros Ht. rewrite (section_nil _ _ Ht). apply nonEmpty_false.
Qed.

Lemma badgesSection_present snippets f :
  badgesSection snippets f = [] <-> badges f = [].
Proof.
  unfold badgesSection. rewrite section_nil; [apply ltb_length_false|].
  intros E. apply app_eq_nil in E as [_ E]. discriminate.
Qed.

Lemma licenseSection_present f :
  licenseSection f = [] <-> selectedLicenses f = [].
Proof.
  unfold licenseSection. destruct (selectedLicenses f) as [|l1 [|l2 ls]];
    split; intros H; try reflexivity; discriminate.
Qed.

(** Once the badges are rendered, [generateReadme] returns the nine
    sections in their order. *)
Lemma generateReadme_in_order (f : Fields) :
  generateReadme f
  = (snippets <- badgeSnippets (badges f) ;;
     let doc :=
       titleSection f ++ badgesSection snippets f ++ descriptionSection f
       ++ featuresSection f ++ installationSection f ++ usageSection f
       ++ contributingSection f ++ licenseSection f ++ authorSection f in
     Normal (if nonEmpty doc then doc else placeholder)).
Proof.
  rewrite generateReadme_sections. unfold compose, sections.
  destruct (badgeSnippets (badges f)); [|reflexivity].
  cbn [bind concat]. now rewrite app_nil_r.
Qed.

(** When each section is empty, and what the features, installation, usage
    and license sections hold. *)
Lemma section_layout (f : Fields) :
  (titleSection f = [] <-> projectName f = [])
  /\ (forall snippets, badgesSection snippets f = [] <-> badges f = [])
  /\ (descriptionSection f = [] <-> description f = [])
  /\ (featuresSection f = [] <-> features f = [])
  /\ (installationSection f = [] <-> installation f = [])
  /\ (usageSection f = [] <-> usage f = [])
  /\ (contributingSection f = [] <-> contributing f = [])
  /\ (licenseSection f = [] <-> selectedLicenses f = [])
  /\ (authorSection f = [] <-> author f = [])
  /\ (features f <> [] ->
      featuresSection f
      = heading "Features"
        ++ concat (map (fun line => `"- " ++ JSString.trim line ++ nl)
                       (filter nonBlank (JSString.split 10 (features f))))
        ++ nl)
  /\ (installation f <> [] ->
      installationSection f
      = heading "Installation" ++ fence ++ `"bash" ++ nl ++ installation f ++ nl
        ++ fence ++ nl ++ nl)
  /\ (usage f <> [] ->
      usageSection f
      = heading "Usage" ++ fence ++ `"bash" ++ nl ++ usage f ++ nl
        ++ fence ++ nl ++ nl)
  /\ (forall license, selectedLicenses f = [license] ->
      licenseSection f
      = heading "License" ++ `"This project is licensed under the " ++ license
        ++ `" License." ++ nl ++ nl)
  /\ (forall l1 l2 more, selectedLicenses f = l1 :: l2 :: more ->
      licenseSection f
      = heading "License" ++ `"This project is licensed under multiple licenses:"
        ++ nl ++ nl
        ++ concat (map (fun license => `"- " ++ license ++ nl) (l1 :: l2 :: more))
        ++ nl).
Proof.
  split. { apply section_present. discriminate. }
  split. { intros snippets. apply badgesSection_present. }
  split. { apply section_present. discriminate. }
  split. { apply section_present. discriminate. }
  split. { apply section_present. discriminate. }
  split. { apply section_present. discriminate. }
  split. { apply section_present. discriminate. }
  split. { apply licenseSection_present. }
  split. { apply section_present. discriminate. }
  split.
  { intros H. unfold featuresSection.
    destruct (nonEmpty (features f)) eqn:E;
      [|apply nonEmpty_false in E; contradiction].
    unfold section, listItem, lines. now rewrite map_map. }
  split.
  { intros H. unfold installationSection.
    destruct (nonEmpty (installation f)) eqn:E;
      [|apply nonEmpty_false in E; contradiction].
    unfold section, codeBlock. now rewrite <- !app_assoc. }
  split.
  { intros H. unfold usageSection.
    destruct (nonEmpty (usage f)) eqn:E;
      [|apply nonEmpty_false in E; contradiction].
    unfold section, codeBlock. now rewrite <- !app_assoc. }
  split.
  { intros license H. unfold licenseSection. now rewrite H. }
  intros l1 l2 more H. unfold licenseSection. now rewrite H.
Qed.

(** ** [encodeURIComponent] and the badges that throw *)

Lemma unreserved_ascii c : URI.isUnreserved c = true -> (c < 128)%N.
Proof.
  unfold URI.isUnreserved, URI.isAlpha, JSString.isDigit. cbn [existsb].
  rewrite !orb_true_iff, !andb_true_iff, !N.leb_le, !N.eqb_eq. lia.
Qed.

Lemma unreserved_not_surrogate c :
  URI.isUnreserved c = true ->
  JSString.isHighSurrogate c = false /\ JSString.isLowSurrogate c = false.
Proof.
  intros H. apply unreserved_ascii in H.
  unfold JSString.isHighSurrogate, JSString.isLowSurrogate.
  rewrite !andb_false_iff, !N.leb_gt. lia.
Qed.

Lemma surrogates_disjoint c :
  JSString.isHighSurrogate c = true -> JSString.isLowSurrogate c = false.
Proof.
  unfold JSString.isHighSurrogate, JSString.isLowSurrogate.
  rewrite andb_true_iff, andb_false_iff, !N.leb_le, !N.leb_gt. lia.
Qed.

Lemma encodeURIComponent_result_len n : forall s,
  length s <= n ->
  if wellFormed s
  then exists e, URI.encodeURIComponent s = Normal e
  else URI.encodeURIComponent s = Throw URIError.
Proof.
  induction n as [|n IH]; intros [|c r] Hlen; simpl in Hlen; try lia.
  - simpl. eauto.
  - simpl. eauto.
  - cbn [wellFormed URI.encodeURIComponent].
    assert (IHr := IH r ltac:(lia)).
    destruct (URI.isUnreserved c) eqn:Eu.
    + destruct (unreserved_not_surrogate c Eu) as [-> ->]. cbn [negb andb].
      destruct (wellFormed r).
      * destruct IHr as [e ->]. cbn [bind]. eauto.
      * rewrite IHr. reflexivity.
    + destruct (JSString.isHighSurrogate c) eqn:Eh.
      * rewrite (surrogates_disjoint c Eh).
        destruct r as [|d r']; [reflexivity|].
        destruct (JSString.isLowSurrogate d); cbn [andb]; [|reflexivity].
        assert (IHr' := IH r' ltac:(simpl in Hlen; lia)).
        destruct (wellFormed r').
        -- destruct IHr' as [e ->]. cbn [bind]. eauto.
        -- rewrite IHr'. reflexivity.
      * destruct (JSString.isLowSurrogate c); cbn [negb andb]; [reflexivity|].
        destruct (wellFormed r).
        -- destruct IHr as [e ->]. cbn [bind]. eauto.
        -- rewrite IHr. reflexivity.
Qed.

Lemma encodeURIComponent_result s :
  if wellFormed s
  then exists e, URI.encodeURIComponent s = Normal e
  else URI.encodeURIComponent s = Throw URIError.
Proof. apply (encodeURIComponent_result_len (length s)). lia. Qed.

Lemma JSString_eqb_sym a b : JSString.eqb a b = JSString.eqb b a.
Proof.
  destruct (JSString.eqb a b) eqn:E.
  - apply JSString_eqb_eq in E. subst. now rewrite JSString_eqb_refl.
  - destruct (JSString.eqb b a) eqn:E'; [|reflexivity].
    apply JSString_eqb_eq in E'. subst. now rewrite JSString_eqb_refl in E.
Qed.

(** What rendering a badge of a catalogued type gives. *)
Lemma render_result b t :
  findTemplate (type b) = Some t ->
  if encodable b
  then exists md, generateMarkdown t (url b) (label b) (message b) (color b) = Normal md
  else generateMarkdown t (url b) (label b) (message b) (color b) = Throw URIError.
Proof.
  intros H. apply find_some in H as [Hin Heq]. apply JSString_eqb_eq in Heq.
  unfold encodable. rewrite <- Heq.
  unfold badgeTemplates in Hin. cbn [In] in Hin.
  unfold npmVersionTemplate, npmDownloadsTemplate, githubStarsTemplate,
    githubForksTemplate, githubIssuesTemplate, githubLicenseTemplate,
    buildStatusTemplate, coverageTemplate, licenseTemplate, customTemplate in Hin.
  repeat (destruct Hin as [<- | Hin];
          [cbn [t_type generateMarkdown];
           match goal with
           | |- context [JSString.eqb ?a ?b] =>
               let v := eval vm_compute in (JSString.eqb a b) in
               change (JSString.eqb a b) with v; cbv iota
           end;
           try match goal with
           | |- context [JSString.eqb ?a ?b] =>
               let v := eval vm_compute in (JSString.eqb a b) in
               change (JSString.eqb a b) with v; cbv iota
           end;
           try (eexists; reflexivity) |]).
  - pose proof (encodeURIComponent_result (url b)) as He.
    destruct (wellFormed (url b)).
    + destruct He as [e ->]. cbn [bind]. eauto.
    + rewrite He. reflexivity.
  - pose proof (encodeURIComponent_result (withDefault (label b) `"label")) as Hl.
    pose proof (encodeURIComponent_result (withDefault (message b) `"message")) as Hm.
    destruct (wellFormed (withDefault (label b) `"label")); cbn [andb].
    + destruct Hl as [el ->]. cbn [bind].
      destruct (wellFormed (withDefault (message b) `"message")).
      * destruct Hm as [em ->]. cbn [bind]. eauto.
      * rewrite Hm. reflexivity.
    + rewrite Hl. reflexivity.
  - contradiction.
Qed.

Lemma unknown_type_encodable b : findTemplate (type b) = None -> encodable b = true.
Proof.
  intros H. unfold findTemplate, badgeTemplates in H.
  unfold npmVersionTemplate, npmDownloadsTemplate, githubStarsTemplate,
    githubForksTemplate, githubIssuesTemplate, githubLicenseTemplate,
    buildStatusTemplate, coverageTemplate, licenseTemplate, customTemplate in H.
  cbn [find t_type] in H.
  repeat match type of H with
         | (if ?c then _ else _) = None => destruct c eqn:?; [discriminate|]
         end.
  unfold encodable.
  rewrite (JSString_eqb_sym (type b) `"license"), (JSString_eqb_sym (type b) `"custom").
  match goal with
  | E1 : JSString.eqb `"license" (type b) = false,
    E2 : JSString.eqb `"custom" (type b) = false |- _ => rewrite E1, E2
  end.
  reflexivity.
Qed.

Lemma badgeSnippets_result bs :
  if forallb encodable bs
  then exists snippets, badgeSnippets bs = Normal snippets
  else badgeSnippets bs = Throw URIError.
Proof.
  induction bs as [|b bs IH]; cbn [forallb badgeSnippets]; [eauto|].
  destruct (findTemplate (type b)) as [t|] eqn:Et.
  - pose proof (render_result b t Et) as Hr.
    destruct (encodable b); cbn [andb].
    + destruct Hr as [md ->]. cbn [bind].
      destruct (forallb encodable bs).
      * destruct IH as [rest ->]. cbn [bind]. eauto.
      * rewrite IH. reflexivity.
    + rewrite Hr. reflexivity.
  - rewrite (unknown_type_encodable b Et). cbn [andb]. exact IH.
Qed.

Lemma readme_or_placeholder_nonempty (doc : jsstring) :
  (if nonEmpty doc then doc else placeholder) <> [].
Proof.
  destruct (nonEmpty doc) eqn:E; [|discriminate].
  intros ->. discriminate.
Qed.

Lemma generateReadme_result f :
  if forallb encodable (badges f)
  then exists s, generateReadme f = Normal s /\ s <> []
  else generateReadme f = Throw URIError.
Proof.
  rewrite generateReadme_sections. unfold compose.
  pose proof (badgeSnippets_result (badges f)) as H.
  destruct (forallb encodable (badges f)).
  - destruct H as [snippets ->]. cbn [bind]. eexists. split; [reflexivity|].
    apply readme_or_placeholder_nonempty.
  - rewrite H. reflexivity.
Qed.

(** C7 (as stated) fails: a custom badge whose label is an unpaired
    surrogate makes [generateReadme] throw URIError, so with a project name
    filled in, the source field of the title section, no title section and
    no document at all is emitted. *)
Lemma readme_sections_counterexample :
  projectName loneSurrogateFields <> []
  /\ titleSection loneSurrogateFields <> []
  /\ generateReadme loneSurrogateFields = Throw URIError
  /\ ~ emitsSections loneSurrogateFields.
Proof.
  assert (H : generateReadme loneSurrogateFields = Throw URIError)
    by (vm_compute; reflexivity).
  split; [discriminate|]. split; [discriminate|]. split; [exact H|].
  intros [snippets Hs]. rewrite H in Hs. discriminate.
Qed.

(** C7 (amended).  For a field set whose license and custom badges hold
    well-formed text (no unpaired surrogate in what they encode),
    [generateReadme] returns the sections title, badges, description,
    features, installation, usage, contributing, license, author in this
    order (the placeholder when all of them are empty); for every other
    field set it throws URIError and emits nothing.  Each section is empty
    exactly when its source field is empty.  The features section lists
    each non-blank line of the field as one item, in line order, blank
    lines dropped; installation and usage are fenced code blocks; the
    license section is a single line for one selected license and a
    bulleted list for several. *)
Theorem readme_sections_in_fixed_order (f : Fields) :
  (forallb encodable (badges f) = true ->
     exists snippets,
       badgeSnippets (badges f) = Normal snippets
       /\ generateReadme f
          = Normal (let doc :=
                      titleSection f ++ badgesSection snippets f
                      ++ descriptionSection f ++ featuresSection f
                      ++ installationSection f ++ usageSection f
                      ++ contributingSection f ++ licenseSection f
                      ++ authorSection f in
                    if nonEmpty doc then doc else placeholder))
  /\ (forallb encodable (badges f) = false -> generateReadme f = Throw URIError)
  /\ (titleSection f = [] <-> projectName f = [])
  /\ (forall snippets, badgesSection snippets f = [] <-> badges f = [])
  /\ (descriptionSection f = [] <-> description f = [])
  /\ (featuresSection f = [] <-> features f = [])
  /\ (installationSection f = [] <-> installation f = [])
  /\ (usageSection f = [] <-> usage f = [])
  /\ (contributingSection f = [] <-> contributing f = [])
  /\ (licenseSection f = [] <-> selectedLicenses f = [])
  /\ (authorSection f = [] <-> author f = [])
  /\ (features f <> [] ->
      featuresSection f
      = heading "Features"
        ++ concat (map (fun line => `"- " ++ JSString.trim line ++ nl)
                       (filter nonBlank (JSString.split 10 (features f))))
        ++ nl)
  /\ (installation f <> [] ->
      installationSection f
      = heading "Installation" ++ fence ++ `"bash" ++ nl ++ installation f ++ nl
        ++ fence ++ nl ++ nl)
  /\ (usage f <> [] ->
      usageSection f
      = heading "Usage" ++ fence ++ `"bash" ++ nl ++ usage f ++ nl
        ++ fence ++ nl ++ nl)
  /\ (forall license, selectedLicenses f = [license] ->
      licenseSection f
      = heading "License" ++ `"This project is licensed under the " ++ license
        ++ `" License." ++ nl ++ nl)
  /\ (forall l1 l2 more, selectedLicenses f = l1 :: l2 :: more ->
      licenseSection f
      = heading "License" ++ `"This project is licensed under multiple licenses:"
        ++ nl ++ nl
        ++ concat (map (fun license => `"- " ++ license ++ nl) (l1 :: l2 :: more))
        ++ nl).
Proof.
  pose proof (badgeSnippets_result (badges f)) as H.
  pose proof (generateReadme_in_order f) as Hg.
  split; [|split; [|exact (section_layout f)]]; intros E; rewrite E in H.
  - destruct H as [snippets Hs]. exists snippets. split; [exact Hs|].
    rewrite Hg, Hs. reflexivity.
  - rewrite Hg, H. reflexivity.
Qed.

Lemma readme_sections_in_fixed_order_witness :
  forallb encodable (badges demoFields) = true
  /\ generateReadme demoFields = Normal demoReadme
  /\ featuresSection demoFields
     = heading "Features" ++ `"- fast" ++ nl ++ `"- small" ++ nl ++ nl
  /\ forallb encodable (badges loneSurrogateFields) = false
  /\ generateReadme loneSurrogateFields = Throw URIError.
Proof.
  destruct (readme_sections_in_fixed_order demoFields)
    as (Hdoc & _ & _ & _ & _ & _ & _ & _ & _ & _ & _ & Hfeat & _).
  split; [reflexivity|]. split; [|split; [|split; [reflexivity|]]].
  - destruct (Hdoc eq_refl) as (snippets & Hs & Hg).
    vm_compute in Hs. injection Hs as <-. rewrite Hg. vm_compute. reflexivity.
  - rewrite (Hfeat ltac:(discriminate)). vm_compute. reflexivity.
  - exact (proj1 (proj2 (readme_sections_in_fixed_order loneSurrogateFields))
             eq_refl).
Defined.

(** C8 (as stated) fails: [generateReadme] is not total.  With a custom
    badge whose label is an unpaired surrogate, [encodeURIComponent] throws
    URIError and no string is returned. *)
Lemma generateReadme_lone_surrogate_counterexample :
  generateReadme loneSurrogateFields = Throw URIError
  /\ ~ (exists s, generateReadme loneSurrogateFields = Normal s /\ s <> []).
Proof.
  assert (H : generateReadme loneSurrogateFields = Throw URIError)
    by (vm_compute; reflexivity).
  split; [exact H|]. intros (s & Hs & _). rewrite H in Hs. discriminate.
Qed.

(** C8 (amended). [generateReadme] returns a non-empty string for every
    field set whose license and custom badges hold well-formed text (no
    unpaired surrogate in the encoded identifier, label or message), and
    throws URIError for every other field set; it never returns the empty
    string; for the all-empty field set it returns exactly the placeholder
    document. *)
Theorem generateReadme_nonempty (f : Fields) :
  (forallb encodable (badges f) = true ->
     exists s, generateReadme f = Normal s /\ s <> [])
  /\ (forallb encodable (badges f) = false -> generateReadme f = Throw URIError)
  /\ (forall s, generateReadme f = Normal s -> s <> [])
  /\ (allEmpty f -> generateReadme f = Normal placeholder).
Proof.
  pose proof (generateReadme_result f) as H.
  split; [|split; [|split]].
  - intros E. now rewrite E in H.
  - intros E. now rewrite E in H.
  - intros s Hs. destruct (forallb encodable (badges f)).
    + destruct H as (s' & Hs' & Hne). congruence.
    + congruence.
  - intros (H1 & H2 & H3 & H4 & H5 & H6 & H7 & H8 & H9).
    destruct f. cbn in H1, H2, H3, H4, H5, H6, H7, H8, H9. subst. reflexivity.
Qed.

Lemma generateReadme_nonempty_witness :
  (exists s, generateReadme demoFields = Normal s /\ s <> [])
  /\ generateReadme loneSurrogateFields = Throw URIError
  /\ generateReadme emptyFields = Normal placeholder.
Proof.
  split; [|split].
  - exact (proj1 (generateReadme_nonempty demoFields) eq_refl).
  - exact (proj1 (proj2 (generateReadme_nonempty loneSurrogateFields)) eq_refl).
  - apply (proj2 (proj2 (proj2 (generateReadme_nonempty emptyFields)))).
    repeat split.
Defined.

(** ** The badge templates *)

Lemma nonCustom_templates :
  nonCustom
  = ofTypes [`"npm-version"; `"npm-downloads"; `"github-stars"; `"github-forks";
             `"github-issues"; `"github-license"]
    ++ ofTypes [`"build-status"; `"coverage"] ++ ofTypes [`"license"].
Proof. reflexivity. Qed.

(** C9 (as stated) fails: the build-status template is not the custom one,
    yet its output does not contain the identifier: it is the same string
    for every identifier. *)
Lemma build_status_ignores_identifier_counterexample :
  In buildStatusTemplate nonCustom
  /\ ignoresIdentifier buildStatusTemplate
  /\ ~ embedsIdentifier buildStatusTemplate.
Proof.
  split; [|split].
  - unfold nonCustom, badgeTemplates. cbn. auto 10.
  - intros url url' l m c. reflexivity.
  - intros (pre & post & H).
    pose proof (H [] None None None) as H0.
    pose proof (H `"x" None None None) as H1.
    change (render buildStatusTemplate `"x" None None None)
      with (render buildStatusTemplate [] None None None) in H1.
    rewrite H0 in H1. injection H1 as H1.
    apply (f_equal (@length N)) in H1. rewrite !length_app in H1.
    cbn [length] in H1. lia.
Qed.

(** C9 (amended). Of the ten templates only the custom one uses the label,
    message and color arguments; the other nine ignore them.  The six
    npm and github templates embed the identifier as it is in a fixed
    string; the license template embeds the URI-encoded identifier; the
    build-status and coverage templates ignore the identifier too and
    render one fixed string. *)
Theorem noncustom_templates_ignore_overrides :
  Forall ignoresOverrides nonCustom
  /\ length nonCustom = 9
  /\ Forall embedsIdentifier
       (ofTypes [`"npm-version"; `"npm-downloads"; `"github-stars"; `"github-forks";
                 `"github-issues"; `"github-license"])
  /\ Forall embedsEncodedIdentifier (ofTypes [`"license"])
  /\ Forall rendersConstant (ofTypes [`"build-status"; `"coverage"])
  /\ render customTemplate `"x" (Some `"a") None None
     <> render customTemplate `"x" (Some `"b") None None
  /\ render customTemplate `"x" None (Some `"a") None
     <> render customTemplate `"x" None (Some `"b") None
  /\ render customTemplate `"x" None None (Some `"red")
     <> render customTemplate `"x" None None (Some `"green")
  /\ render githubStarsTemplate `"facebook/react" None None None
     = Normal `"![GitHub stars](https://img.shields.io/github/stars/facebook/react)".
Proof.
  split.
  { unfold nonCustom, badgeTemplates. cbn [filter].
    repeat constructor; intros url l m c l' m' c'; reflexivity. }
  split; [reflexivity|].
  split.
  { repeat constructor.
    - exists (`"![npm]" ++ shields ++ `"npm/v/"), `")". intros. unfold render. cbn [generateMarkdown npmVersionTemplate]. now rewrite <- !app_assoc.
    - exists (`"![npm]" ++ shields ++ `"npm/dm/"), `")". intros. unfold render. cbn [generateMarkdown npmDownloadsTemplate]. now rewrite <- !app_assoc.
    - exists (`"![GitHub stars]" ++ shields ++ `"github/stars/"), `")". intros. unfold render. cbn [generateMarkdown githubStarsTemplate]. now rewrite <- !app_assoc.
    - exists (`"![GitHub forks]" ++ shields ++ `"github/forks/"), `")". intros. unfold render. cbn [generateMarkdown githubForksTemplate]. now rewrite <- !app_assoc.
    - exists (`"![GitHub issues]" ++ shields ++ `"github/issues/"), `")". intros. unfold render. cbn [generateMarkdown githubIssuesTemplate]. now rewrite <- !app_assoc.
    - exists (`"![GitHub license]" ++ shields ++ `"github/license/"), `")". intros. unfold render. cbn [generateMarkdown githubLicenseTemplate]. now rewrite <- !app_assoc. }
  split.
  { repeat constructor.
    exists (`"![License]" ++ shields ++ `"badge/license-"), `"-blue)".
    intros u l m c. unfold render. cbn [generateMarkdown licenseTemplate].
    destruct (URI.encodeURIComponent u); cbn [bind]; [|reflexivity].
    now rewrite <- !app_assoc. }
  split.
  { repeat constructor; eexists; intros; reflexivity. }
  repeat split; try (vm_compute; discriminate).
Qed.

(* ================================================================== *)
(** * Further properties of the code *)

Import AnalysisSpec UpdateSpec CheckerSpec FormSpec.

Import DependencyChecker Spec RoundTrip LatestSpec.
Import AnalysisSpec UpdateSpec CheckerSpec FormSpec.

(** ** When the update to latest fails *)

Lemma notUpdatable_throws text :
  notUpdatable text ->
  rewriteAllVersionsToLatest text = Throw SyntaxError
  \/ rewriteAllVersionsToLatest text = Throw TypeError.
Proof.
  intros [H | [H | (parsed & H & Hs)]].
  - left. unfold rewriteAllVersionsToLatest, JSON.parse. rewrite H. reflexivity.
  - right. unfold rewriteAllVersionsToLatest, JSON.parse. rewrite H. reflexivity.
  - right. apply (stringSection_rewrite text parsed); [|exact Hs].
    unfold JSON.parse. rewrite H. reflexivity.
Qed.

(** X1. On a text that is not JSON, on [null] and on a manifest one of
    whose three dependency sections is a non-empty string (in strict mode
    the index of a string cannot be assigned) the update to latest throws,
    SyntaxError or TypeError, and [updateToLatestVersions] does nothing but
    show its error toast: the text, the records, the summary, the
    [isAnalyzing] flag and the pending timers stay as they were. *)
Theorem update_fails_untouched (app : CheckerApp.App) :
  notUpdatable (st_packageJson (CheckerApp.ui app)) ->
  (rewriteAllVersionsToLatest (st_packageJson (CheckerApp.ui app)) = Throw SyntaxError
   \/ rewriteAllVersionsToLatest (st_packageJson (CheckerApp.ui app)) = Throw TypeError)
  /\ DependencyChecker.updateToLatestVersions (CheckerApp.ui app)
     = showToast updateFailed (CheckerApp.ui app)
  /\ CheckerApp.updateToLatestVersions app
     = CheckerApp.withUi (showToast updateFailed) app
  /\ (let app' := CheckerApp.updateToLatestVersions app in
      st_packageJson (CheckerApp.ui app') = st_packageJson (CheckerApp.ui app)
      /\ st_dependencies (CheckerApp.ui app') = st_dependencies (CheckerApp.ui app)
      /\ st_analysis (CheckerApp.ui app') = st_analysis (CheckerApp.ui app)
      /\ st_isAnalyzing (CheckerApp.ui app') = st_isAnalyzing (CheckerApp.ui app)
      /\ st_toasts (CheckerApp.ui app')
         = st_toasts (CheckerApp.ui app) ++ [updateFailed]
      /\ CheckerApp.timers app' = CheckerApp.timers app).
Proof.
  intros H. pose proof (notUpdatable_throws _ H) as Ht.
  split; [exact Ht|].
  unfold DependencyChecker.updateToLatestVersions, CheckerApp.updateToLatestVersions.
  destruct Ht as [-> | ->]; repeat split.
Qed.

Lemma update_fails_untouched_witness :
  notUpdatable stringSectionExample
  /\ notUpdatable `"null"
  /\ notUpdatable `"{"
  /\ CheckerApp.updateToLatestVersions stringSectionApp
     = CheckerApp.withUi (showToast updateFailed) stringSectionApp.
Proof.
  assert (H : notUpdatable stringSectionExample).
  { right. right. eexists. split; vm_compute; reflexivity. }
  split; [exact H|]. split; [right; left; vm_compute; reflexivity|].
  split; [left; vm_compute; reflexivity|].
  exact (proj1 (proj2 (proj2 (update_fails_untouched stringSectionApp H)))).
Defined.

(** ** The record list and the section counts *)

Lemma sectionSize_entries parsed key n :
  sectionSize parsed key = Normal n -> n = length (sectionEntries parsed key).
Proof.
  unfold sectionSize, sectionEntries.
  destruct parsed as [| | | | |props]; cbn [getProperty bind]; try discriminate;
    try (now intros [= <-]).
  destruct (Object.lookup key props) as [sec|]; [|now intros [= <-]].
  destruct (truthy (Some sec)) eqn:Ht; [|now intros [= <-]].
  unfold Object.keys. rewrite (entries_truthy _ Ht). cbn [bind].
  intros [= <-]. now rewrite length_map.
Qed.

(** What an accepted analysis lists and counts. *)
Lemma analyzeParsed_records parsed ds a :
  analyzeParsed parsed = Normal (ds, a) ->
  ds = records parsed
  /\ total a = length ds
  /\ dependencies a = length (sectionEntries parsed `"dependencies")
  /\ devDependencies a = length (sectionEntries parsed `"devDependencies")
  /\ peerDependencies a = length (sectionEntries parsed `"peerDependencies").
Proof.
  unfold analyzeParsed. intros H.
  destruct (extract parsed `"dependencies" _ _) as [acc1|] eqn:E1; cbn [bind] in H; [|discriminate].
  destruct (extract parsed `"devDependencies" _ _) as [acc2|] eqn:E2; cbn [bind] in H; [|discriminate].
  destruct (extract parsed `"peerDependencies" _ _) as [acc3|] eqn:E3; cbn [bind] in H; [|discriminate].
  destruct (getProperty parsed `"name") as [pn|]; cbn [bind] in H; [|discriminate].
  destruct (getProperty parsed `"version") as [pv|]; cbn [bind] in H; [|discriminate].
  destruct (sectionSize parsed `"dependencies") as [n1|] eqn:S1; cbn [bind] in H; [|discriminate].
  destruct (sectionSize parsed `"devDependencies") as [n2|] eqn:S2; cbn [bind] in H; [|discriminate].
  destruct (sectionSize parsed `"peerDependencies") as [n3|] eqn:S3; cbn [bind] in H; [|discriminate].
  injection H as <- <-. cbn [total dependencies devDependencies peerDependencies].
  apply extract_deps in E1, E2, E3. cbn [deps app] in E1.
  apply sectionSize_entries in S1, S2, S3.
  repeat split; try assumption.
  unfold records. rewrite E3, E2, E1, <- app_assoc. reflexivity.
Qed.

Lemma ofType_sectionRecords ty ty' parsed key :
  ofType ty (sectionRecords parsed key ty')
  = if sameType ty' ty then sectionRecords parsed key ty' else [].
Proof.
  unfold ofType, sectionRecords.
  induction (sectionEntries parsed key) as [|e es IH]; cbn [map filter toRecord type].
  - now destruct (sameType ty' ty).
  - rewrite IH. now destruct (sameType ty' ty).
Qed.

Lemma ofType_app ty a b : ofType ty (a ++ b) = ofType ty a ++ ofType ty b.
Proof. apply filter_app. Qed.

(** X2. In every accepted analysis the record list is the entries of the
    [dependencies], [devDependencies] and [peerDependencies] sections, in
    this order and each in the order of its keys; a record takes its name
    from the key, its version from the value (a string) and its type from
    the section. *)
Theorem analyze_records_in_section_order text parsed ds a :
  JSON.parse text = Normal parsed ->
  analyze text = Normal (ds, a) ->
  ds = map (toRecord Dependencies) (sectionEntries parsed `"dependencies")
       ++ map (toRecord DevDependencies) (sectionEntries parsed `"devDependencies")
       ++ map (toRecord PeerDependencies) (sectionEntries parsed `"peerDependencies")
  /\ (forall key, In key sectionKeys ->
       Forall (fun e => isString (snd e) = true) (sectionEntries parsed key)).
Proof.
  intros Hp H. apply analyze_inv in H
    as (parsed' & acc1 & acc2 & acc3 & pn & pv & Hp' & E1 & E2 & E3 & _ & _ & -> & _).
  rewrite Hp in Hp'. injection Hp' as <-. split.
  - rewrite (extract_deps _ _ _ _ _ E3), (extract_deps _ _ _ _ _ E2),
      (extract_deps _ _ _ _ _ E1). cbn [deps app]. now rewrite <- app_assoc.
  - intros key [<- | [<- | [<- | []]]].
    + exact (extract_strings _ _ _ _ _ E1).
    + exact (extract_strings _ _ _ _ _ E2).
    + exact (extract_strings _ _ _ _ _ E3).
Qed.

Lemma analyze_records_in_section_order_witness :
  JSON.parse manifestExample = Normal manifestExampleParsed
  /\ analyze manifestExample = Normal (manifestExampleRecords, manifestExampleSummary)
  /\ manifestExampleRecords
     = map (toRecord Dependencies) (sectionEntries manifestExampleParsed `"dependencies")
       ++ map (toRecord DevDependencies)
            (sectionEntries manifestExampleParsed `"devDependencies")
       ++ map (toRecord PeerDependencies)
            (sectionEntries manifestExampleParsed `"peerDependencies").
Proof.
  split; [exact manifestExample_parse|]. split; [exact manifestExample_analysis|].
  exact (proj1 (analyze_records_in_section_order manifestExample manifestExampleParsed
                  manifestExampleRecords manifestExampleSummary
                  manifestExample_parse manifestExample_analysis)).
Defined.

(** X3. The three section counts of an accepted analysis are the numbers of
    records of each type, so they add up to [total]. *)
Theorem analyze_section_counts text ds a :
  analyze text = Normal (ds, a) ->
  dependencies a = length (ofType Dependencies ds)
  /\ devDependencies a = length (ofType DevDependencies ds)
  /\ peerDependencies a = length (ofType PeerDependencies ds)
  /\ total a = dependencies a + devDependencies a + peerDependencies a.
Proof.
  unfold analyze. intros H.
  destruct (JSON.parse text) as [parsed|]; cbn [bind] in H; [|discriminate].
  apply analyzeParsed_records in H as (-> & Ht & H1 & H2 & H3).
  unfold records. rewrite !ofType_app, !ofType_sectionRecords. cbn [sameType]. rewrite !app_nil_r. cbn [app].
  rewrite Ht. unfold records. rewrite !length_app.
  unfold sectionRecords. rewrite !length_map. lia.
Qed.

Lemma analyze_section_counts_witness :
  analyze manifestExample = Normal (manifestExampleRecords, manifestExampleSummary)
  /\ total manifestExampleSummary
     = dependencies manifestExampleSummary + devDependencies manifestExampleSummary
       + peerDependencies manifestExampleSummary.
Proof.
  split; [exact manifestExample_analysis|].
  exact (proj2 (proj2 (proj2 (analyze_section_counts manifestExample _ _
                                manifestExample_analysis)))).
Defined.

(** ** No package is listed twice in a section *)

Lemma wfKeys_NoDup keys : wfKeys keys -> NoDup keys.
Proof.
  unfold wfKeys. induction 1 as [|k keys Hk _ IH]; constructor; [|exact IH].
  intros Hin. rewrite Forall_forall in Hk. exact (keyBefore_neq _ _ (Hk _ Hin) eq_refl).
Qed.

Lemma indexed_keys {A} (l : list A) : forall i,
  map fst (Object.indexed i l) = map JSString.ofNat (seq i (length l)).
Proof.
  induction l as [|x l IH]; intros i; cbn [Object.indexed map fst length seq];
    [reflexivity|]. now rewrite IH.
Qed.

Lemma ofNat_inj a b : JSString.ofNat a = JSString.ofNat b -> a = b.
Proof.
  unfold JSString.ofNat. intros H.
  apply (f_equal JSString.digitsValue) in H. rewrite !digitsValue_ofN in H. lia.
Qed.

Lemma NoDup_map_injective {A B} (f : A -> B) (l : list A) :
  (forall a b, f a = f b -> a = b) -> NoDup l -> NoDup (map f l).
Proof.
  intros Hf. induction 1 as [|x l Hx _ IH]; cbn [map]; constructor; [|exact IH].
  intros Hin. apply in_map_iff in Hin as (y & Hy & Hin).
  apply Hf in Hy. subst y. contradiction.
Qed.

Lemma indexed_NoDup {A} (l : list A) i : NoDup (map fst (Object.indexed i l)).
Proof.
  rewrite indexed_keys. apply NoDup_map_injective; [|apply seq_NoDup].
  intros a b. apply ofNat_inj.
Qed.

Lemma sectionEntries_NoDup parsed key :
  wfValue parsed -> NoDup (map fst (sectionEntries parsed key)).
Proof.
  intros Hwf. unfold sectionEntries.
  destruct parsed as [| | | | |props]; try constructor.
  destruct (Object.lookup key props) as [sec|] eqn:El; [|constructor].
  destruct (truthy (Some sec)); [|constructor].
  apply wfValue_object in Hwf as [_ Hvals].
  pose proof (lookup_wf key props sec Hvals El) as Hsec.
  unfold entriesOf. destruct sec as [| | | | elems | props']; cbn [Object.entries];
    try constructor.
  - apply indexed_NoDup.
  - apply indexed_NoDup.
  - apply wfValue_object in Hsec as [Hk _]. now apply wfKeys_NoDup.
Qed.

(** X4. Within one section no package name is listed twice: the names of
    the records of each type are pairwise distinct. *)
Theorem analyze_names_distinct text ds a :
  analyze text = Normal (ds, a) ->
  forall ty, NoDup (map name (ofType ty ds)).
Proof.
  intros H ty. unfold analyze, JSON.parse in H.
  destruct (JSON.parseText text) as [parsed|] eqn:Hp; cbn [bind] in H; [|discriminate].
  apply parseText_wf in Hp.
  apply analyzeParsed_records in H as (-> & _).
  unfold records. rewrite !ofType_app, !ofType_sectionRecords.
  assert (Hn : forall key ty', NoDup (map name (sectionRecords parsed key ty'))).
  { intros key ty'. unfold sectionRecords. rewrite map_map. cbn [toRecord name].
    now apply sectionEntries_NoDup. }
  destruct ty; cbn [sameType]; rewrite ?app_nil_r; cbn [app]; apply Hn.
Qed.

Lemma repeatedKeyExample_analysis :
  analyze repeatedKeyExample = Normal (repeatedKeyRecords, repeatedKeySummary).
Proof. vm_compute. reflexivity. Qed.

Lemma analyze_names_distinct_witness :
  analyze repeatedKeyExample = Normal (repeatedKeyRecords, repeatedKeySummary)
  /\ NoDup (map name (ofType Dependencies repeatedKeyRecords)).
Proof.
  split; [exact repeatedKeyExample_analysis|].
  exact (analyze_names_distinct repeatedKeyExample _ _ repeatedKeyExample_analysis
           Dependencies).
Defined.

Import DependencyChecker Spec RoundTrip LatestSpec.
Import AnalysisSpec UpdateSpec CheckerSpec FormSpec.

(** ** The value of the update to latest *)

Lemma setAllLatest_value sec sec' :
  wfValue sec -> truthy (Some sec) = true ->
  setAllLatest sec = Normal sec' -> sec' = latestSection sec.
Proof.
  intros Hwf Ht. unfold setAllLatest, Object.keys.
  change (JString `"latest") with latestVersion.
  destruct sec as [| b | x | s | elems | props]; cbn [Object.entries bind latestSection].
  - discriminate.
  - cbn [map forEach]. now intros [= <-].
  - cbn [map forEach]. now intros [= <-].
  - destruct s as [|c s]; [discriminate|]. cbn. discriminate.
  - pose proof (forEach_assign_array elems []) as H. cbn [length map app] in H.
    rewrite H. now intros [= <-].
  - apply wfValue_object in Hwf as [Hkeys _].
    pose proof (forEach_assign_object props [] Hkeys) as H. cbn [map app] in H.
    rewrite H. now intros [= <-].
Qed.

Lemma map_absent_key key (g : jsstring * value -> jsstring * value)
      (props : properties) :
  (forall kv, JSString.eqb (fst kv) key = false -> g kv = kv) ->
  ~ In key (map fst props) -> map g props = props.
Proof.
  intros Hg. induction props as [|[k v] props IH]; cbn [map fst]; intros Hn;
    [reflexivity|].
  rewrite IH by (intros Hin; apply Hn; now right).
  rewrite Hg; [reflexivity|]. cbn [fst].
  destruct (JSString.eqb k key) eqn:E; [|reflexivity].
  apply JSString_eqb_eq in E. subst k. exfalso. apply Hn. now left.
Qed.

Lemma lookup_absent key (props : properties) :
  Object.lookup key props = None -> ~ In key (map fst props).
Proof.
  induction props as [|[k v] props IH]; cbn [Object.lookup map fst In]; [tauto|].
  destruct (JSString.eqb k key) eqn:E; [discriminate|].
  intros H [Hk | Hin]; [|exact (IH H Hin)].
  subst k. now rewrite JSString_eqb_refl in E.
Qed.

(** With distinct keys, writing the field [key] maps over the fields. *)
Lemma update_as_map key (g : value -> value) sec (props : properties) :
  NoDup (map fst props) ->
  Object.lookup key props = Some sec ->
  Object.update key (g sec) props
  = map (fun kv => if JSString.eqb (fst kv) key then (fst kv, g (snd kv)) else kv)
        props.
Proof.
  induction props as [|[k v] props IH]; cbn [map fst snd Object.update Object.lookup];
    intros Hn; [discriminate|].
  inversion Hn as [|? ? Hk Hn']; subst.
  destruct (JSString.eqb k key) eqn:E.
  - intros [= ->]. apply JSString_eqb_eq in E. subst k. f_equal. symmetry.
    apply (map_absent_key key); [|exact Hk]. now intros kv ->.
  - intros H. now rewrite (IH Hn' H).
Qed.

Lemma updateSection_value v key v' :
  wfValue v -> updateSection v key = Normal v' -> v' = latestAt key v.
Proof.
  intros Hwf. unfold updateSection, latestAt.
  destruct v as [| b | x | s | elems | props]; cbn [getProperty bind];
    try discriminate; try (now intros [= <-]).
  apply wfValue_object in Hwf as [Hkeys Hvals].
  pose proof (wfKeys_NoDup _ Hkeys) as Hnd.
  destruct (Object.lookup key props) as [sec|] eqn:El.
  2: { intros [= <-]. f_equal. symmetry.
       apply (map_absent_key key); [|exact (lookup_absent _ _ El)].
       now intros kv ->. }
  pose proof (update_as_map key
                (fun w => if truthy (Some w) then latestSection w else w)
                sec props Hnd El) as Hmap.
  cbv beta in Hmap.
  assert (Hgoal : Object.update key (if truthy (Some sec) then latestSection sec else sec)
                    props
                  = map (fun kv =>
                           if JSString.eqb (fst kv) key && truthy (Some (snd kv))
                           then (fst kv, latestSection (snd kv)) else kv) props).
  { rewrite Hmap. apply map_ext. intros [k w]. cbn [fst snd].
    destruct (JSString.eqb k key); cbn [andb]; [|reflexivity].
    now destruct (truthy (Some w)). }
  destruct (truthy (Some sec)) eqn:Ht.
  - destruct (setAllLatest sec) as [sec'|] eqn:Es; cbn [bind]; [|discriminate].
    intros [= <-]. f_equal.
    rewrite (setAllLatest_value sec sec' (lookup_wf key props sec Hvals El) Ht Es).
    exact Hgoal.
  - intros [= <-]. f_equal. rewrite <- Hgoal.
    clear Hmap Hgoal. revert El. clear.
    induction props as [|[k w] props IH]; cbn [Object.lookup Object.update];
      [discriminate|].
    destruct (JSString.eqb k key); [now intros [= ->]|].
    intros H. now rewrite <- IH.
Qed.

Ltac eval_literal_eqb :=
  repeat match goal with
         | |- context [JSString.eqb (JSString.lit ?a) (JSString.lit ?b)] =>
             let r := eval vm_compute in (JSString.eqb (JSString.lit a) (JSString.lit b)) in
             change (JSString.eqb (JSString.lit a) (JSString.lit b)) with r
         end.

Lemma latestAt_sections v :
  latestAt `"peerDependencies" (latestAt `"devDependencies" (latestAt `"dependencies" v))
  = latestManifest v.
Proof.
  destruct v as [| b | x | s | elems | props]; try reflexivity.
  cbn [latestAt latestManifest]. f_equal. rewrite !map_map. apply map_ext.
  intros [k w]. unfold latestProp, latestValue, JSString.includes, sectionKeys.
  cbn [existsb fst snd].
  destruct (JSString.eqb k `"dependencies") eqn:E1.
  { apply JSString_eqb_eq in E1. subst k. cbn [orb andb].
    destruct (truthy (Some w)); cbn [fst snd]; eval_literal_eqb; reflexivity. }
  cbn [orb andb fst snd].
  destruct (JSString.eqb k `"devDependencies") eqn:E2.
  { apply JSString_eqb_eq in E2. subst k. cbn [orb andb].
    destruct (truthy (Some w)); cbn [fst snd]; eval_literal_eqb; reflexivity. }
  cbn [orb andb fst snd].
  destruct (JSString.eqb k `"peerDependencies") eqn:E3; cbn [orb andb]; [|reflexivity].
  now destruct (truthy (Some w)).
Qed.

Lemma updateSections_value v v' :
  wfValue v -> updateSections v = Normal v' -> v' = latestManifest v.
Proof.
  intros Hwf. unfold updateSections.
  destruct (updateSection v `"dependencies") as [v1|] eqn:E1; cbn [bind]; [|discriminate].
  destruct (updateSection v1 `"devDependencies") as [v2|] eqn:E2; cbn [bind]; [|discriminate].
  intros E3.
  destruct (updateSection_result _ _ _ Hwf E1) as (W1 & _).
  destruct (updateSection_result _ _ _ W1 E2) as (W2 & _).
  rewrite (updateSection_value _ _ _ W2 E3), (updateSection_value _ _ _ W1 E2),
    (updateSection_value _ _ _ Hwf E1).
  apply latestAt_sections.
Qed.

Lemma norm_keys_latest props :
  map fst (map normProp (map latestProp props)) = map fst props.
Proof. rewrite !map_map. reflexivity. Qed.

(** X5. When the update to latest returns a text, it is the pretty-printed
    manifest in which every value of each truthy dependency section has
    been replaced by [latest] and nothing else has changed; read back, it
    has the fields of the original manifest in the original order. *)
Theorem rewrite_value text parsed updated :
  JSON.parse text = Normal parsed ->
  rewriteAllVersionsToLatest text = Normal updated ->
  updated = JSON.stringify (latestManifest parsed)
  /\ JSON.parse updated = Normal (norm (latestManifest parsed))
  /\ (forall props, parsed = JObject props ->
      exists props', JSON.parse updated = Normal (JObject props')
                     /\ map fst props' = map fst props).
Proof.
  intros Hparse Hrw.
  destruct (rewrite_inv text updated Hrw) as (parsed' & v & Hp & Hu & ->).
  unfold JSON.parse in Hparse. rewrite Hp in Hparse. injection Hparse as ->.
  pose proof (parseText_wf text parsed Hp) as Hwf.
  destruct (updateSections_result parsed v Hwf Hu) as (Hwf' & _).
  rewrite (updateSections_value parsed v Hwf Hu) in *.
  assert (Hback : JSON.parse (JSON.stringify (latestManifest parsed))
                  = Normal (norm (latestManifest parsed))).
  { unfold JSON.parse. now rewrite (parseText_stringify _ Hwf'). }
  split; [reflexivity|]. split; [exact Hback|].
  intros props ->. rewrite Hback. cbn [latestManifest norm].
  eexists. split; [reflexivity|].
  change (fun kv : jsstring * value => (fst kv, norm (snd kv))) with normProp.
  apply norm_keys_latest.
Qed.

Lemma rewrite_value_witness :
  JSON.parse manifestExample = Normal manifestExampleParsed
  /\ rewriteAllVersionsToLatest manifestExample = Normal manifestExampleLatest
  /\ manifestExampleLatest = JSON.stringify (latestManifest manifestExampleParsed)
  /\ JSON.parse manifestExampleLatest
     = Normal (norm (latestManifest manifestExampleParsed)).
Proof.
  split; [exact manifestExample_parse|]. split; [exact manifestExample_rewrite|].
  destruct (rewrite_value manifestExample manifestExampleParsed manifestExampleLatest
              manifestExample_parse manifestExample_rewrite) as (H1 & H2 & _).
  exact (conj H1 H2).
Defined.

Import DependencyChecker Spec RoundTrip LatestSpec.
Import AnalysisSpec UpdateSpec CheckerSpec FormSpec.

(** ** The manifest after the update, read back *)

Lemma lookup_map_value (h : jsstring -> value -> value) key (props : properties) :
  Object.lookup key (map (fun kv => (fst kv, h (fst kv) (snd kv))) props)
  = option_map (h key) (Object.lookup key props).
Proof.
  induction props as [|[k v] props IH]; cbn [map Object.lookup fst snd option_map];
    [reflexivity|].
  destruct (JSString.eqb k key) eqn:E; [|exact IH].
  apply JSString_eqb_eq in E. now subst k.
Qed.

Lemma lookup_norm_latest key (props : properties) :
  Object.lookup key (map normProp (map latestProp props))
  = option_map (fun v => norm (latestValue key v)) (Object.lookup key props).
Proof.
  rewrite map_map.
  exact (lookup_map_value (fun k v => norm (latestValue k v)) key props).
Qed.

Lemma indexed_map {A B} (f : A -> B) (l : list A) : forall i,
  Object.indexed i (map f l)
  = map (fun kv => (fst kv, f (snd kv))) (Object.indexed i l).
Proof.
  induction l as [|x l IH]; intros i; cbn [map Object.indexed fst snd];
    [reflexivity|]. now rewrite IH.
Qed.

Lemma map_norm_toLatest (props : properties) :
  map (fun kv => (fst kv, norm (snd kv))) (map toLatest props) = map toLatest props.
Proof. rewrite map_map. reflexivity. Qed.

Lemma map_norm_latest (elems : list value) :
  map norm (map (fun _ => latestVersion) elems) = map (fun _ => latestVersion) elems.
Proof. rewrite map_map. reflexivity. Qed.

(** The entries of a rewritten section, as they are read back. *)
Lemma entries_norm_latestSection sec :
  truthy (Some sec) = true -> isString sec = false ->
  (if truthy (Some (norm (latestSection sec)))
   then entriesOf (norm (latestSection sec)) else [])
  = map toLatest (entriesOf sec).
Proof.
  destruct sec as [| b | [neg [|m] e|neg] | s | elems | props];
    cbn [truthy isString]; intros Ht Hs; try discriminate.
  - subst b. reflexivity.
  - reflexivity.
  - reflexivity.
  - cbn [latestSection norm truthy]. rewrite map_norm_latest.
    unfold entriesOf. cbn [Object.entries]. rewrite indexed_map. reflexivity.
  - cbn [latestSection norm truthy]. rewrite map_norm_toLatest. reflexivity.
Qed.

Lemma sectionEntries_norm_latest parsed key :
  In key sectionKeys ->
  sectionIsString parsed key = false ->
  sectionEntries (norm (latestManifest parsed)) key
  = map toLatest (sectionEntries parsed key).
Proof.
  intros Hkey Hs.
  destruct parsed as [| b | [neg [|m] e|neg] | s | elems | props]; try reflexivity.
  cbn [latestManifest norm sectionEntries].
  change (fun kv : jsstring * value => (fst kv, norm (snd kv))) with normProp.
  rewrite lookup_norm_latest. rewrite sectionIsString_spec in Hs.
  destruct (Object.lookup key props) as [sec|]; cbn [option_map]; [|reflexivity].
  unfold latestValue.
  replace (JSString.includes sectionKeys key) with true.
  2: { destruct Hkey as [<- | [<- | [<- | []]]]; reflexivity. }
  cbn [andb]. destruct (truthy (Some sec)) eqn:Ht; cbn [andb] in Hs.
  - now apply entries_norm_latestSection.
  - now rewrite (norm_falsy sec Ht).
Qed.

Lemma toRecord_toLatest ty (es : properties) :
  map (toRecord ty) (map toLatest es) = map asLatest (map (toRecord ty) es).
Proof. rewrite !map_map. reflexivity. Qed.

Lemma records_norm_latest parsed :
  existsb (sectionIsString parsed) sectionKeys = false ->
  records (norm (latestManifest parsed)) = map asLatest (records parsed)
  /\ forall key, In key sectionKeys ->
       length (sectionEntries (norm (latestManifest parsed)) key)
       = length (sectionEntries parsed key).
Proof.
  intros Hs.
  assert (He : forall key, In key sectionKeys ->
            sectionEntries (norm (latestManifest parsed)) key
            = map toLatest (sectionEntries parsed key)).
  { intros key Hkey. apply sectionEntries_norm_latest; [exact Hkey|].
    destruct (sectionIsString parsed key) eqn:E; [|reflexivity].
    rewrite <- Hs. symmetry. apply existsb_exists. eauto. }
  split.
  - unfold records, sectionRecords.
    rewrite !He by (unfold sectionKeys; cbn [In]; auto).
    rewrite !toRecord_toLatest, !map_app. reflexivity.
  - intros key Hkey. rewrite (He key Hkey). apply length_map.
Qed.

(** X6. The update to latest keeps the packages: if [analyze] accepts a
    manifest (other than an out-of-range number) and the update returns a
    text, then [analyze] accepts that text with the same records in the same
    order, each with version [latest], and with the same total and section
    counts. *)
Theorem rewrite_keeps_packages text parsed ds a updated :
  JSON.parse text = Normal parsed ->
  isInfinite parsed = false ->
  analyze text = Normal (ds, a) ->
  rewriteAllVersionsToLatest text = Normal updated ->
  exists a',
    analyze updated = Normal (map asLatest ds, a')
    /\ total a' = total a
    /\ dependencies a' = dependencies a
    /\ devDependencies a' = devDependencies a
    /\ peerDependencies a' = peerDependencies a
    /\ latestVersions a' = total a.
Proof.
  intros Hparse Hinf Ha Hrw.
  destruct (rewrite_inv text updated Hrw) as (parsed' & v & Hp & Hu & ->).
  unfold JSON.parse in Hparse. rewrite Hp in Hparse. injection Hparse as ->.
  pose proof (parseText_wf text parsed Hp) as Hwf.
  destruct (updateSections_result parsed v Hwf Hu) as (Hwf' & Hnn & Hinf' & Hgood).
  rewrite Hinf in Hinf'.
  destruct (analyzeParsed_norm v Hnn Hinf' Hgood) as (ds' & a' & Ha' & Hl & _).
  assert (Hs : existsb (sectionIsString parsed) sectionKeys = false).
  { assert (Hnn0 : parsed <> JNull).
    { intros ->. cbn in Hu. discriminate. }
    pose proof (updateSections_outcome parsed Hnn0) as Ho.
    destruct (existsb (sectionIsString parsed) sectionKeys); [|reflexivity].
    rewrite Ho in Hu. discriminate. }
  rewrite (updateSections_value parsed v Hwf Hu) in *.
  destruct (records_norm_latest parsed Hs) as [Hrec Hlen].
  unfold analyze in Ha. unfold JSON.parse in Ha. rewrite Hp in Ha. cbn [bind] in Ha.
  apply analyzeParsed_records in Ha as (Hds & Ht & H1 & H2 & H3).
  pose proof (analyzeParsed_records _ _ _ Ha') as (Hds' & Ht' & H1' & H2' & H3').
  exists a'. unfold analyze, JSON.parse.
  rewrite (parseText_stringify _ Hwf'). cbn [bind].
  rewrite Ha', Hds', Hrec, <- Hds.
  assert (Htot : total a' = total a).
  { rewrite Ht', Hds', Hrec, length_map, <- Hds. now symmetry. }
  split; [reflexivity|]. split; [exact Htot|].
  unfold sectionKeys in Hlen. cbn [In] in Hlen.
  rewrite H1', H2', H3', H1, H2, H3, !Hlen by auto.
  repeat split; try reflexivity. now rewrite Hl.
Qed.

Lemma rewrite_keeps_packages_witness :
  JSON.parse manifestExample = Normal manifestExampleParsed
  /\ analyze manifestExample = Normal (manifestExampleRecords, manifestExampleSummary)
  /\ rewriteAllVersionsToLatest manifestExample = Normal manifestExampleLatest
  /\ exists a',
       analyze manifestExampleLatest = Normal (map asLatest manifestExampleRecords, a')
       /\ total a' = 2.
Proof.
  split; [exact manifestExample_parse|]. split; [exact manifestExample_analysis|].
  split; [exact manifestExample_rewrite|].
  destruct (rewrite_keeps_packages manifestExample manifestExampleParsed
              manifestExampleRecords manifestExampleSummary manifestExampleLatest
              manifestExample_parse eq_refl manifestExample_analysis
              manifestExample_rewrite) as (a' & Ha & Ht & _).
  exists a'. exact (conj Ha Ht).
Defined.

Import DependencyChecker Spec RoundTrip LatestSpec.
Import AnalysisSpec UpdateSpec CheckerSpec FormSpec.

(** ** Updating twice *)

Lemma serialize_norm v : forall indent,
  JSON.serialize indent (norm v) = JSON.serialize indent v.
Proof.
  induction v as [| b | x | s | elems IH | props IH] using value_ind';
    intros indent; try reflexivity.
  - destruct x as [neg [|m] e|neg]; reflexivity.
  - cbn [norm JSON.serialize]. f_equal. rewrite map_map.
    apply map_ext_in. intros e He. rewrite Forall_forall in IH. now apply IH.
  - cbn [norm JSON.serialize]. f_equal. rewrite map_map.
    apply map_ext_in. intros kv Hkv. rewrite Forall_forall in IH. cbn [fst snd].
    now rewrite (IH kv Hkv).
Qed.

Lemma latestSection_norm_fixed v :
  latestSection (norm (latestSection v)) = norm (latestSection v).
Proof.
  destruct v as [| b | [neg [|m] e|neg] | s | elems | props]; try reflexivity.
  - cbn [latestSection norm]. now rewrite !map_map.
  - cbn [latestSection norm]. now rewrite !map_map.
Qed.

Lemma latestValue_norm_fixed key v :
  latestValue key (norm (latestValue key v)) = norm (latestValue key v).
Proof.
  unfold latestValue. destruct (JSString.includes sectionKeys key); [|reflexivity].
  cbn [andb]. destruct (truthy (Some v)) eqn:Ht.
  - destruct (truthy (Some (norm (latestSection v)))); [|reflexivity].
    apply latestSection_norm_fixed.
  - now rewrite (norm_falsy v Ht).
Qed.

Lemma latestManifest_norm_fixed v :
  latestManifest (norm (latestManifest v)) = norm (latestManifest v).
Proof.
  destruct v as [| b | [neg [|m] e|neg] | s | elems | props]; try reflexivity.
  cbn [latestManifest norm]. f_equal. rewrite !map_map. apply map_ext.
  intros [k w]. unfold latestProp. cbn [fst snd]. f_equal.
  apply latestValue_norm_fixed.
Qed.

Lemma isString_norm v : isString (norm v) = isString v.
Proof. destruct v as [| b | [neg [|m] e|neg] | s | elems | props]; reflexivity. Qed.

Lemma isString_latestSection v : isString (latestSection v) = isString v.
Proof. destruct v; reflexivity. Qed.

Lemma sectionIsString_norm_latest parsed key :
  sectionIsString parsed key = false ->
  sectionIsString (norm (latestManifest parsed)) key = false.
Proof.
  destruct parsed as [| b | [neg [|m] e|neg] | s | elems | props]; try reflexivity.
  intros Hs. rewrite sectionIsString_spec in Hs. cbn [latestManifest norm].
  change (fun kv : jsstring * value => (fst kv, norm (snd kv))) with normProp.
  rewrite sectionIsString_spec, lookup_norm_latest.
  destruct (Object.lookup key props) as [sec|]; cbn [option_map]; [|reflexivity].
  unfold latestValue.
  destruct (JSString.includes sectionKeys key && truthy (Some sec)) eqn:E.
  - apply andb_true_iff in E as [_ Ht]. rewrite Ht in Hs. cbn [andb] in Hs.
    rewrite isString_norm, isString_latestSection, Hs. apply andb_false_r.
  - rewrite isString_norm. destruct (truthy (Some sec)) eqn:Ht.
    + cbn [andb] in Hs. rewrite Hs. apply andb_false_r.
    + now rewrite (norm_falsy sec Ht).
Qed.

Lemma existsb_sectionIsString_norm_latest parsed :
  existsb (sectionIsString parsed) sectionKeys = false ->
  existsb (sectionIsString (norm (latestManifest parsed))) sectionKeys = false.
Proof.
  unfold sectionKeys. cbn [existsb]. rewrite !orb_false_r.
  intros H. apply orb_false_iff in H as [H1 H]. apply orb_false_iff in H as [H2 H3].
  now rewrite !sectionIsString_norm_latest.
Qed.

(** X7. Updating to latest a second time changes nothing: when the update
    returns a text for a manifest other than an out-of-range number, the
    update of that text returns the very same text. *)
Theorem rewrite_idempotent text parsed updated :
  JSON.parse text = Normal parsed ->
  isInfinite parsed = false ->
  rewriteAllVersionsToLatest text = Normal updated ->
  rewriteAllVersionsToLatest updated = Normal updated.
Proof.
  intros Hparse Hinf Hrw.
  destruct (rewrite_inv text updated Hrw) as (parsed' & v & Hp & Hu & ->).
  unfold JSON.parse in Hparse. rewrite Hp in Hparse. injection Hparse as ->.
  pose proof (parseText_wf text parsed Hp) as Hwf.
  destruct (updateSections_result parsed v Hwf Hu) as (Hwf' & Hnn & Hinf' & _).
  rewrite Hinf in Hinf'.
  assert (Hs : existsb (sectionIsString parsed) sectionKeys = false).
  { assert (Hnn0 : parsed <> JNull).
    { intros ->. cbn in Hu. discriminate. }
    pose proof (updateSections_outcome parsed Hnn0) as Ho.
    destruct (existsb (sectionIsString parsed) sectionKeys); [|reflexivity].
    rewrite Ho in Hu. discriminate. }
  rewrite (updateSections_value parsed v Hwf Hu) in *.
  pose proof (parseText_stringify _ Hwf') as Hback.
  unfold rewriteAllVersionsToLatest, JSON.parse. rewrite Hback. cbn [bind].
  pose proof (updateSections_outcome _ (norm_null _ Hnn Hinf')) as Ho.
  rewrite (existsb_sectionIsString_norm_latest parsed Hs) in Ho.
  destruct Ho as [v2 Hv2]. rewrite Hv2. cbn [bind].
  rewrite (updateSections_value _ _ (parseText_wf _ _ Hback) Hv2).
  rewrite latestManifest_norm_fixed. unfold JSON.stringify.
  now rewrite serialize_norm.
Qed.

Lemma rewrite_idempotent_witness :
  JSON.parse manifestExample = Normal manifestExampleParsed
  /\ rewriteAllVersionsToLatest manifestExample = Normal manifestExampleLatest
  /\ rewriteAllVersionsToLatest manifestExampleLatest = Normal manifestExampleLatest.
Proof.
  split; [exact manifestExample_parse|]. split; [exact manifestExample_rewrite|].
  exact (rewrite_idempotent manifestExample manifestExampleParsed manifestExampleLatest
           manifestExample_parse eq_refl manifestExample_rewrite).
Defined.

Import DependencyChecker Spec RoundTrip LatestSpec.
Import AnalysisSpec UpdateSpec CheckerSpec FormSpec.

Import CheckerApp.

(** ** DependencyChecker.tsx: what every sequence of events preserves *)

Lemma analysisCallback_shows text st : shows text (analysisCallback text st).
Proof.
  unfold shows, analysisCallback.
  destruct (analyze text) as [[ds a]|e]; cbn; auto.
Qed.

Lemma analysisCallback_consistent text st : consistent (analysisCallback text st).
Proof.
  pose proof (analysisCallback_shows text st) as H. unfold shows in H.
  unfold consistent. destruct (analyze text) as [[ds a]|e] eqn:E.
  - destruct H as [Hd Ha]. rewrite Ha, Hd. split; [eauto|].
    apply analyze_inv in E
      as (? & ? & ? & ? & ? & ? & _ & _ & _ & _ & _ & _ & _ & Ht & _).
    exact Ht.
  - destruct H as [Hd Ha]. now rewrite Ha.
Qed.

Lemma analysisCallback_idle text st :
  st_isAnalyzing (analysisCallback text st) = false.
Proof. reflexivity. Qed.

Lemma analysisCallback_text text st :
  st_packageJson (analysisCallback text st) = st_packageJson st.
Proof. unfold analysisCallback. destruct (analyze text) as [[ds a]|e]; reflexivity. Qed.

(** Only a timer callback touches the results. *)
Lemma handle_results e app :
  e <> TimerFires ->
  st_dependencies (ui (handle e app)) = st_dependencies (ui app)
  /\ st_analysis (ui (handle e app)) = st_analysis (ui app).
Proof.
  intros He. destruct e as [text| | | | |file|i|]; cbn [handle]; try (now split);
    try contradiction.
  - unfold updateToLatestVersions.
    destruct (rewriteAllVersionsToLatest _); now split.
  - unfold handleFileUpload. destruct file as [f|]; [|now split].
    destruct (_ && _); now split.
  - unfold readCompletes. destruct (nth_error (reads app) i) as [f|]; [|now split].
    destruct (fileText f); now split.
Qed.

Lemma step_invariant app e : invariant app -> invariant (step app e).
Proof.
  intros [Hc Hs]. unfold step. destruct (enabled e app); [|now split].
  destruct e as [text| | | | |file|i|]; cbn [handle].
  - split; [exact Hc | exact Hs].
  - split; [exact Hc|]. intros _. cbn. now destruct (timers app).
  - split; [exact Hc | exact Hs].
  - unfold updateToLatestVersions.
    destruct (rewriteAllVersionsToLatest _); (split; [exact Hc|]).
    + intros _. cbn. now destruct (timers app).
    + exact Hs.
  - split; [exact Hc | exact Hs].
  - unfold handleFileUpload. destruct file as [f|]; [|now split].
    destruct (_ && _); (split; [exact Hc | exact Hs]).
  - unfold readCompletes. destruct (nth_error (reads app) i) as [f|]; [|now split].
    destruct (fileText f); (split; [exact Hc|]).
    + intros _. cbn. now destruct (timers app).
    + exact Hs.
  - assert (Hinv : invariant app) by (split; assumption).
    unfold timerFires. destruct (timers app) as [|c rest]; [exact Hinv|].
    split; [apply analysisCallback_consistent|]. cbn. discriminate.
Qed.

Lemma run_invariant es : forall app, invariant app -> invariant (run es app).
Proof.
  unfold run. induction es as [|e es IH]; intros app H; cbn [fold_left]; [exact H|].
  apply IH. now apply step_invariant.
Qed.

Lemma initialApp_invariant : invariant initialApp.
Proof. split; [reflexivity | discriminate]. Qed.

(** X8. Whatever the user and the browser do (edit, analyse, load the
    example, update, download, upload, in any order and with any
    interleaving of timers and file reads), the records and the summary on
    display belong together: either there is no summary and no record, or
    both come from one run of [analyze] on some text, and [total] is the
    number of records shown. *)
Theorem results_always_consistent (es : list event) :
  let st := ui (run es initialApp) in
  match st_analysis st with
  | None => st_dependencies st = []
  | Some a =>
      (exists text, analyze text = Normal (st_dependencies st, a))
      /\ total a = length (st_dependencies st)
  end.
Proof. exact (proj1 (run_invariant es initialApp initialApp_invariant)). Qed.

(** X9. The spinner never hangs: in every reachable state in which
    [isAnalyzing] is set, a timer callback is pending, and once a timer
    event has been handled [isAnalyzing] is cleared. *)
Theorem spinner_has_pending_timer (es : list event) :
  let app := run es initialApp in
  (if st_isAnalyzing (ui app) then timers app <> [] else True)
  /\ st_isAnalyzing (ui (step app TimerFires)) = false.
Proof.
  cbv zeta. pose proof (proj2 (run_invariant es initialApp initialApp_invariant)) as H.
  split.
  - destruct (st_isAnalyzing (ui (run es initialApp))); [now apply H | exact I].
  - unfold step. cbn [enabled handle]. unfold timerFires.
    destruct (timers (run es initialApp)) as [|c rest] eqn:E; [|reflexivity].
    destruct (st_isAnalyzing (ui (run es initialApp))) eqn:Ei; [|reflexivity].
    exfalso. now apply H.
Qed.

(** ** Pending analyses run in the order of their requests *)

Lemma fireAll_cons app c rest :
  timers app = c :: rest -> fireAll app = fireAll (timerFires app).
Proof.
  intros E.
  assert (Ht : timers (timerFires app) = rest)
    by (unfold timerFires; rewrite E; reflexivity).
  unfold fireAll. rewrite E, Ht. reflexivity.
Qed.

Lemma fireAll_last ts : forall app c,
  timers app = ts ++ [c] ->
  timers (fireAll app) = []
  /\ ui (fireAll app) = analysisCallback c (ui (fireAll
        {| ui := ui app; timers := ts; reads := reads app;
           downloads := downloads app |})).
Proof.
  induction ts as [|c0 ts IH]; intros app c E.
  - rewrite app_nil_l in E. rewrite (fireAll_cons app c [] E).
    unfold timerFires. rewrite E. unfold fireAll. cbn. auto.
  - rewrite <- app_comm_cons in E. rewrite (fireAll_cons app c0 (ts ++ [c]) E).
    destruct (IH (timerFires app) c) as [H1 H2].
    { unfold timerFires. rewrite E. reflexivity. }
    split; [exact H1|]. rewrite H2. f_equal. f_equal.
    rewrite (fireAll_cons {| ui := ui app; timers := c0 :: ts; reads := reads app;
                             downloads := downloads app |} c0 ts eq_refl).
    f_equal. unfold timerFires. rewrite E. reflexivity.
Qed.

Lemma fireAll_text app : st_packageJson (ui (fireAll app)) = st_packageJson (ui app).
Proof.
  unfold fireAll. remember (timers app) as ts eqn:E. revert app E.
  induction ts as [|c ts IH]; intros app E; [reflexivity|].
  cbn [length repeat run fold_left]. unfold step at 2. cbn [enabled handle].
  change (fold_left step (repeat TimerFires (length ts)) (timerFires app))
    with (run (repeat TimerFires (length ts)) (timerFires app)).
  assert (Et : ts = timers (timerFires app)).
  { unfold timerFires. rewrite <- E. reflexivity. }
  rewrite (IH (timerFires app) Et).
  unfold timerFires. rewrite <- E. cbn [ui]. apply analysisCallback_text.
Qed.

(** X10. The most recent request wins: when every pending timer has fired,
    the results on display are those of the analysis that was requested
    last (its records and summary, or none if it failed), no timer is left,
    the spinner is off and the text is as it was. *)
Theorem last_analysis_wins (app : App) ts c :
  timers app = ts ++ [c] ->
  timers (fireAll app) = []
  /\ st_isAnalyzing (ui (fireAll app)) = false
  /\ st_packageJson (ui (fireAll app)) = st_packageJson (ui app)
  /\ match analyze c with
     | Normal (ds, a) =>
         st_dependencies (ui (fireAll app)) = ds
         /\ st_analysis (ui (fireAll app)) = Some a
     | Throw _ =>
         st_dependencies (ui (fireAll app)) = []
         /\ st_analysis (ui (fireAll app)) = None
     end.
Proof.
  intros E. destruct (fireAll_last ts app c E) as [H1 H2].
  split; [exact H1|]. split; [rewrite H2; reflexivity|].
  split; [apply fireAll_text|].
  rewrite H2. exact (analysisCallback_shows c _).
Qed.

Lemma last_analysis_wins_witness :
  timers twoPending = [malformedExample] ++ [manifestExample]
  /\ st_dependencies (ui (fireAll twoPending)) = manifestExampleRecords
  /\ st_analysis (ui (fireAll twoPending)) = Some manifestExampleSummary.
Proof.
  split; [reflexivity|].
  pose proof (last_analysis_wins twoPending [malformedExample] manifestExample eq_refl)
    as (_ & _ & _ & H).
  rewrite manifestExample_analysis in H. exact H.
Defined.

(** A click on Analyze and the firing of its timer, with no other timer
    pending, is [analyzePackageJson] run to its end. *)
Lemma analyze_click_then_timer app :
  timers app = [] ->
  ui (timerFires (handleAnalyze app))
  = DependencyChecker.analyzePackageJson (st_packageJson (ui app)) (ui app).
Proof.
  intros E. unfold handleAnalyze, scheduleAnalysis, timerFires. cbn [timers].
  rewrite E. reflexivity.
Qed.

(** ** Uploading a file *)

Lemma endsWith_package_json name :
  JSString.eqb name `"package.json" = true -> endsWith name `".json" = true.
Proof. intros H. apply JSString_eqb_eq in H. subst name. reflexivity. Qed.

(** X11. A chosen file is taken exactly when its name ends with [.json]
    (the separate test for the name [package.json] never decides); a file
    that is not taken only raises an error toast, and choosing a file,
    taken or not, changes neither the text nor the results nor the pending
    timers. *)
Theorem upload_by_extension (f : File) (app : App) :
  handleFileUpload (Some f) app
  = (if endsWith (fileName f) `".json"
     then addRead f app
     else withUi (showToast (ToastError `"Please upload a valid JSON file")) app)
  /\ st_packageJson (ui (handleFileUpload (Some f) app)) = st_packageJson (ui app)
  /\ st_dependencies (ui (handleFileUpload (Some f) app)) = st_dependencies (ui app)
  /\ st_analysis (ui (handleFileUpload (Some f) app)) = st_analysis (ui app)
  /\ timers (handleFileUpload (Some f) app) = timers app.
Proof.
  assert (H : handleFileUpload (Some f) app
              = if endsWith (fileName f) `".json"
                then addRead f app
                else withUi (showToast (ToastError `"Please upload a valid JSON file"))
                       app).
  { unfold handleFileUpload.
    destruct (endsWith (fileName f) `".json") eqn:E; cbn [negb andb]; [reflexivity|].
    destruct (JSString.eqb (fileName f) `"package.json") eqn:E2; [|reflexivity].
    rewrite (endsWith_package_json _ E2) in E. discriminate. }
  split; [exact H|]. rewrite H.
  destruct (endsWith (fileName f) `".json"); repeat split.
Qed.

(** X12. A read that fails leaves the text, the results and the timers as
    they are and raises one error toast; a read that succeeds puts the
    content into the text field and requests its analysis. *)
Theorem read_completion (i : nat) (f : File) (app : App) :
  nth_error (reads app) i = Some f ->
  let app' := readCompletes i app in
  length (reads app') + 1 = length (reads app)
  /\ match fileText f with
     | None =>
         ui app' = showToast (ToastError `"Failed to read file") (ui app)
         /\ timers app' = timers app
     | Some content =>
         st_packageJson (ui app') = content
         /\ timers app' = timers app ++ [content]
         /\ st_isAnalyzing (ui app') = true
         /\ st_dependencies (ui app') = st_dependencies (ui app)
         /\ st_analysis (ui app') = st_analysis (ui app)
     end.
Proof.
  intros Hn. cbv zeta. unfold readCompletes. rewrite Hn.
  assert (Hlen : length (firstn i (reads app) ++ skipn (S i) (reads app)) + 1
                 = length (reads app)).
  { assert (Hi : i < length (reads app)) by (apply nth_error_Some; congruence).
    rewrite length_app, length_firstn, length_skipn. lia. }
  destruct (fileText f) as [content|]; cbn; repeat split; exact Hlen.
Qed.

Lemma read_completion_witness :
  nth_error (reads oneRead) 0
  = Some {| fileName := `"package.json"; fileText := Some manifestExample |}
  /\ st_packageJson (ui (readCompletes 0 oneRead)) = manifestExample
  /\ timers (readCompletes 0 oneRead) = [manifestExample].
Proof.
  split; [reflexivity|].
  pose proof (read_completion 0 _ oneRead eq_refl) as (_ & H1 & H2 & _).
  exact (conj H1 H2).
Defined.

Import BadgeSelector ReadmeGenerator ReadmeSpec BadgeForm.
Import AnalysisSpec UpdateSpec CheckerSpec FormSpec.

(** ** toggleLicense *)

Lemma includes_app l1 l2 x :
  JSString.includes (l1 ++ l2) x = JSString.includes l1 x || JSString.includes l2 x.
Proof. apply existsb_app. Qed.

Lemma includes_In l x : JSString.includes l x = true <-> In x l.
Proof.
  unfold JSString.includes. rewrite existsb_exists. split.
  - intros (y & Hy & E). apply JSString_eqb_eq in E. now subst.
  - intros H. exists x. split; [exact H | apply JSString_eqb_refl].
Qed.

Lemma includes_filter_other l x y :
  JSString.eqb y x = false ->
  JSString.includes (filter (fun l0 => negb (JSString.eqb l0 x)) l) y
  = JSString.includes l y.
Proof.
  intros Hyx. induction l as [|z l IH]; cbn [filter]; [reflexivity|].
  destruct (JSString.eqb z x) eqn:Ez; cbn [negb].
  - unfold JSString.includes in *. cbn [existsb]. rewrite IH.
    apply JSString_eqb_eq in Ez. subst z. now rewrite Hyx.
  - unfold JSString.includes in *. cbn [existsb]. now rewrite IH.
Qed.

Lemma includes_filter_same l x :
  JSString.includes (filter (fun l0 => negb (JSString.eqb l0 x)) l) x = false.
Proof.
  induction l as [|z l IH]; cbn [filter]; [reflexivity|].
  destruct (JSString.eqb z x) eqn:Ez; cbn [negb]; [exact IH|].
  unfold JSString.includes in *. cbn [existsb].
  now rewrite (JSString_eqb_sym x z), Ez, IH.
Qed.

Lemma filter_absent l x :
  JSString.includes l x = false ->
  filter (fun l0 => negb (JSString.eqb l0 x)) l = l.
Proof.
  induction l as [|z l IH]; cbn [filter]; [reflexivity|].
  unfold JSString.includes. cbn [existsb]. intros H.
  apply orb_false_iff in H as [Hz Hl].
  rewrite (JSString_eqb_sym z x), Hz. cbn [negb]. f_equal. now apply IH.
Qed.

(** X13. Toggling a license flips whether it is selected and leaves the
    selection of every other license as it is. *)
Theorem toggleLicense_flips (license other : jsstring) (prev : list jsstring) :
  JSString.includes (ReadmeApp.toggleLicense license prev) other
  = if JSString.eqb other license
    then negb (JSString.includes prev license)
    else JSString.includes prev other.
Proof.
  unfold ReadmeApp.toggleLicense.
  destruct (JSString.eqb other license) eqn:E.
  - apply JSString_eqb_eq in E. subst other.
    destruct (JSString.includes prev license) eqn:Hin; cbn [negb].
    + apply includes_filter_same.
    + rewrite includes_app, Hin. unfold JSString.includes. cbn [existsb].
      now rewrite JSString_eqb_refl.
  - destruct (JSString.includes prev license) eqn:Hin.
    + now apply includes_filter_other.
    + rewrite includes_app. unfold JSString.includes at 2. cbn [existsb].
      rewrite E. now rewrite !orb_false_r.
Qed.

(** X14. Toggling the same license twice gives the selection back when the
    license was not selected; when it was, the license has moved to the end
    of the selection (and so to the end of the README's license list). *)
Theorem toggleLicense_twice (license : jsstring) (prev : list jsstring) :
  ReadmeApp.toggleLicense license (ReadmeApp.toggleLicense license prev)
  = if JSString.includes prev license
    then filter (fun l => negb (JSString.eqb l license)) prev ++ [license]
    else prev.
Proof.
  unfold ReadmeApp.toggleLicense at 2.
  destruct (JSString.includes prev license) eqn:Hin.
  - unfold ReadmeApp.toggleLicense. now rewrite includes_filter_same.
  - unfold ReadmeApp.toggleLicense. rewrite includes_app, Hin.
    unfold JSString.includes at 1. cbn [existsb orb].
    rewrite JSString_eqb_refl. cbn [orb].
    rewrite filter_app. cbn [filter]. rewrite JSString_eqb_refl. cbn [negb].
    rewrite app_nil_r. now apply filter_absent.
Qed.

(** ** Adding and removing badges *)

Lemma addBadge_accepted newId f bs :
  accepts f = true ->
  addBadge newId f bs
  = ({| selectedType := selectedType f; badgeUrl := []; customLabel := [];
        customMessage := []; customColor := `"blue" |},
     bs ++ [newBadge newId f],
     DependencyChecker.ToastSuccess `"Badge added!").
Proof.
  unfold accepts, addBadge, validateUrl.
  destruct (currentTemplate f) as [t|]; [|discriminate].
  intros H. apply andb_true_iff in H as [-> ->]. reflexivity.
Qed.

Lemma addBadge_rejected newId f bs :
  accepts f = false -> fst (addBadge newId f bs) = (f, bs).
Proof.
  unfold accepts, addBadge, validateUrl.
  destruct (currentTemplate f) as [t|]; [|reflexivity].
  destruct (nonEmpty (JSString.trim (badgeUrl f))); cbn [negb andb]; [|reflexivity].
  now intros ->.
Qed.

Lemma accepts_validBadge newId f : accepts f = true -> validBadge (newBadge newId f) = true.
Proof.
  unfold accepts, validBadge, currentTemplate. cbn [newBadge type url].
  destruct (findTemplate (selectedType f)); [|discriminate].
  now rewrite andb_comm.
Qed.

Lemma removeBadge_absent i bs :
  fst (removeBadge i bs) = bs <-> ~ In i (map id bs).
Proof.
  cbn [removeBadge fst]. induction bs as [|b bs IH]; cbn [filter map In]; [tauto|].
  destruct (JSString.eqb (id b) i) eqn:E; cbn [negb].
  - apply JSString_eqb_eq in E. split.
    + intros H. exfalso.
      assert (Hl : length (filter (fun b0 => negb (JSString.eqb (id b0) i)) bs)
                   <= length bs) by apply filter_length_le.
      rewrite H in Hl. cbn [length] in Hl. lia.
    + intros H. exfalso. apply H. now left.
  - split.
    + intros H. injection H as H. intros [Hb | Hin].
      * subst i. now rewrite JSString_eqb_refl in E.
      * now apply IH.
    + intros H. f_equal. apply IH. intros Hin. apply H. now right.
Qed.

(** X15. Removing a badge by the identifier under which it has just been
    added undoes the addition; it also removes every older badge that
    happens to have the same identifier (the identifiers are random and are
    not checked for uniqueness), so the list is back as it was exactly when
    no older badge has that identifier. *)
Theorem remove_added_badge (newId : jsstring) (f : Form) (bs : list Badge) :
  fst (removeBadge newId (badgesAfterAdd newId f bs)) = fst (removeBadge newId bs)
  /\ (fst (removeBadge newId (badgesAfterAdd newId f bs)) = bs
      <-> ~ In newId (map id bs)).
Proof.
  assert (H : fst (removeBadge newId (badgesAfterAdd newId f bs))
              = fst (removeBadge newId bs)).
  { unfold badgesAfterAdd. destruct (accepts f) eqn:Ea.
    - rewrite (addBadge_accepted newId f bs Ea). cbn [fst snd removeBadge].
      rewrite filter_app. cbn [filter newBadge id].
      rewrite JSString_eqb_refl. cbn [negb]. apply app_nil_r.
    - now rewrite (addBadge_rejected newId f bs Ea). }
  split; [exact H|]. rewrite H. apply removeBadge_absent.
Qed.

(** ** What the README form keeps true *)

Import ReadmeApp.

Lemma setText_fields i x app :
  selectedLicenses (fields (setText i x app)) = selectedLicenses (fields app)
  /\ badges (fields (setText i x app)) = badges (fields app).
Proof. destruct i; split; reflexivity. Qed.

Lemma toggleLicense_NoDup license prev :
  NoDup prev -> NoDup (toggleLicense license prev).
Proof.
  intros H. unfold toggleLicense.
  destruct (JSString.includes prev license) eqn:Hin.
  - now apply NoDup_filter.
  - apply NoDup_app; [exact H | repeat constructor; intros [] |].
    intros x Hx [<- | []]. apply includes_In in Hx. congruence.
Qed.

Lemma toggleLicense_subset (P : jsstring -> Prop) license prev :
  (JSString.includes prev license = false -> P license) ->
  Forall P prev -> Forall P (toggleLicense license prev).
Proof.
  intros Hl H. unfold toggleLicense.
  destruct (JSString.includes prev license) eqn:Hin.
  - apply Forall_forall. intros x Hx. apply filter_In in Hx as [Hx _].
    rewrite Forall_forall in H. now apply H.
  - apply Forall_app. split; [exact H|]. constructor; [now apply Hl | constructor].
Qed.

Lemma forallb_filter {A} (p q : A -> bool) l :
  forallb p l = true -> forallb p (filter q l) = true.
Proof.
  rewrite !forallb_forall. intros H x Hx. apply filter_In in Hx as [Hx _]. now apply H.
Qed.

Lemma handle_wellFormed readme e app :
  enabled e app = true ->
  wellFormedSelection (fields app) ->
  wellFormedSelection (fields (handle readme e app)).
Proof.
  intros He (Hn & Hs & Hb). destruct e as [i x|license|ty|c|newId|badgeId| |];
    cbn [handle].
  - destruct (setText_fields i x app) as [E1 E2].
    unfold wellFormedSelection. rewrite E1, E2. auto.
  - unfold clickToggle, wellFormedSelection. cbn [fields selectedLicenses badges setSelectedLicenses].
    split; [now apply toggleLicense_NoDup|]. split; [|exact Hb].
    apply toggleLicense_subset; [|exact Hs].
    intros Hin. cbn [enabled] in He. rewrite Hin, orb_false_r in He.
    now apply includes_In.
  - split; [exact Hn|]. split; [exact Hs | exact Hb].
  - split; [exact Hn|]. split; [exact Hs | exact Hb].
  - unfold clickAdd.
    destruct (addBadge newId (form app) (badges (fields app))) as [[fm bs] t] eqn:Ea.
    unfold wellFormedSelection. cbn [fields selectedLicenses badges setBadges].
    split; [exact Hn|]. split; [exact Hs|].
    destruct (accepts (form app)) eqn:Eacc.
    + rewrite (addBadge_accepted newId _ _ Eacc) in Ea. injection Ea as _ <- _.
      rewrite forallb_app, Hb. cbn [forallb andb].
      now rewrite (accepts_validBadge newId _ Eacc).
    + pose proof (addBadge_rejected newId _ (badges (fields app)) Eacc) as Hr.
      rewrite Ea in Hr. cbn [fst] in Hr. injection Hr as _ ->. exact Hb.
  - unfold clickRemove, removeBadge, wellFormedSelection.
    cbn [fields selectedLicenses badges setBadges].
    split; [exact Hn|]. split; [exact Hs|]. now apply forallb_filter.
  - split; [exact Hn|]. split; [exact Hs | exact Hb].
  - split; [exact Hn|]. split; [exact Hs | exact Hb].
Qed.

Lemma step_wellFormed app e :
  wellFormedSelection (fields app) -> wellFormedSelection (fields (step app e)).
Proof.
  intros H. unfold step. destruct (generateReadme (fields app)) as [readme|]; [|exact H].
  destruct (enabled e app) eqn:He; [|exact H]. now apply handle_wellFormed.
Qed.

Lemma run_wellFormed es : forall app,
  wellFormedSelection (fields app) -> wellFormedSelection (fields (run es app)).
Proof.
  unfold run. induction es as [|e es IH]; intros app H; cbn [fold_left]; [exact H|].
  apply IH. now apply step_wellFormed.
Qed.

Lemma initialApp_wellFormed : wellFormedSelection (fields initialApp).
Proof.
  split; [|split].
  - cbn. repeat constructor. intros [].
  - cbn [fields initialApp initialFields selectedLicenses].
    constructor; [cbn; auto | constructor].
  - reflexivity.
Qed.

(** X16. Whatever is typed, toggled, added and removed in the README form,
    no license is selected twice, every selected license is one of the
    license options, and every badge in the list has a catalogued type and
    a non-blank identifier that passes the pattern of its template. *)
Theorem readme_form_invariant (es : list event) :
  let f := fields (run es initialApp) in
  NoDup (selectedLicenses f)
  /\ Forall (fun l => In l (map fst LICENSE_OPTIONS)) (selectedLicenses f)
  /\ forallb validBadge (badges f) = true.
Proof. exact (run_wellFormed es initialApp initialApp_wellFormed). Qed.

Import BadgeSelector ReadmeGenerator ReadmeSpec BadgeForm.
Import AnalysisSpec UpdateSpec CheckerSpec FormSpec.

(** ** License badges *)

Ltac bool_to_prop :=
  repeat match goal with
         | H : _ || _ = true |- _ => apply orb_true_iff in H; destruct H as [H | H]
         | H : _ && _ = true |- _ => apply andb_true_iff in H; destruct H
         | H : (_ =? _)%N = true |- _ => apply N.eqb_eq in H
         | H : (_ <=? _)%N = true |- _ => apply N.leb_le in H
         | H : false = true |- _ => discriminate H
         end.

Lemma whiteSpace_escaped c :
  JSString.isWhiteSpace c = true ->
  URI.isUnreserved c = false
  /\ JSString.isHighSurrogate c = false /\ JSString.isLowSurrogate c = false.
Proof.
  intros Hw. unfold JSString.isWhiteSpace in Hw.
  assert (Hc : (c = 9 \/ c = 10 \/ c = 11 \/ c = 12 \/ c = 13 \/ c = 32 \/ c = 160
                \/ c = 5760 \/ (8192 <= c <= 8202) \/ c = 8232 \/ c = 8233
                \/ c = 8239 \/ c = 8287 \/ c = 12288 \/ c = 65279)%N).
  { bool_to_prop; lia. }
  clear Hw. repeat split.
  - destruct (URI.isUnreserved c) eqn:E; [|reflexivity].
    unfold URI.isUnreserved, URI.isAlpha, JSString.isDigit in E. cbn [existsb] in E.
    exfalso. bool_to_prop; lia.
  - destruct (JSString.isHighSurrogate c) eqn:E; [|reflexivity].
    unfold JSString.isHighSurrogate in E. exfalso. bool_to_prop; lia.
  - destruct (JSString.isLowSurrogate c) eqn:E; [|reflexivity].
    unfold JSString.isLowSurrogate in E. exfalso. bool_to_prop; lia.
Qed.

Lemma licenseChar_unreserved c :
  licenseChar c = true -> JSString.isWhiteSpace c = false ->
  URI.isUnreserved c = true.
Proof.
  unfold licenseChar, isAlnum, URI.isUnreserved. cbn [existsb].
  intros H Hw. rewrite Hw, orb_false_r in H.
  apply orb_true_iff in H as [H | H].
  - now rewrite H.
  - rewrite !orb_false_r in H. apply orb_true_iff in H as [H | H].
    + rewrite H. now rewrite !orb_true_r.
    + apply orb_true_iff in H as [H | H]; rewrite H; now rewrite ?orb_true_r.
Qed.

Lemma licenseChars_encode url :
  forallb licenseChar url = true ->
  URI.encodeURIComponent url = Normal (escapeWhiteSpace url).
Proof.
  induction url as [|c r IH]; cbn [forallb]; [reflexivity|].
  intros H. apply andb_true_iff in H as [Hc Hr].
  cbn [URI.encodeURIComponent escapeWhiteSpace flat_map].
  fold (escapeWhiteSpace r).
  destruct (JSString.isWhiteSpace c) eqn:Hw.
  - destruct (whiteSpace_escaped c Hw) as (-> & Hh & ->). rewrite Hh.
    now rewrite (IH Hr).
  - rewrite (licenseChar_unreserved c Hc Hw). now rewrite (IH Hr).
Qed.

Lemma licensePattern_chars url :
  licensePattern url = true -> forallb licenseChar url = true.
Proof.
  unfold licensePattern, nonEmptyAll. intros H. now apply andb_true_iff in H as [_ H].
Qed.

(** X17. A license badge whose identifier has passed validation always
    renders: [encodeURIComponent] does not throw on it, the white space in
    the identifier is percent-encoded and every other character is embedded
    as it is. *)
Theorem license_badge_renders (url : jsstring) label message color :
  licensePattern url = true ->
  generateMarkdown licenseTemplate url label message color
  = Normal (`"![License](https://img.shields.io/badge/license-"
            ++ escapeWhiteSpace url ++ `"-blue)").
Proof.
  intros H. cbn [generateMarkdown licenseTemplate].
  rewrite (licenseChars_encode url (licensePattern_chars url H)). reflexivity.
Qed.

Lemma license_badge_renders_witness :
  licensePattern `"Apache 2.0" = true
  /\ generateMarkdown licenseTemplate `"Apache 2.0" None None (Some `"blue")
     = Normal `"![License](https://img.shields.io/badge/license-Apache%202.0-blue)".
Proof.
  split; [reflexivity|].
  exact (license_badge_renders `"Apache 2.0" None None (Some `"blue") eq_refl).
Defined.

(** ** The README of a form that was filled in through the controls *)

Lemma notSurrogate_wellFormed s :
  forallb notSurrogate s = true -> wellFormed s = true.
Proof.
  induction s as [|c r IH]; cbn [forallb wellFormed]; [reflexivity|].
  intros H. apply andb_true_iff in H as [Hc Hr]. unfold notSurrogate in Hc.
  apply andb_true_iff in Hc as [Hh Hl]. apply negb_true_iff in Hh.
  rewrite Hh, Hl. now apply IH.
Qed.

Lemma licenseChar_notSurrogate c : licenseChar c = true -> notSurrogate c = true.
Proof.
  intros H. unfold notSurrogate. destruct (JSString.isWhiteSpace c) eqn:Hw.
  - destruct (whiteSpace_escaped c Hw) as (_ & -> & ->). reflexivity.
  - destruct (unreserved_not_surrogate c (licenseChar_unreserved c H Hw)) as [-> ->].
    reflexivity.
Qed.

Lemma licensePattern_wellFormed url : licensePattern url = true -> wellFormed url = true.
Proof.
  intros H. apply notSurrogate_wellFormed. apply licensePattern_chars in H.
  rewrite forallb_forall in *. intros c Hc. apply licenseChar_notSurrogate. now apply H.
Qed.

Lemma validBadge_encodable b :
  validBadge b = true -> encodable b = customEncodable b.
Proof.
  unfold validBadge, customEncodable, encodable. intros Hv.
  destruct (JSString.eqb (type b) `"license") eqn:El.
  - apply JSString_eqb_eq in El. rewrite El in *.
    change (findTemplate `"license") with (Some licenseTemplate) in Hv.
    cbn [urlPattern licenseTemplate] in Hv. apply andb_true_iff in Hv as [Hp _].
    rewrite (licensePattern_wellFormed _ Hp). reflexivity.
  - destruct (JSString.eqb (type b) `"custom"); reflexivity.
Qed.

Lemma forallb_encodable bs :
  forallb validBadge bs = true ->
  forallb encodable bs = forallb customEncodable bs.
Proof.
  induction bs as [|b bs IH]; cbn [forallb]; [reflexivity|].
  intros H. apply andb_true_iff in H as [Hb Hbs].
  now rewrite (validBadge_encodable b Hb), (IH Hbs).
Qed.

(** X18. For a form filled in through the controls, [generateReadme] fails
    only because of a custom badge: it throws URIError if the label or the
    message of some custom badge holds an unpaired surrogate, and returns a
    non-empty text otherwise; no badge of another type makes it fail, and no
    badge is skipped for an unknown type. *)
Theorem reachable_readme_outcome (es : list ReadmeApp.event) :
  let f := ReadmeApp.fields (ReadmeApp.run es ReadmeApp.initialApp) in
  (if forallb customEncodable (badges f)
   then exists s, generateReadme f = Normal s /\ s <> []
   else generateReadme f = Throw URIError)
  /\ Forall (fun b => exists t, findTemplate (type b) = Some t) (badges f).
Proof.
  cbv zeta.
  destruct (run_wellFormed es ReadmeApp.initialApp initialApp_wellFormed)
    as (_ & _ & Hb).
  split.
  - rewrite <- (forallb_encodable _ Hb). apply generateReadme_result.
  - apply Forall_forall. intros b Hin. rewrite forallb_forall in Hb.
    specialize (Hb b Hin). unfold validBadge in Hb.
    destruct (findTemplate (type b)) as [t|]; [eauto | discriminate].
Qed.

(** ** The catalogue *)

(** X19. The catalogue is a table keyed by type: looking a type up finds a
    template exactly when the template is in the catalogue under that type,
    so every template is found under its own type; and the example and the
    placeholder that a template shows pass the template's own pattern. *)
Theorem catalogue_lookup (ty : jsstring) (t : BadgeTemplate) :
  (findTemplate ty = Some t <-> In t badgeTemplates /\ t_type t = ty)
  /\ Forall (fun t' => urlPattern t' (urlExample t') = true
                       /\ urlPattern t' (urlPlaceholder t') = true) badgeTemplates.
Proof.
  split.
  - split.
    + intros H. unfold findTemplate in H. apply find_some in H as [Hin E].
      apply JSString_eqb_eq in E. auto.
    + intros [Hin <-]. unfold badgeTemplates in Hin. cbn [In] in Hin.
      repeat (destruct Hin as [<- | Hin]; [reflexivity|]). contradiction.
  - unfold badgeTemplates. repeat constructor.
Qed.

Import DependencyChecker Spec RoundTrip LatestSpec.
Import AnalysisSpec UpdateSpec CheckerSpec FormSpec.

(** ** The Update button, from the click to the results *)

Lemma rewritten_analysis text parsed updated :
  JSON.parse text = Normal parsed ->
  isInfinite parsed = false ->
  rewriteAllVersionsToLatest text = Normal updated ->
  exists ds a, analyze updated = Normal (ds, a) /\ allLatestSummary a.
Proof.
  intros Hparse Hinf Hrw.
  destruct (rewrite_inv text updated Hrw) as (parsed' & v & Hp & Hu & ->).
  unfold JSON.parse in Hparse. rewrite Hp in Hparse. injection Hparse as ->.
  pose proof (parseText_wf text parsed Hp) as Hwf.
  destruct (updateSections_result parsed v Hwf Hu) as (Hwf' & Hnn & Hinf' & Hgood).
  rewrite Hinf in Hinf'.
  unfold analyze, JSON.parse. rewrite (parseText_stringify v Hwf'). cbn [bind].
  destruct (analyzeParsed_norm v Hnn Hinf' Hgood) as (ds & a & Ha & Hs).
  exists ds, a. split; [exact Ha | exact Hs].
Qed.

(** X20. A click on Update to Latest, followed by the timers: when the
    text is a manifest (not an out-of-range number) that the update can
    rewrite, the text field holds the rewritten manifest, a success toast is
    shown, and once the pending timers have fired the summary on display
    counts every package as [latest]. *)
Theorem update_click_shows_all_latest (app : CheckerApp.App) parsed updated :
  JSON.parse (st_packageJson (CheckerApp.ui app)) = Normal parsed ->
  isInfinite parsed = false ->
  rewriteAllVersionsToLatest (st_packageJson (CheckerApp.ui app)) = Normal updated ->
  let app' := fireAll (CheckerApp.updateToLatestVersions app) in
  st_packageJson (CheckerApp.ui app') = updated
  /\ CheckerApp.timers app' = []
  /\ st_isAnalyzing (CheckerApp.ui app') = false
  /\ exists a,
       st_analysis (CheckerApp.ui app') = Some a
       /\ total a = length (st_dependencies (CheckerApp.ui app'))
       /\ latestVersions a = total a
       /\ rangeVersions a = 0 /\ specificVersions a = 0.
Proof.
  intros Hparse Hinf Hrw. cbv zeta.
  destruct (rewritten_analysis _ _ _ Hparse Hinf Hrw) as (ds & a & Ha & Hl & Hr & Hs).
  set (clicked := CheckerApp.updateToLatestVersions app).
  assert (Ht : CheckerApp.timers clicked = CheckerApp.timers app ++ [updated]).
  { unfold clicked, CheckerApp.updateToLatestVersions. rewrite Hrw. reflexivity. }
  assert (Hx : st_packageJson (CheckerApp.ui clicked) = updated).
  { unfold clicked, CheckerApp.updateToLatestVersions. rewrite Hrw. reflexivity. }
  destruct (fireAll_last _ clicked updated Ht) as [H1 H2].
  split; [now rewrite fireAll_text|]. split; [exact H1|].
  split; [rewrite H2; reflexivity|].
  pose proof (analysisCallback_shows updated
                (CheckerApp.ui (fireAll
                   {| CheckerApp.ui := CheckerApp.ui clicked;
                      CheckerApp.timers := CheckerApp.timers app;
                      CheckerApp.reads := CheckerApp.reads clicked;
                      CheckerApp.downloads := CheckerApp.downloads clicked |})))
    as Hshow.
  rewrite <- H2 in Hshow. unfold shows in Hshow. rewrite Ha in Hshow.
  destruct Hshow as [Hd Hsum]. exists a. rewrite Hd. split; [exact Hsum|].
  apply analyze_inv in Ha
    as (? & ? & ? & ? & ? & ? & _ & _ & _ & _ & _ & _ & _ & Htot & _).
  auto.
Qed.

Lemma update_click_shows_all_latest_witness :
  JSON.parse (st_packageJson (CheckerApp.ui exampleLoaded)) = Normal manifestExampleParsed
  /\ rewriteAllVersionsToLatest (st_packageJson (CheckerApp.ui exampleLoaded))
     = Normal manifestExampleLatest
  /\ st_packageJson
       (CheckerApp.ui (fireAll (CheckerApp.updateToLatestVersions exampleLoaded)))
     = manifestExampleLatest.
Proof.
  split; [exact manifestExample_parse|]. split; [exact manifestExample_rewrite|].
  exact (proj1 (update_click_shows_all_latest exampleLoaded manifestExampleParsed
                  manifestExampleLatest manifestExample_parse eq_refl
                  manifestExample_rewrite)).
Defined.

(** ** Validated identifiers *)

Import BadgeSelector.

Lemma span_parts (p : N -> bool) s :
  s = fst (span p s) ++ snd (span p s) /\ forallb p (fst (span p s)) = true.
Proof.
  induction s as [|c r [IH1 IH2]]; cbn [span]; [now split|].
  destruct (p c) eqn:E; [|now split].
  destruct (span p r) as [a b]. cbn [fst snd app forallb] in *.
  split; [now f_equal | now rewrite E].
Qed.

Lemma forallb_weaken {A} (p q : A -> bool) l :
  (forall x, p x = true -> q x = true) -> forallb p l = true -> forallb q l = true.
Proof. rewrite !forallb_forall. auto. Qed.

Lemma packagePattern_linkSafe url : packagePattern url = true -> forallb linkSafe url = true.
Proof.
  unfold packagePattern, nonEmptyAll. intros H. apply andb_true_iff in H as [_ H].
  revert H. apply forallb_weaken. intros c. unfold linkSafe. cbn [existsb].
  intros Hc. bool_to_prop; subst; rewrite ?Hc; try reflexivity;
    now rewrite ?orb_true_r.
Qed.

Lemma repoPattern_linkSafe url : repoPattern url = true -> forallb linkSafe url = true.
Proof.
  unfold repoPattern.
  destruct (span_parts (fun c => isAlnum c || existsb (N.eqb c) [45; 95]%N) url)
    as [Hs Ha].
  destruct (span _ url) as [[|a0 a] [|slash repo]]; try discriminate.
  cbn [fst snd] in *. intros H. apply andb_true_iff in H as [Hslash Hrepo].
  apply N.eqb_eq in Hslash. subst slash.
  unfold nonEmptyAll in Hrepo. apply andb_true_iff in Hrepo as [_ Hrepo].
  rewrite Hs. rewrite forallb_app.
  apply andb_true_iff. split;
    [|cbn [forallb]; apply andb_true_iff; split; [reflexivity|]].
  - revert Ha. apply forallb_weaken. intros c. unfold linkSafe. cbn [existsb].
    intros Hc. bool_to_prop; subst; rewrite ?Hc; try reflexivity;
      now rewrite ?orb_true_r.
  - revert Hrepo. apply forallb_weaken. intros c. unfold linkSafe. cbn [existsb].
    intros Hc. bool_to_prop; subst; rewrite ?Hc; try reflexivity;
      now rewrite ?orb_true_r.
Qed.

Lemma linkSafe_addressChar c : linkSafe c = true -> addressChar c = true.
Proof.
  unfold addressChar. intros H.
  destruct (N.eqb_spec c 40) as [->|_]; [discriminate H|].
  destruct (N.eqb_spec c 41) as [->|_]; [discriminate H|].
  destruct (JSString.isWhiteSpace c) eqn:Hw; [|reflexivity].
  exfalso. unfold linkSafe, isAlnum, URI.isAlpha, JSString.isDigit in H.
  unfold JSString.isWhiteSpace in Hw. cbn [existsb] in H.
  bool_to_prop; subst; try discriminate; lia.
Qed.

(** X21. For the npm and GitHub badge types an identifier that has passed
    validation consists of letters, digits and the characters [- _ @ / .]
    only, and the rendered snippet is exactly the markdown image
    [![alt](address)] with the alt text of the type and, as its address,
    the directory of the type at img.shields.io followed by the identifier
    unchanged; the alt text has no closing bracket, and the whole address
    has no white space and no parenthesis. *)
Theorem validated_identifier_is_link_safe (t : BadgeTemplate) (url : jsstring)
        label message color :
  In t embeddingTemplates ->
  urlPattern t url = true ->
  forallb linkSafe url = true
  /\ exists alt directory,
       In (t_type t, alt, directory) badgeImages
       /\ generateMarkdown t url label message color
          = Normal (image alt (directory ++ url))
       /\ forallb addressChar (directory ++ url) = true
       /\ forallb (fun c => negb (c =? 93)%N) alt = true.
Proof.
  intros Ht Hp.
  assert (Hs : forallb linkSafe url = true).
  { unfold embeddingTemplates in Ht. cbn [In] in Ht.
    destruct Ht as [<- | [<- | [<- | [<- | [<- | [<- | []]]]]]];
      first [now apply packagePattern_linkSafe | now apply repoPattern_linkSafe]. }
  split; [exact Hs|].
  assert (Ha : forallb addressChar url = true).
  { revert Hs. apply forallb_weaken. exact linkSafe_addressChar. }
  unfold embeddingTemplates in Ht. cbn [In] in Ht.
  destruct Ht as [<- | [<- | [<- | [<- | [<- | [<- | []]]]]]].
  - exists `"npm", `"https://img.shields.io/npm/v/".
    split; [cbn; auto|]. split; [reflexivity|].
    split; [rewrite forallb_app, Ha; reflexivity | reflexivity].
  - exists `"npm", `"https://img.shields.io/npm/dm/".
    split; [cbn; auto|]. split; [reflexivity|].
    split; [rewrite forallb_app, Ha; reflexivity | reflexivity].
  - exists `"GitHub stars", `"https://img.shields.io/github/stars/".
    split; [cbn; auto|]. split; [reflexivity|].
    split; [rewrite forallb_app, Ha; reflexivity | reflexivity].
  - exists `"GitHub forks", `"https://img.shields.io/github/forks/".
    split; [cbn; auto 6|]. split; [reflexivity|].
    split; [rewrite forallb_app, Ha; reflexivity | reflexivity].
  - exists `"GitHub issues", `"https://img.shields.io/github/issues/".
    split; [cbn; auto 7|]. split; [reflexivity|].
    split; [rewrite forallb_app, Ha; reflexivity | reflexivity].
  - exists `"GitHub license", `"https://img.shields.io/github/license/".
    split; [cbn; auto 8|]. split; [reflexivity|].
    split; [rewrite forallb_app, Ha; reflexivity | reflexivity].
Qed.

Lemma validated_identifier_is_link_safe_witness :
  In githubStarsTemplate embeddingTemplates
  /\ urlPattern githubStarsTemplate `"facebook/react" = true
  /\ urlPattern githubStarsTemplate `"invalid space/x" = false
  /\ generateMarkdown githubStarsTemplate `"facebook/react" None None None
     = Normal `"![GitHub stars](https://img.shields.io/github/stars/facebook/react)"
  /\ exists alt directory,
       In (`"github-stars", alt, directory) badgeImages
       /\ generateMarkdown githubStarsTemplate `"facebook/react" None None None
          = Normal (image alt (directory ++ `"facebook/react"))
       /\ forallb addressChar (directory ++ `"facebook/react") = true
       /\ forallb (fun c => negb (c =? 93)%N) alt = true.
Proof.
  split; [cbn; auto|]. split; [reflexivity|]. split; [reflexivity|].
  split; [reflexivity|].
  exact (proj2 (validated_identifier_is_link_safe githubStarsTemplate `"facebook/react"
                  None None None (or_intror (or_intror (or_introl eq_refl)))
                  eq_refl)).
Defined.

Import BadgeSelector ReadmeGenerator ReadmeSpec BadgeForm.
Import AnalysisSpec UpdateSpec CheckerSpec FormSpec.

(** ** What leaves the page *)

Lemma handle_exports readme e app :
  ReadmeApp.downloads (ReadmeApp.handle readme e app)
  = ReadmeApp.downloads app ++ (if isDownload e then [readme] else [])
  /\ ReadmeApp.clipboard (ReadmeApp.handle readme e app)
     = (if isCopy e then Some readme else ReadmeApp.clipboard app).
Proof.
  destruct e as [i x|license|ty|c|newId|badgeId| |];
    cbn [ReadmeApp.handle isDownload isCopy]; rewrite ?app_nil_r;
    try (split; reflexivity).
  all: match goal with
       | i : ReadmeApp.input |- _ => destruct i; split; reflexivity
       | |- context [ReadmeApp.clickAdd ?newId ?app] =>
           unfold ReadmeApp.clickAdd;
           destruct (addBadge newId _ _) as [[fm bs] t]; split; reflexivity
       | |- context [ReadmeApp.clickRemove ?badgeId ?app] =>
           unfold ReadmeApp.clickRemove;
           destruct (removeBadge badgeId _) as [bs t]; split; reflexivity
       end.
Qed.

Lemma step_exports app e :
  ReadmeApp.downloads (ReadmeApp.step app e)
  = ReadmeApp.downloads app
    ++ match exported isDownload e app with
       | Some readme => [readme]
       | None => []
       end
  /\ ReadmeApp.clipboard (ReadmeApp.step app e)
     = match exported isCopy e app with
       | Some readme => Some readme
       | None => ReadmeApp.clipboard app
       end.
Proof.
  unfold ReadmeApp.step, exported.
  destruct (generateReadme (ReadmeApp.fields app)) as [readme|err].
  2: { destruct (isDownload e), (isCopy e); now rewrite app_nil_r. }
  destruct (ReadmeApp.enabled e app) eqn:En.
  - destruct (handle_exports readme e app) as [Hd Hc]. rewrite Hd, Hc.
    destruct (isDownload e), (isCopy e); split; reflexivity.
  - destruct e; try discriminate En; cbn [isDownload isCopy];
      now rewrite app_nil_r.
Qed.

Lemma run_exports es : forall app,
  ReadmeApp.downloads (ReadmeApp.run es app)
  = ReadmeApp.downloads app ++ downloadsOf es app
  /\ ReadmeApp.clipboard (ReadmeApp.run es app)
     = copyOf es app (ReadmeApp.clipboard app).
Proof.
  unfold ReadmeApp.run.
  induction es as [|e es IH]; intros app; cbn [fold_left downloadsOf copyOf].
  - now rewrite app_nil_r.
  - destruct (IH (ReadmeApp.step app e)) as [Hd Hc].
    destruct (step_exports app e) as [Sd Sc].
    rewrite Hd, Hc, Sd, Sc. split; [|reflexivity].
    destruct (exported isDownload e app); rewrite <- app_assoc; reflexivity.
Qed.

Lemma generateReadme_returns_nonempty f readme :
  generateReadme f = Normal readme -> readme <> [].
Proof.
  intros E. pose proof (generateReadme_result f) as Hr.
  destruct (forallb encodable (badges f)).
  - destruct Hr as (s & Hs & Hne). rewrite E in Hs. now injection Hs as ->.
  - rewrite E in Hr. discriminate.
Qed.

Lemma exported_nonempty wanted e app readme :
  exported wanted e app = Some readme -> readme <> [].
Proof.
  unfold exported. destruct (wanted e); [|discriminate].
  destruct (generateReadme (ReadmeApp.fields app)) as [r|] eqn:E; [|discriminate].
  intros [= <-]. exact (generateReadme_returns_nonempty _ _ E).
Qed.

Lemma downloadsOf_nonempty es : forall app,
  Forall (fun text => text <> []) (downloadsOf es app).
Proof.
  induction es as [|e es IH]; intros app; cbn [downloadsOf]; [constructor|].
  destruct (exported isDownload e app) as [readme|] eqn:E; [|apply IH].
  constructor; [exact (exported_nonempty _ _ _ _ E) | apply IH].
Qed.

Lemma copyOf_nonempty es : forall app copied,
  copied <> Some [] -> copyOf es app copied <> Some [].
Proof.
  induction es as [|e es IH]; intros app copied Hc; cbn [copyOf]; [exact Hc|].
  apply IH. destruct (exported isCopy e app) as [readme|] eqn:E; [|exact Hc].
  intros [= H]. exact (exported_nonempty _ _ _ _ E H).
Qed.

(** X22. Whatever is copied to the clipboard or downloaded as README.md is
    the text that [generateReadme] returns for the form as it is when the
    click arrives: in whatever state, a copy click puts that text on the
    clipboard and a download click appends it to the downloads; so after
    any sequence of events the downloads are, in order, the READMEs of the
    form at each download click, and the clipboard holds the README of the
    form at the last copy click.  None of these texts is empty. *)
Theorem readme_exports_generated (es : list ReadmeApp.event) :
  let app := ReadmeApp.run es ReadmeApp.initialApp in
  ReadmeApp.downloads app = downloadsOf es ReadmeApp.initialApp
  /\ ReadmeApp.clipboard app = copyOf es ReadmeApp.initialApp None
  /\ Forall (fun text => text <> []) (ReadmeApp.downloads app)
  /\ ReadmeApp.clipboard app <> Some []
  /\ (forall state readme,
        generateReadme (ReadmeApp.fields state) = Normal readme ->
        ReadmeApp.clipboard (ReadmeApp.step state ReadmeApp.ClickCopy) = Some readme
        /\ ReadmeApp.downloads (ReadmeApp.step state ReadmeApp.ClickDownload)
           = ReadmeApp.downloads state ++ [readme]
        /\ readme <> []).
Proof.
  cbv zeta. destruct (run_exports es ReadmeApp.initialApp) as [Hd Hc].
  cbn [ReadmeApp.downloads ReadmeApp.clipboard ReadmeApp.initialApp app] in Hd, Hc.
  rewrite Hd, Hc. split; [reflexivity|]. split; [reflexivity|].
  split; [apply downloadsOf_nonempty|].
  split; [apply copyOf_nonempty; discriminate|].
  intros state readme E. unfold ReadmeApp.step. rewrite E.
  cbn [ReadmeApp.enabled ReadmeApp.handle ReadmeApp.copyToClipboard
       ReadmeApp.downloadReadme ReadmeApp.clipboard ReadmeApp.downloads].
  split; [reflexivity|]. split; [reflexivity|].
  exact (generateReadme_returns_nonempty _ _ E).
Qed.

(** ** The package.json download *)

Import DependencyChecker CheckerApp.

Lemma handle_downloads e app :
  e <> ClickDownload -> downloads (handle e app) = downloads app.
Proof.
  intros He. destruct e as [text| | | | |file|i|]; cbn [handle]; try reflexivity;
    try contradiction.
  - unfold updateToLatestVersions.
    destruct (rewriteAllVersionsToLatest _); reflexivity.
  - unfold handleFileUpload. destruct file as [f|]; [|reflexivity].
    destruct (_ && _); reflexivity.
  - unfold readCompletes. destruct (nth_error (reads app) i) as [f|]; [|reflexivity].
    destruct (fileText f); reflexivity.
  - unfold timerFires. destruct (timers app); reflexivity.
Qed.

Lemma step_downloads app e :
  Forall (fun text => text <> []) (downloads app) ->
  Forall (fun text => text <> []) (downloads (step app e)).
Proof.
  intros H. unfold step. destruct (enabled e app) eqn:He; [|exact H].
  destruct e as [text| | | | |file|i|];
    try (rewrite handle_downloads by discriminate; exact H).
  cbn [handle downloadUpdatedPackageJson downloads]. apply Forall_app.
  split; [exact H|]. constructor; [|constructor].
  cbn [enabled] in He. apply andb_true_iff in He as [_ He].
  intros E. rewrite E in He. discriminate.
Qed.

Lemma run_downloads es : forall app,
  Forall (fun text => text <> []) (downloads app) ->
  Forall (fun text => text <> []) (downloads (run es app)).
Proof.
  unfold run. induction es as [|e es IH]; intros app H; cbn [fold_left]; [exact H|].
  apply IH. now apply step_downloads.
Qed.

(** X23. The file offered as package.json is never empty: the Download
    button exists only while the input field holds some text (and a summary
    is shown), and a click hands over the text of the field as it then is,
    analysed or not. *)
Theorem package_download_nonempty (es : list event) :
  let app := run es initialApp in
  Forall (fun text => text <> []) (downloads app)
  /\ downloads (step app ClickDownload)
     = if isSome (st_analysis (ui app)) && nonEmpty (st_packageJson (ui app))
       then downloads app ++ [st_packageJson (ui app)]
       else downloads app.
Proof.
  cbv zeta. split.
  - apply run_downloads. constructor.
  - unfold step. cbn [enabled].
    destruct (isSome _ && nonEmpty _); reflexivity.
Qed.

Import BadgeSelector ReadmeGenerator ReadmeSpec BadgeForm.
Import AnalysisSpec UpdateSpec CheckerSpec FormSpec.

(** ** A features field of blank lines *)

Lemma trimStart_blank s :
  forallb JSString.isWhiteSpace s = true -> JSString.trimStart s = [].
Proof.
  induction s as [|c r IH]; cbn [forallb JSString.trimStart]; [reflexivity|].
  intros H. apply andb_true_iff in H as [-> Hr]. now apply IH.
Qed.

Lemma trim_blank s : forallb JSString.isWhiteSpace s = true -> JSString.trim s = [].
Proof. intros H. unfold JSString.trim. now rewrite (trimStart_blank s H). Qed.

Lemma split_chars sep s : forall line,
  In line (JSString.split sep s) -> forall c, In c line -> In c s.
Proof.
  induction s as [|x r IH]; cbn [JSString.split]; intros line Hl c Hc.
  - destruct Hl as [<- | []]. destruct Hc.
  - destruct (x =? sep)%N.
    + destruct Hl as [<- | Hl]; [destruct Hc|]. right. exact (IH line Hl c Hc).
    + destruct (JSString.split sep r) as [|cur more] eqn:E.
      * destruct Hl as [<- | []]. destruct Hc as [<- | []]. now left.
      * destruct Hl as [<- | Hl].
        -- destruct Hc as [<- | Hc]; [now left|]. right.
           apply (IH cur); [now left | exact Hc].
        -- right. apply (IH line); [now right | exact Hc].
Qed.

Lemma blank_lines text :
  forallb JSString.isWhiteSpace text = true ->
  filter (fun x => nonEmpty (JSString.trim x)) (JSString.split 10 text) = [].
Proof.
  intros H. rewrite forallb_forall in H.
  assert (Hl : forall line, In line (JSString.split 10 text) ->
               nonEmpty (JSString.trim line) = false).
  { intros line Hin. rewrite trim_blank; [reflexivity|].
    apply forallb_forall. intros c Hc. apply H.
    exact (split_chars 10 text line Hin c Hc). }
  induction (JSString.split 10 text) as [|line ls IH]; cbn [filter]; [reflexivity|].
  rewrite (Hl line) by now left. apply IH. intros l Hin. apply Hl. now right.
Qed.

(** X24. A features field that is not empty but holds only white space
    (blank lines) still produces the Features heading, with no list item
    under it, and keeps the placeholder document away. *)
Theorem blank_features_heading_only (text : jsstring) :
  text <> [] ->
  forallb JSString.isWhiteSpace text = true ->
  generateReadme (onlyFeatures text)
  = Normal (`"## Features" ++ nl ++ nl ++ nl).
Proof.
  intros Hne Hb. unfold generateReadme.
  cbn [projectName description installation usage features selectedLicenses author
       contributing badges onlyFeatures length nonEmpty Nat.eqb Nat.ltb Nat.leb negb
       bind app].
  rewrite (blank_lines text Hb). cbn [fold_left].
  destruct text as [|c r]; [contradiction|]. cbn [length Nat.eqb negb]. reflexivity.
Qed.

Lemma blank_features_heading_only_witness :
  generateReadme (onlyFeatures (`"  " ++ nl ++ `" "))
  = Normal (`"## Features" ++ nl ++ nl ++ nl)
  /\ generateReadme (onlyFeatures []) = Normal placeholder.
Proof.
  split; [|reflexivity].
  apply (blank_features_heading_only (`"  " ++ nl ++ `" ")); [discriminate | reflexivity].
Defined.
